(** * LRU cache: a shallow embedding of [main.py] and [dll_lru_cache.py]

    The repository holds two implementations of a fixed-capacity cache with
    least-recently-used eviction:

    - [main.py]: one Python [dict]; the insertion order of the dict is used
      as the recency queue (oldest key first);
    - [dll_lru_cache.py]: a [dict] from keys to nodes of an explicit doubly
      linked list (front = most recently used, back = least recently used).

    Python objects that are mutated through references (list nodes) live in
    an explicit store addressed by object identity; methods are computations
    in a state-and-exception monad, so that the state left behind by a raised
    exception is part of the model. *)

From stdpp Require Import gmap list strings.
From Stdlib Require Import ZArith Lia.

Set Default Proof Using "Type*".

(** ** Python values and exceptions *)

(** The exceptions the two files can raise. [InvalidReference] is not a Python
    exception: it is the model's answer to dereferencing an address at which
    the store holds no object, which a Python reference can never do. It is
    shown to be unreachable. *)
Inductive exn : Type :=
  | TypeError
  | ValueError
  | KeyError
  | IsEmptyError
  | StopIteration
  | InvalidReference.

Global Instance exn_eq_dec : EqDecision exn.
Proof. solve_decision. Defined.

Inductive result (A : Type) : Type :=
  | Ok (a : A)
  | Raise (e : exn).
Arguments Ok {A} a.
Arguments Raise {A} e.

(** What a caller may hand to the constructor as [max_size]. A float is
    [m * 2^e]. *)
Inductive pyobj : Type :=
  | PyInt (z : Z)
  | PyBool (b : bool)
  | PyFloat (m e : Z)
  | PyStr (s : string)
  | PyNone.

Global Instance pyobj_eq_dec : EqDecision pyobj.
Proof. solve_decision. Defined.

(** [isinstance(o, int)]: [bool] is a subclass of [int]. *)
Definition isinstance_int (o : pyobj) : bool :=
  match o with
  | PyInt _ | PyBool _ => true
  | _ => false
  end.

(** The integer an [int] instance stands for ([True] is 1, [False] is 0). *)
Definition int_value (o : pyobj) : option Z :=
  match o with
  | PyInt z => Some z
  | PyBool b => Some (if b then 1 else 0)%Z
  | _ => None
  end.

(** [o <= z] for an integer literal [z]; ordering a [str] or [None] against
    an [int] raises [TypeError]. *)
Definition obj_le_int (o : pyobj) (z : Z) : result bool :=
  match o with
  | PyInt x => Ok (x <=? z)%Z
  | PyBool b => Ok ((if b then 1 else 0) <=? z)%Z
  | PyFloat m e =>
      Ok (if (0 <=? e)%Z then (m * 2 ^ e <=? z)%Z else (m <=? z * 2 ^ (- e))%Z)
  | PyStr _ | PyNone => Raise TypeError
  end.

(** [n >= o] for an integer [n]. *)
Definition int_ge_obj (n : Z) (o : pyobj) : result bool :=
  match o with
  | PyInt x => Ok (x <=? n)%Z
  | PyBool b => Ok ((if b then 1 else 0) <=? n)%Z
  | PyFloat m e =>
      Ok (if (0 <=? e)%Z then (m * 2 ^ e <=? n)%Z else (m <=? n * 2 ^ (- e))%Z)
  | PyStr _ | PyNone => Raise TypeError
  end.

(** ** State and exception monad

    A method is a function from the state before the call to its outcome and
    the state after it. A raised exception keeps the state reached so far:
    Python does not roll back. *)
Definition M (S A : Type) : Type := S → result A * S.

Global Instance M_ret {S} : MRet (M S) := λ A a s, (Ok a, s).
Global Instance M_bind {S} : MBind (M S) :=
  λ A B k m s, match m s with
               | (Ok a, s') => k a s'
               | (Raise e, s') => (Raise e, s')
               end.

Definition ret {S A} (a : A) : M S A := mret a.
Definition raise {S A} (e : exn) : M S A := λ s, (Raise e, s).
Definition read {S A} (f : S → A) : M S A := λ s, (Ok (f s), s).
Definition modify {S} (f : S → S) : M S unit := λ s, (Ok (), f s).

(** Run a computation on a component of the state. *)
Definition zoom {S T A} (get : S → T) (set : T → S → S) (m : M T A) : M S A :=
  λ s, let '(r, t) := m (get s) in (r, set t s).

(** ** Calls made by a client *)

(** [Get k None] is [cache.get(k)]; [Get k (Some d)] is [cache.get(k, d)]:
    the module-private sentinel [_MISSING] marks the absent argument. *)
Inductive op (K V : Type) : Type :=
  | Get (key : K) (default_value : option V)
  | Put (key : K) (value : V).
Arguments Get {K V} key default_value.
Arguments Put {K V} key value.

Definition op_key {K V} (o : op K V) : K :=
  match o with
  | Get k _ => k
  | Put k _ => k
  end.

(** A call returns a value ([get]) or Python's [None] ([put]). *)
Definition outcome (V : Type) : Type := result (option V).

(** *** Recency of a key in a history of calls

    [last_access ops k] is the position in [ops] of the last call whose key
    is [k], if there is one. *)
Fixpoint last_access_from {K V} `{EqDecision K} (t : nat) (ops : list (op K V)) (k : K)
  : option nat :=
  match ops with
  | [] => None
  | o :: rest =>
      match last_access_from (S t) rest k with
      | Some i => Some i
      | None => if decide (op_key o = k) then Some t else None
      end
  end.

Definition last_access {K V} `{EqDecision K} (ops : list (op K V)) (k : K) : option nat :=
  last_access_from 0 ops k.

(** [k1] was accessed strictly earlier than [k2]. *)
Definition accessed_before {K V} `{EqDecision K} (ops : list (op K V)) (k1 k2 : K) : Prop :=
  ∃ i j, last_access ops k1 = Some i ∧ last_access ops k2 = Some j ∧ i < j.

(** ** Ordered dictionaries

    An association list with unique keys, in order. *)
Abbreviation odict K V := (list (K * V)) (only parsing).

Section odict.
Context {K V : Type} `{EqDecision K}.

Fixpoint od_get (key : K) (d : odict K V) : option V :=
  match d with
  | [] => None
  | (k, v) :: rest => if decide (k = key) then Some v else od_get key rest
  end.

(** [key in d] *)
Definition od_contains (key : K) (d : odict K V) : bool :=
  match od_get key d with Some _ => true | None => false end.

(** The dict without [key]; the other keys keep their order. *)
Fixpoint od_remove (key : K) (d : odict K V) : odict K V :=
  match d with
  | [] => []
  | (k, v) :: rest =>
      if decide (k = key) then rest else (k, v) :: od_remove key rest
  end.

(** [d[key] = value]: a present key keeps its position; a new key goes to
    the end. *)
Fixpoint od_set (key : K) (value : V) (d : odict K V) : odict K V :=
  match d with
  | [] => [(key, value)]
  | (k, v) :: rest =>
      if decide (k = key) then (k, value) :: rest
      else (k, v) :: od_set key value rest
  end.

End odict.

(** ** [main.py]: the dict-insertion-order variant *)
Module Main.

Section cache.
Context {K V : Type} `{EqDecision K}.

(** [self._dict] is a Python [dict], which keeps its insertion order: the
    oldest key comes first. *)
Record LRUCache : Type := mkLRUCache {
  _max_size : pyobj;
  _dict : odict K V;
}.

Definition set_dict (d : odict K V) (c : LRUCache) : LRUCache :=
  {| _max_size := _max_size c; _dict := d |}.

(** [self._dict.pop(key)] *)
Definition dict_pop (key : K) : M LRUCache V :=
  λ c, match od_get key (_dict c) with
       | Some v => (Ok v, set_dict (od_remove key (_dict c)) c)
       | None => (Raise KeyError, c)
       end.

(** [self._dict[key] = value] *)
Definition dict_setitem (key : K) (value : V) : M LRUCache unit :=
  modify (λ c, set_dict (od_set key value (_dict c)) c).

(** [next(iter(self._dict))] *)
Definition dict_first_key : M LRUCache K :=
  λ c, match _dict c with
       | (k, _) :: _ => (Ok k, c)
       | [] => (Raise StopIteration, c)
       end.

(** [LRUCache.__init__]: the constructor either raises or yields the
    object. *)
Definition __init__ (max_size : pyobj) : result LRUCache :=
  if negb (isinstance_int max_size) then Raise TypeError
  else
    match obj_le_int max_size 0 with
    | Raise e => Raise e
    | Ok true => Raise ValueError
    | Ok false => Ok {| _max_size := max_size; _dict := [] |}
    end.

Definition max_size (c : LRUCache) : pyobj := _max_size c.

(** [len(self._dict) >= self._max_size] *)
Definition full : M LRUCache bool :=
  λ c, (int_ge_obj (Z.of_nat (length (_dict c))) (_max_size c), c).

Definition get (key : K) (default_value : option V) : M LRUCache V :=
  present ← read (λ c, od_contains key (_dict c));
  if present : bool then
    value ← dict_pop key;
    dict_setitem key value;;
    ret value
  else
    match default_value with
    | None => raise KeyError
    | Some d => ret d
    end.

Definition put (key : K) (value : V) : M LRUCache unit :=
  is_full ← full;
  (if is_full : bool then
     lru_key ← dict_first_key;
     dict_pop lru_key;;
     ret ()
   else ret ());;
  dict_setitem key value.

(** One client call. *)
Definition step (o : op K V) : M LRUCache (option V) :=
  match o with
  | Get k d => v ← get k d; ret (Some v)
  | Put k v => put k v;; ret None
  end.

(** A client that goes on after an exception: the outcomes of the calls,
    in order, and the final state. *)
Fixpoint run (ops : list (op K V)) (c : LRUCache) : list (outcome V) * LRUCache :=
  match ops with
  | [] => ([], c)
  | o :: rest =>
      let '(r, c') := step o c in
      let '(rs, c'') := run rest c' in
      (r :: rs, c'')
  end.

Definition state_after (ops : list (op K V)) (c : LRUCache) : LRUCache := (run ops c).2.
Definition outcomes (ops : list (op K V)) (c : LRUCache) : list (outcome V) := (run ops c).1.

(** Observers. *)
Definition len (c : LRUCache) : nat := length (_dict c).
Definition keys (c : LRUCache) : list K := (_dict c).*1.
(** Recency order, most recently used first: the dict order reversed. *)
Definition recency (c : LRUCache) : list K := reverse (keys c).
Definition cached (c : LRUCache) (k : K) : option V := od_get k (_dict c).

End cache.

Arguments LRUCache : clear implicits.

End Main.

(** ** [dll_lru_cache.py]: the doubly-linked-list variant *)
Module DllLruCache.

(** The identity of a node object. *)
Abbreviation addr := nat (only parsing).

Section cache.
Context {K V : Type} `{Countable K}.

(** [class _Item]: a key (read-only) and a value. *)
Record _Item : Type := mk_Item {
  _key : K;
  value : V;
}.

(** [class _DLListNode]. Each node holds an item of its own: no item is
    shared between two nodes. *)
Record _DLListNode : Type := mk_DLListNode {
  data : _Item;
  _prv : option addr;
  _nxt : option addr;
}.

(** The node objects, by identity. *)
Abbreviation heap := (gmap addr _DLListNode).

Definition load (a : addr) : M heap _DLListNode :=
  λ h, match h !! a with
       | Some n => (Ok n, h)
       | None => (Raise InvalidReference, h)
       end.

Definition update (a : addr) (f : _DLListNode → _DLListNode) : M heap unit :=
  λ h, match h !! a with
       | Some n => (Ok (), <[a := f n]> h)
       | None => (Raise InvalidReference, h)
       end.

(** [_DLListNode(data)]: a new object, at an identity no object has. *)
Definition new_node (d : _Item) : M heap addr :=
  λ h, let a := fresh (dom h) in (Ok a, <[a := mk_DLListNode d None None]> h).

Definition with_prv (p : option addr) (n : _DLListNode) : _DLListNode :=
  mk_DLListNode (data n) p (_nxt n).
Definition with_nxt (x : option addr) (n : _DLListNode) : _DLListNode :=
  mk_DLListNode (data n) (_prv n) x.
Definition with_value (v : V) (n : _DLListNode) : _DLListNode :=
  mk_DLListNode (mk_Item (_key (data n)) v) (_prv n) (_nxt n).

(** Field reads and writes [node._prv], [node._nxt], [node.data.key],
    [node.data.value]. *)
Definition node_prv (self : addr) : M heap (option addr) := n ← load self; ret (_prv n).
Definition node_nxt (self : addr) : M heap (option addr) := n ← load self; ret (_nxt n).
Definition node_key (self : addr) : M heap K := n ← load self; ret (_key (data n)).
Definition node_value (self : addr) : M heap V := n ← load self; ret (value (data n)).
Definition set_prv (self : addr) (p : option addr) : M heap unit := update self (with_prv p).
Definition set_nxt (self : addr) (x : option addr) : M heap unit := update self (with_nxt x).
Definition set_value (self : addr) (v : V) : M heap unit := update self (with_value v).

(** [_DLListNode.eject] *)
Definition node_eject (self : addr) : M heap addr :=
  p ← node_prv self;
  match p with
  | Some p' => x ← node_nxt self; set_nxt p' x
  | None => ret ()
  end;;
  x ← node_nxt self;
  match x with
  | Some x' => p ← node_prv self; set_prv x' p
  | None => ret ()
  end;;
  set_prv self None;;
  set_nxt self None;;
  ret self.

(** [_DLListNode.insert_between] *)
Definition node_insert_between (self : addr) (prv nxt : option addr) : M heap addr :=
  match prv with
  | Some p => set_nxt p (Some self)
  | None => ret ()
  end;;
  match nxt with
  | Some x => set_prv x (Some self)
  | None => ret ()
  end;;
  set_prv self prv;;
  set_nxt self nxt;;
  ret self.

(** [class _DLList]: the list object, with the heap its references point
    into. *)
Record _DLList : Type := mk_DLList {
  _front : option addr;
  _back : option addr;
  nodes : heap;
}.

Definition set_front (f : option addr) (l : _DLList) : _DLList :=
  mk_DLList f (_back l) (nodes l).
Definition set_back (b : option addr) (l : _DLList) : _DLList :=
  mk_DLList (_front l) b (nodes l).
Definition set_nodes (h : heap) (l : _DLList) : _DLList :=
  mk_DLList (_front l) (_back l) h.

Definition on_heap {A} (m : M heap A) : M _DLList A := zoom nodes set_nodes m.

(** [_DLList.__init__] *)
Definition new_DLList : _DLList := mk_DLList None None ∅.

Definition empty : M _DLList bool :=
  b ← read _back; ret (if b is None then true else false).

Definition front : M _DLList (option addr) := read _front.
Definition back : M _DLList (option addr) := read _back.

Definition push_front (node : addr) : M _DLList unit :=
  f ← read _front;
  r ← on_heap (node_insert_between node None f);
  modify (set_front (Some r));;
  b ← read _back;
  if b is None then modify (set_back (Some node)) else ret ().

Definition push_back (node : addr) : M _DLList unit :=
  b ← read _back;
  r ← on_heap (node_insert_between node b None);
  modify (set_back (Some r));;
  f ← read _front;
  if f is None then modify (set_front (Some node)) else ret ().

Definition eject (node : addr) : M _DLList addr :=
  f ← read _front;
  (if bool_decide (f = Some node)
   then x ← on_heap (node_nxt node); modify (set_front x)
   else ret ());;
  b ← read _back;
  (if bool_decide (b = Some node)
   then p ← on_heap (node_prv node); modify (set_back p)
   else ret ());;
  on_heap (node_eject node).

Definition pop_front : M _DLList addr :=
  f ← read _front;
  match f with
  | None => raise IsEmptyError
  | Some node => eject node
  end.

Definition pop_back : M _DLList addr :=
  b ← read _back;
  match b with
  | None => raise IsEmptyError
  | Some node => eject node
  end.

Definition move_to_front (node : addr) : M _DLList addr :=
  f ← read _front;
  (if bool_decide (f = Some node) then ret ()
   else eject node;; push_front node);;
  ret node.

Definition move_to_back (node : addr) : M _DLList addr :=
  b ← read _back;
  (if bool_decide (b = Some node) then ret ()
   else eject node;; push_back node);;
  ret node.

(** [class LRUCache] *)
Record LRUCache : Type := mkLRUCache {
  _max_size : pyobj;
  _dict : gmap K addr;
  _dllist : _DLList;
}.

Definition set_dict (d : gmap K addr) (c : LRUCache) : LRUCache :=
  mkLRUCache (_max_size c) d (_dllist c).
Definition set_dllist (l : _DLList) (c : LRUCache) : LRUCache :=
  mkLRUCache (_max_size c) (_dict c) l.

Definition on_dllist {A} (m : M _DLList A) : M LRUCache A := zoom _dllist set_dllist m.

(** [del self._dict[key]] *)
Definition dict_delitem (key : K) : M LRUCache unit :=
  λ c, match _dict c !! key with
       | Some _ => (Ok (), set_dict (delete key (_dict c)) c)
       | None => (Raise KeyError, c)
       end.

(** [LRUCache.__init__]; an omitted argument is [PyNone]. *)
Definition __init__ (max_size : pyobj) : result LRUCache :=
  if negb (isinstance_int max_size) then Raise TypeError
  else
    match obj_le_int max_size 0 with
    | Raise e => Raise e
    | Ok true => Raise ValueError
    | Ok false => Ok (mkLRUCache max_size ∅ new_DLList)
    end.

Definition max_size (c : LRUCache) : pyobj := _max_size c.

(** [self._max_size is not None and len(self._dict) >= self._max_size] *)
Definition full : M LRUCache bool :=
  λ c, match _max_size c with
       | PyNone => (Ok false, c)
       | o => (int_ge_obj (Z.of_nat (size (_dict c))) o, c)
       end.

Definition get (key : K) (default_value : option V) : M LRUCache V :=
  node ← read (λ c, _dict c !! key);
  match node with
  | Some node =>
      on_dllist (move_to_front node);;
      on_dllist (on_heap (node_value node))
  | None =>
      match default_value with
      | Some d => ret d
      | None => raise KeyError
      end
  end.

Definition put (key : K) (value : V) : M LRUCache unit :=
  node ← read (λ c, _dict c !! key);
  match node with
  | Some node =>
      on_dllist (move_to_front node);;
      on_dllist (on_heap (set_value node value))
  | None =>
      is_full ← full;
      (if is_full : bool then
         lru_node ← on_dllist pop_back;
         lru_key ← on_dllist (on_heap (node_key lru_node));
         dict_delitem lru_key
       else ret ());;
      node ← on_dllist (on_heap (new_node (mk_Item key value)));
      modify (λ c, set_dict (<[key := node]> (_dict c)) c);;
      on_dllist (push_front node)
  end.

Definition step (o : op K V) : M LRUCache (option V) :=
  match o with
  | Get k d => v ← get k d; ret (Some v)
  | Put k v => put k v;; ret None
  end.

Fixpoint run (ops : list (op K V)) (c : LRUCache) : list (outcome V) * LRUCache :=
  match ops with
  | [] => ([], c)
  | o :: rest =>
      let '(r, c') := step o c in
      let '(rs, c'') := run rest c' in
      (r :: rs, c'')
  end.

Definition state_after (ops : list (op K V)) (c : LRUCache) : LRUCache := (run ops c).2.
Definition outcomes (ops : list (op K V)) (c : LRUCache) : list (outcome V) := (run ops c).1.

(** *** Observers *)

(** The nodes met from [cur] along the [_nxt] references. *)
Fixpoint walk (fuel : nat) (h : heap) (cur : option addr) : list addr :=
  match fuel, cur with
  | S fuel', Some a => a :: walk fuel' h (h !! a ≫= _nxt)
  | _, _ => []
  end.

(** The nodes of a list, front to back. A list cannot be longer than the
    heap is large. *)
Definition to_list (l : _DLList) : list addr := walk (size (nodes l)) (nodes l) (_front l).

(** The nodes met from the back along the [_prv] references. *)
Fixpoint walk_back (fuel : nat) (h : heap) (cur : option addr) : list addr :=
  match fuel, cur with
  | S fuel', Some a => a :: walk_back fuel' h (h !! a ≫= _prv)
  | _, _ => []
  end.

Definition to_list_back (l : _DLList) : list addr :=
  walk_back (size (nodes l)) (nodes l) (_back l).

Definition item_at (h : heap) (a : addr) : option (K * V) :=
  n ← h !! a; Some (_key (data n), value (data n)).

(** The entries of the cache in recency order, most recently used first. *)
Definition entries (c : LRUCache) : list (K * V) :=
  omap (item_at (nodes (_dllist c))) (to_list (_dllist c)).

Definition len (c : LRUCache) : nat := size (_dict c).
Definition recency (c : LRUCache) : list K := (entries c).*1.
Definition cached (c : LRUCache) (k : K) : option V :=
  a ← _dict c !! k; n ← nodes (_dllist c) !! a; Some (value (data n)).

End cache.

Arguments _Item : clear implicits.
Arguments _DLListNode : clear implicits.
Arguments _DLList : clear implicits.
Arguments LRUCache _ _ {_ _}.

End DllLruCache.

(** ** The cache of the specification

    Section 4.3 of the specification, on the entries in recency order (most
    recently used first): a hit moves the entry to the front; a miss changes
    nothing; [put] of a present key replaces the value and moves the entry to
    the front; [put] of an absent key into a full cache ([len == capacity])
    first drops the back entry. *)
Module Spec.

Section cache.
Context {K V : Type} `{EqDecision K}.

Definition get (key : K) (default_value : option V) (es : odict K V)
  : result V * odict K V :=
  match od_get key es with
  | Some v => (Ok v, (key, v) :: od_remove key es)
  | None =>
      match default_value with
      | Some d => (Ok d, es)
      | None => (Raise KeyError, es)
      end
  end.

Definition is_full (capacity : Z) (es : odict K V) : bool :=
  bool_decide (Z.of_nat (length es) = capacity).

Definition put (capacity : Z) (key : K) (value : V) (es : odict K V)
  : result unit * odict K V :=
  match od_get key es with
  | Some _ => (Ok (), (key, value) :: od_remove key es)
  | None =>
      (Ok (), (key, value) :: (if is_full capacity es then removelast es else es))
  end.

Definition step (capacity : Z) (o : op K V) (es : odict K V) : outcome V * odict K V :=
  match o with
  | Get k d =>
      match get k d es with
      | (Ok v, es') => (Ok (Some v), es')
      | (Raise e, es') => (Raise e, es')
      end
  | Put k v =>
      match put capacity k v es with
      | (Ok _, es') => (Ok None, es')
      | (Raise e, es') => (Raise e, es')
      end
  end.

Fixpoint run (capacity : Z) (ops : list (op K V)) (es : odict K V)
  : list (outcome V) * odict K V :=
  match ops with
  | [] => ([], es)
  | o :: rest =>
      let '(r, es') := step capacity o es in
      let '(rs, es'') := run capacity rest es' in
      (r :: rs, es'')
  end.

End cache.

End Spec.

(** * Vocabulary of the properties *)

(** ** The constructor argument and the errors of the specification *)

(** The argument is a positive integer: an instance of [int] (which includes
    [True]) whose value is above zero. *)
Definition positive_integer (o : pyobj) : Prop :=
  ∃ z, int_value o = Some z ∧ (0 < z)%Z.

(** The constructor's two errors, [TypeError] for a non-integer and
    [ValueError] for an integer that is not positive, are what the
    specification calls [InvalidCapacityError]. *)
Definition InvalidCapacityError (e : exn) : Prop := e = TypeError ∨ e = ValueError.

(** The specification's [KeyNotFoundError] and [EmptyError] are the code's
    [KeyError] and [_DLList.IsEmptyError]. *)
Definition KeyNotFoundError : exn := KeyError.
Definition EmptyError : exn := IsEmptyError.

(** ** Reachable states and invariants of [main.py] *)
Section main_vocabulary.
Context {K V : Type} `{EqDecision K}.
Implicit Types (c : Main.LRUCache K V) (k : K) (v : V).

(** A cache is reachable when a constructor call and then some calls of
    [get] and [put] produce it. *)
Definition main_reachable c : Prop :=
  ∃ mx c0 ops, Main.__init__ mx = Ok c0 ∧ Main.state_after ops c0 = c.

(** What the constructor's guards establish and every call keeps. *)
Definition main_inv (mx : pyobj) c : Prop :=
  Main._max_size c = mx ∧
  (∃ cap, int_value mx = Some cap ∧ (0 < cap)%Z ∧ (Z.of_nat (Main.len c) ≤ cap)%Z) ∧
  NoDup (Main.keys c).

End main_vocabulary.

(** ** The list, the index and the invariants of [dll_lru_cache.py] *)
Section dll_vocabulary.
Context {K V : Type} `{Countable K}.
Import DllLruCache.
Implicit Types (c : LRUCache K V) (l : _DLList K V) (h : gmap nat (_DLListNode K V)).
Implicit Types (n m : _DLListNode K V) (ls : list nat) (es : odict K V) (k : K) (v : V).

(** What [eject] leaves at address [y], given the node [n] that was ejected
    from address [self]. *)
Definition ejected (self : nat) n (y : nat) m : _DLListNode K V :=
  if decide (y = self) then mk_DLListNode (data m) None None
  else mk_DLListNode (data m)
         (if decide (_nxt n = Some y) then _prv n else _prv m)
         (if decide (_prv n = Some y) then _nxt n else _nxt m).

(** What [self.insert_between(prv, nxt)] leaves at address [y]. *)
Definition inserted (self : nat) (prv nxt : option nat) (y : nat) m : _DLListNode K V :=
  if decide (y = self) then mk_DLListNode (data m) prv nxt
  else mk_DLListNode (data m)
         (if decide (nxt = Some y) then Some self else _prv m)
         (if decide (prv = Some y) then Some self else _nxt m).

(** The element before position [i]. *)
Definition prev_at (ls : list nat) (i : nat) : option nat :=
  match i with
  | 0 => None
  | S j => ls !! j
  end.

(** [ls] is the sequence of nodes of [l], front to back: the nodes are
    distinct, [_front] and [_back] are the two ends, and each node's [_prv]
    and [_nxt] are its neighbours in [ls] (none at the ends). *)
Definition dll_repr l ls : Prop :=
  NoDup ls ∧
  _front l = head ls ∧
  _back l = last ls ∧
  ∀ i a, ls !! i = Some a →
    ∃ n, nodes l !! a = Some n ∧ _prv n = prev_at ls i ∧ _nxt n = ls !! S i.

(** The heap [h'] holds the same items as [h], at the same addresses. *)
Definition same_data (h h' : gmap nat (_DLListNode K V)) : Prop :=
  ∀ y, data <$> h' !! y = data <$> h !! y.

Definition key_at h (a : nat) : option K := (λ n, _key (data n)) <$> h !! a.

(** The list of nodes [ls] holds the entries [es]. *)
Definition holds h ls es : Prop := Forall2 (λ a e, item_at h a = Some e) ls es.

(** The cache [c] holds the entries [es], most recently used first, in the
    nodes [ls], and its dict is the index of these nodes by key. *)
Definition dll_abs c ls es : Prop :=
  dll_repr (_dllist c) ls ∧
  holds (nodes (_dllist c)) ls es ∧
  size (_dict c) = length ls ∧
  ∀ k a, _dict c !! k = Some a ↔ a ∈ ls ∧ key_at (nodes (_dllist c)) a = Some k.

(** What the constructor establishes and every call keeps. *)
Definition dll_inv (mx : pyobj) c : Prop :=
  _max_size c = mx ∧
  ∃ cap ls es,
    int_value mx = Some cap ∧ (0 < cap)%Z ∧
    dll_abs c ls es ∧ (Z.of_nat (length ls) ≤ cap)%Z.

Definition dll_reachable c : Prop :=
  ∃ mx c0 ops, __init__ mx = Ok c0 ∧ state_after ops c0 = c.

(** Index and list agree: the keys held by the nodes of the list are
    distinct, every node of the list holds a key, the keys of the dict are the
    keys of the list, and the dict sends each key to the node of the list that
    holds it. *)
Definition consistent c : Prop :=
  NoDup (recency c) ∧
  length (recency c) = length (to_list (_dllist c)) ∧
  dom (_dict c) = list_to_set (recency c) ∧
  ∀ k a, _dict c !! k = Some a →
         a ∈ to_list (_dllist c) ∧ key_at (nodes (_dllist c)) a = Some k.

(** A node that is linked to no other node. *)
Definition detached n : Prop := _prv n = None ∧ _nxt n = None.

(** A list is well formed when the nodes found by walking [_nxt] from
    [_front] are its nodes in the sense of [dll_repr]. The new list is, and
    the methods keep it so. *)
Definition well_formed l : Prop := dll_repr l (to_list l).

End dll_vocabulary.

(** ** Recency order *)
Section recency_vocabulary.
Context {K V : Type} `{EqDecision K}.
Implicit Types (es : odict K V) (ks : list K) (k : K) (v : V) (ops : list (op K V)).

(** The keys [ks] are in recency order for the history [ops]: a key that
    comes later in [ks] was last accessed strictly earlier. *)
Definition mru_first ops ks : Prop :=
  ∀ i j ki kj, i < j → ks !! i = Some ki → ks !! j = Some kj → accessed_before ops kj ki.

Definition all_accessed ops ks : Prop :=
  ∀ k, k ∈ ks → is_Some (last_access ops k).

(** What the specification's cache keeps, for the history [ops] of the calls
    made so far. *)
Definition spec_inv (cap : Z) ops es : Prop :=
  NoDup es.*1 ∧ (Z.of_nat (length es) ≤ cap)%Z ∧
  mru_first ops es.*1 ∧ all_accessed ops es.*1.

(** No [put] of the history is on a key that is in the cache at that time:
    every [put] inserts. [es] holds the entries before the first call. *)
Fixpoint puts_only_insert (cap : Z) ops es : Prop :=
  match ops with
  | [] => True
  | o :: rest =>
      match o with
      | Put k _ => od_get k es = None
      | Get _ _ => True
      end ∧ puts_only_insert cap rest (Spec.step cap o es).2
  end.

End recency_vocabulary.

(** ** Scenarios

    Integer keys, Python objects as values. *)

(** The calls of [main()] in both files, on a cache of capacity 2. *)
Definition main_scenario : list (op nat pyobj) :=
  [Put 1 (PyInt 2); Put 10 (PyInt 20); Get 1 None; Put 100 (PyInt 200);
   Get 10 (Some PyNone); Get 1 None].

Definition main_cache (capacity : Z) : Main.LRUCache nat pyobj :=
  Main.mkLRUCache (PyInt capacity) [].

Definition dll_cache (capacity : Z) : DllLruCache.LRUCache nat pyobj :=
  DllLruCache.mkLRUCache (PyInt capacity) ∅ DllLruCache.new_DLList.

(** The two caches after the calls of [main()]; the list of the second one,
    which holds the nodes of the keys 1 and 100, at the addresses 0 and 2; and
    the three nodes made by these calls. The node of key 10, at address 1, was
    evicted and is linked to nothing. *)
Definition main_final : Main.LRUCache nat pyobj :=
  Main.state_after main_scenario (main_cache 2).

Definition dll_final : DllLruCache.LRUCache nat pyobj :=
  DllLruCache.state_after main_scenario (dll_cache 2).

Definition dll_final_list : DllLruCache._DLList nat pyobj := DllLruCache._dllist dll_final.

Definition node_of_key_1 : DllLruCache._DLListNode nat pyobj :=
  DllLruCache.mk_DLListNode (DllLruCache.mk_Item 1 (PyInt 2)) None (Some 2).

Definition node_of_key_10 : DllLruCache._DLListNode nat pyobj :=
  DllLruCache.mk_DLListNode (DllLruCache.mk_Item 10 (PyInt 20)) None None.

Definition node_of_key_100 : DllLruCache._DLListNode nat pyobj :=
  DllLruCache.mk_DLListNode (DllLruCache.mk_Item 100 (PyInt 200)) (Some 0) None.

(** * Properties *)

(** Unfold the monad's plumbing. *)
Ltac munfold :=
  unfold mbind, M_bind, ret, mret, M_ret, read, modify, raise, zoom in *.

(** ** The constructor argument *)

Lemma positive_integer_dec (o : pyobj) : {positive_integer o} + {¬ positive_integer o}.
Proof.
  unfold positive_integer.
  destruct o as [z|[]| | |]; simpl;
    try (right; intros (z' & Hz & _); discriminate).
  - destruct (decide (0 < z)%Z); [left; eauto|right].
    intros (z' & [= <-] & ?); lia.
  - left. exists 1%Z. split; [done|lia].
  - right. intros (z' & [= <-] & ?); lia.
Qed.

(** ** [main.py] *)
Section main_facts.
Context {K V : Type} `{EqDecision K}.
Implicit Types (c : Main.LRUCache K V) (d : odict K V) (k : K) (v : V).

Lemma main_init_inv mx c :
  Main.__init__ mx = Ok c ↔ positive_integer mx ∧ c = Main.mkLRUCache mx [].
Proof.
  unfold Main.__init__, positive_integer.
  destruct mx as [z|[]| | |]; simpl;
    try (split; [done|by intros [(z' & [=] & _) _]]).
  - destruct (Z.leb_spec z 0); split.
    + done.
    + intros [(z' & [= <-] & ?) _]; lia.
    + intros [= <-]. split; [exists z; split; [done|lia]|done].
    + by intros [_ ->].
  - split; [intros [= <-]; split; [exists 1%Z; split; [done|lia]|done]|by intros [_ ->]].
  - split; [done|intros [(z' & [= <-] & ?) _]; lia].
Qed.

Lemma od_get_None k d : od_get k d = None ↔ k ∉ d.*1.
Proof.
  induction d as [|[k' v'] d IH]; csimpl.
  - split; [intros _; apply not_elem_of_nil|done].
  - rewrite not_elem_of_cons. destruct (decide (k' = k)) as [->|Hne].
    + split; [done|intros [? _]; done].
    + rewrite IH. split; [intros ?; split; [congruence|done]|intros [_ ?]; done].
Qed.

Lemma od_get_Some k v d : od_get k d = Some v → (k, v) ∈ d.
Proof.
  induction d as [|[k' v'] d IH]; csimpl; [done|].
  destruct (decide (k' = k)) as [->|Hne].
  - intros [= ->]. apply list_elem_of_here.
  - intros ?. apply list_elem_of_further. auto.
Qed.

Lemma od_remove_absent k d : k ∉ d.*1 → od_remove k d = d.
Proof.
  induction d as [|[k' v'] d IH]; csimpl; [done|].
  rewrite not_elem_of_cons. intros [Hne Hni].
  destruct (decide (k' = k)); [congruence|]. by rewrite IH.
Qed.

Lemma od_remove_keys k d : (od_remove k d).*1 ⊆ d.*1.
Proof.
  induction d as [|[k' v'] d IH]; csimpl; [done|].
  destruct (decide (k' = k)).
  - by apply list_subseteq_cons.
  - by apply list_subseteq_skip.
Qed.

Lemma od_remove_NoDup k d : NoDup d.*1 → NoDup (od_remove k d).*1.
Proof.
  induction d as [|[k' v'] d IH]; csimpl; [done|].
  rewrite NoDup_cons. intros [Hni Hnd].
  destruct (decide (k' = k)); [done|].
  csimpl. apply NoDup_cons. split; [|auto].
  intros Hin. apply Hni. by apply (od_remove_keys k).
Qed.

Lemma od_remove_not_elem k d : NoDup d.*1 → k ∉ (od_remove k d).*1.
Proof.
  induction d as [|[k' v'] d IH]; csimpl; [intros _; apply not_elem_of_nil|].
  rewrite NoDup_cons. intros [Hni Hnd].
  destruct (decide (k' = k)) as [->|Hne]; [done|].
  csimpl. rewrite not_elem_of_cons. split; [congruence|auto].
Qed.

Lemma od_remove_length k d :
  length (od_remove k d) = if od_contains k d then pred (length d) else length d.
Proof.
  unfold od_contains.
  induction d as [|[k' v'] d IH]; csimpl; [done|].
  destruct (decide (k' = k)); [done|]. csimpl. rewrite IH.
  destruct (od_get k d) eqn:E; [|done].
  destruct d; [done|]. done.
Qed.

Lemma od_set_absent k v d : k ∉ d.*1 → od_set k v d = d ++ [(k, v)].
Proof.
  induction d as [|[k' v'] d IH]; csimpl; [done|].
  rewrite not_elem_of_cons. intros [Hne Hni].
  destruct (decide (k' = k)); [congruence|]. by rewrite IH.
Qed.

Lemma od_set_keys_present k v d : k ∈ d.*1 → (od_set k v d).*1 = d.*1.
Proof.
  induction d as [|[k' v'] d IH]; csimpl; [by intros ?%elem_of_nil|].
  destruct (decide (k' = k)) as [->|Hne]; [done|].
  rewrite elem_of_cons. intros [?|Hin]; [congruence|]. csimpl. by rewrite IH.
Qed.

Lemma od_set_keys k v d :
  (od_set k v d).*1 = if od_contains k d then d.*1 else d.*1 ++ [k].
Proof.
  unfold od_contains. destruct (od_get k d) eqn:E.
  - apply od_set_keys_present. apply od_get_Some in E.
    apply list_elem_of_fmap. by exists (k, v0).
  - apply od_get_None in E. rewrite od_set_absent by done. by rewrite fmap_app.
Qed.

Lemma od_get_set k v d : od_get k (od_set k v d) = Some v.
Proof.
  induction d as [|[k' v'] d IH]; csimpl.
  - by rewrite decide_True.
  - destruct (decide (k' = k)) as [->|Hne]; csimpl.
    + by rewrite decide_True.
    + by rewrite decide_False.
Qed.

(** The two methods, with the plumbing computed away. *)
Lemma main_get_unfold k dflt c :
  Main.get k dflt c =
    match od_get k (Main._dict c) with
    | Some v =>
        (Ok v, Main.set_dict (od_set k v (od_remove k (Main._dict c))) c)
    | None =>
        match dflt with
        | None => (Raise KeyError, c)
        | Some x => (Ok x, c)
        end
    end.
Proof.
  unfold Main.get, Main.dict_pop, Main.dict_setitem, od_contains. munfold.
  destruct (od_get k (Main._dict c)) eqn:E; simpl.
  - by rewrite E.
  - by destruct dflt.
Qed.

Lemma main_put_unfold k v c :
  Main.put k v c =
    match int_ge_obj (Z.of_nat (length (Main._dict c))) (Main._max_size c) with
    | Raise e => (Raise e, c)
    | Ok false => (Ok (), Main.set_dict (od_set k v (Main._dict c)) c)
    | Ok true =>
        match Main._dict c with
        | [] => (Raise StopIteration, c)
        | _ :: rest => (Ok (), Main.set_dict (od_set k v rest) c)
        end
    end.
Proof.
  unfold Main.put, Main.full, Main.dict_first_key, Main.dict_pop, Main.dict_setitem.
  munfold.
  destruct (int_ge_obj _ _) as [[]|]; simpl; try done.
  destruct c as [mx [|[k0 v0] rest]]; simpl; [done|].
  destruct (decide (k0 = k0)); done.
Qed.

Lemma int_ge_obj_int n mx cap :
  int_value mx = Some cap → int_ge_obj n mx = Ok (cap <=? n)%Z.
Proof. destruct mx as [|[]| | |]; simpl; intros [= <-]; done. Qed.

Lemma main_step_inv mx o c : main_inv mx c → main_inv mx (Main.step o c).2.
Proof.
  intros Hinv. pose proof Hinv as (Hmx & (cap & Hcap & Hpos & Hlen) & Hnd).
  unfold Main.len, Main.keys in Hlen, Hnd.
  destruct o as [k dflt|k v]; unfold Main.step; munfold.
  - rewrite main_get_unfold.
    destruct (od_get k (Main._dict c)) eqn:E; [|by destruct dflt].
    simpl. split; [done|]. unfold Main.len, Main.keys. simpl.
    pose proof (od_remove_not_elem k _ Hnd) as Hni.
    rewrite od_set_absent by done. split.
    + exists cap. split; [done|]. split; [done|].
      rewrite length_app, od_remove_length. unfold od_contains. rewrite E.
      simpl. destruct (Main._dict c); simpl in *; [done|lia].
    + rewrite fmap_app. simpl. apply NoDup_app. split; [by apply od_remove_NoDup|].
      split; [|apply NoDup_singleton].
      intros x Hx ->%list_elem_of_singleton. done.
  - rewrite main_put_unfold. rewrite Hmx, (int_ge_obj_int _ _ _ Hcap).
    assert (Hset : ∀ d, NoDup d.*1 → NoDup (od_set k v d).*1).
    { intros d Hd. rewrite od_set_keys. destruct (od_contains k d) eqn:E; [done|].
      apply NoDup_app. split; [done|]. split; [|apply NoDup_singleton].
      intros x Hx ->%list_elem_of_singleton.
      unfold od_contains in E. destruct (od_get k d) eqn:E'; [done|].
      by apply od_get_None in E'. }
    assert (Hsl : ∀ d, length (od_set k v d) ≤ S (length d)).
    { intros d. rewrite <-(length_fmap fst), od_set_keys.
      destruct (od_contains k d); rewrite ?length_app, length_fmap; simpl; lia. }
    destruct (Z.leb_spec cap (Z.of_nat (length (Main._dict c)))) as [Hfull|Hnf].
    + destruct (Main._dict c) as [|[k0 v0] rest] eqn:Ed; simpl.
      * done.
      * split; [done|]. unfold Main.len, Main.keys. simpl. split.
        -- exists cap. split; [done|]. split; [done|]. specialize (Hsl rest).
           simpl in Hlen. lia.
        -- apply Hset. simpl in Hnd. by apply NoDup_cons in Hnd as [_ ?].
    + simpl. split; [done|]. unfold Main.len, Main.keys. simpl. split.
      * exists cap. split; [done|]. split; [done|].
        specialize (Hsl (Main._dict c)). lia.
      * by apply Hset.
Qed.

Lemma main_state_after_cons o ops c :
  Main.state_after (o :: ops) c = Main.state_after ops (Main.step o c).2.
Proof.
  unfold Main.state_after. simpl. destruct (Main.step o c) as [r c'].
  simpl. by destruct (Main.run ops c').
Qed.

Lemma main_run_inv mx ops c : main_inv mx c → main_inv mx (Main.state_after ops c).
Proof.
  revert c. induction ops as [|o ops IH]; intros c Hc; [done|].
  rewrite main_state_after_cons. apply IH. by apply main_step_inv.
Qed.

Lemma main_reachable_inv c : main_reachable c → ∃ mx, main_inv mx c.
Proof.
  intros (mx & c0 & ops & Hinit & <-). exists mx. apply main_run_inv.
  apply main_init_inv in Hinit as [(cap & ? & ?) ->].
  split; [done|]. split; [|apply NoDup_nil_2].
  exists cap. unfold Main.len. simpl. split; [done|]. split; [done|lia].
Qed.

End main_facts.

(** ** [dll_lru_cache.py]: nodes *)
Section node_facts.
Context {K V : Type}.
Import DllLruCache.
Implicit Types (h : gmap nat (_DLListNode K V)) (n m : _DLListNode K V).

Lemma load_Some h a n : h !! a = Some n → load a h = (Ok n, h).
Proof. unfold load. by intros ->. Qed.

Lemma update_Some h a n f : h !! a = Some n → update a f h = (Ok (), <[a := f n]> h).
Proof. unfold update. by intros ->. Qed.

(** Decide, address by address, what a chain of field writes left in the
    heap. *)
Ltac heap_pointwise y :=
  intros y; rewrite ?lookup_insert;
  repeat (case_decide; simplify_eq/=);
  repeat match goal with
         | H : ?h !! _ = Some _ |- context [?h !! _] => rewrite H
         end;
  simpl; try done;
  repeat match goal with
         | |- context [?h !! y] => destruct (h !! y) as [[]|]
         end;
  simpl; try done; try congruence.

Lemma node_eject_spec h self n :
  h !! self = Some n →
  (∀ p, _prv n = Some p → p ≠ self ∧ is_Some (h !! p)) →
  (∀ x, _nxt n = Some x → x ≠ self ∧ is_Some (h !! x)) →
  ∃ h', node_eject self h = (Ok self, h') ∧
        ∀ y, h' !! y = ejected self n y <$> h !! y.
Proof.
  intros Hself Hp Hx.
  unfold node_eject, node_prv, node_nxt, set_prv, set_nxt. munfold.
  rewrite (load_Some _ _ _ Hself). simpl.
  destruct n as [d p x]; simpl in *.
  destruct p as [p|], x as [x|].
  - destruct (Hp p eq_refl) as [Hps [np Hnp]].
    destruct (Hx x eq_refl) as [Hxs [nx Hnx]].
    rewrite (load_Some _ _ _ Hself). simpl.
    rewrite (update_Some _ _ _ _ Hnp). simpl.
    assert (H1 : (<[p:=with_nxt (Some x) np]> h) !! self = Some (mk_DLListNode d (Some p) (Some x)))
      by (by rewrite lookup_insert_ne).
    rewrite (load_Some _ _ _ H1). simpl. rewrite (load_Some _ _ _ H1). simpl.
    destruct (decide (p = x)) as [->|Hpx].
    + erewrite update_Some by apply lookup_insert_eq. simpl.
      erewrite update_Some by (rewrite !lookup_insert_ne by done; exact Hself). simpl.
      erewrite update_Some by apply lookup_insert_eq. simpl.
      eexists. split; [done|]. unfold ejected, with_prv, with_nxt. simpl.
      heap_pointwise y.
    + erewrite update_Some by (rewrite lookup_insert_ne by done; exact Hnx). simpl.
      erewrite update_Some by (rewrite !lookup_insert_ne by done; exact Hself). simpl.
      erewrite update_Some by apply lookup_insert_eq. simpl.
      eexists. split; [done|]. unfold ejected, with_prv, with_nxt. simpl.
      heap_pointwise y.
  - destruct (Hp p eq_refl) as [Hps [np Hnp]].
    rewrite (load_Some _ _ _ Hself). simpl.
    rewrite (update_Some _ _ _ _ Hnp). simpl.
    assert (H1 : (<[p:=with_nxt None np]> h) !! self = Some (mk_DLListNode d (Some p) None))
      by (by rewrite lookup_insert_ne).
    rewrite (load_Some _ _ _ H1). simpl.
    erewrite update_Some by exact H1. simpl.
    erewrite update_Some by apply lookup_insert_eq. simpl.
    eexists. split; [done|]. unfold ejected, with_prv, with_nxt. simpl.
    heap_pointwise y.
  - destruct (Hx x eq_refl) as [Hxs [nx Hnx]].
    rewrite (load_Some _ _ _ Hself). simpl. rewrite (load_Some _ _ _ Hself). simpl.
    rewrite (update_Some _ _ _ _ Hnx). simpl.
    erewrite update_Some by (rewrite lookup_insert_ne by done; exact Hself). simpl.
    erewrite update_Some by apply lookup_insert_eq. simpl.
    eexists. split; [done|]. unfold ejected, with_prv, with_nxt. simpl.
    heap_pointwise y.
  - rewrite (load_Some _ _ _ Hself). simpl.
    erewrite update_Some by exact Hself. simpl.
    erewrite update_Some by apply lookup_insert_eq. simpl.
    eexists. split; [done|]. unfold ejected, with_prv, with_nxt. simpl.
    heap_pointwise y.
Qed.

Lemma node_insert_between_spec h self n prv nxt :
  h !! self = Some n →
  (∀ p, prv = Some p → p ≠ self ∧ is_Some (h !! p)) →
  (∀ x, nxt = Some x → x ≠ self ∧ is_Some (h !! x)) →
  ∃ h', node_insert_between self prv nxt h = (Ok self, h') ∧
        ∀ y, h' !! y = inserted self prv nxt y <$> h !! y.
Proof.
  intros Hself Hp Hx.
  unfold node_insert_between, set_prv, set_nxt. munfold.
  destruct prv as [p|], nxt as [x|].
  - destruct (Hp p eq_refl) as [Hps [np Hnp]].
    destruct (Hx x eq_refl) as [Hxs [nx Hnx]].
    rewrite (update_Some _ _ _ _ Hnp). simpl.
    destruct (decide (p = x)) as [->|Hpx].
    + erewrite update_Some by apply lookup_insert_eq. simpl.
      erewrite update_Some by (rewrite !lookup_insert_ne by done; exact Hself). simpl.
      erewrite update_Some by apply lookup_insert_eq. simpl.
      eexists. split; [done|]. unfold inserted, with_prv, with_nxt. simpl.
      heap_pointwise y.
    + erewrite update_Some by (rewrite lookup_insert_ne by done; exact Hnx). simpl.
      erewrite update_Some by (rewrite !lookup_insert_ne by done; exact Hself). simpl.
      erewrite update_Some by apply lookup_insert_eq. simpl.
      eexists. split; [done|]. unfold inserted, with_prv, with_nxt. simpl.
      heap_pointwise y.
  - destruct (Hp p eq_refl) as [Hps [np Hnp]].
    rewrite (update_Some _ _ _ _ Hnp). simpl.
    erewrite update_Some by (rewrite !lookup_insert_ne by done; exact Hself). simpl.
    erewrite update_Some by apply lookup_insert_eq. simpl.
    eexists. split; [done|]. unfold inserted, with_prv, with_nxt. simpl.
    heap_pointwise y.
  - destruct (Hx x eq_refl) as [Hxs [nx Hnx]].
    rewrite (update_Some _ _ _ _ Hnx). simpl.
    erewrite update_Some by (rewrite !lookup_insert_ne by done; exact Hself). simpl.
    erewrite update_Some by apply lookup_insert_eq. simpl.
    eexists. split; [done|]. unfold inserted, with_prv, with_nxt. simpl.
    heap_pointwise y.
  - erewrite update_Some by exact Hself. simpl.
    erewrite update_Some by apply lookup_insert_eq. simpl.
    eexists. split; [done|]. unfold inserted, with_prv, with_nxt. simpl.
    heap_pointwise y.
Qed.

Lemma ejected_data self n y m : data (ejected self n y m) = data m.
Proof. unfold ejected. by case_decide. Qed.

Lemma inserted_data self prv nxt y m : data (inserted self prv nxt y m) = data m.
Proof. unfold inserted. by case_decide. Qed.

End node_facts.

(** ** [dll_lru_cache.py]: the list *)
Section dll_facts.
Context {K V : Type}.
Import DllLruCache.
Implicit Types (l : _DLList K V) (ls : list nat) (n m : _DLListNode K V).
Implicit Types (h : gmap nat (_DLListNode K V)).

Lemma same_data_refl h : same_data h h.
Proof. done. Qed.

Lemma same_data_trans h1 h2 h3 : same_data h1 h2 → same_data h2 h3 → same_data h1 h3.
Proof. intros H1 H2 y. by rewrite H2, H1. Qed.

Lemma dll_repr_nil : dll_repr (K:=K) (V:=V) new_DLList [].
Proof.
  split; [apply NoDup_nil_2|]. split; [done|]. split; [done|].
  intros i a Hi. by rewrite lookup_nil in Hi.
Qed.

Lemma dll_repr_front_iff l ls i a :
  dll_repr l ls → ls !! i = Some a → (_front l = Some a ↔ i = 0).
Proof.
  intros (Hnd & Hf & _) Hi. rewrite Hf, head_lookup. split.
  - intros H0. by apply (NoDup_lookup _ _ _ _ Hnd Hi H0).
  - by intros ->.
Qed.

Lemma dll_repr_back_iff l ls i a :
  dll_repr l ls → ls !! i = Some a → (_back l = Some a ↔ i = pred (length ls)).
Proof.
  intros (Hnd & _ & Hb & _) Hi. rewrite Hb, last_lookup. split.
  - intros H0. by apply (NoDup_lookup _ _ _ _ Hnd Hi H0).
  - by intros ->.
Qed.

Lemma dll_repr_node l ls i a :
  dll_repr l ls → ls !! i = Some a →
  ∃ n, nodes l !! a = Some n ∧ _prv n = prev_at ls i ∧ _nxt n = ls !! S i.
Proof. intros (_ & _ & _ & Hn). apply Hn. Qed.

Lemma dll_repr_is_Some l ls a : dll_repr l ls → a ∈ ls → is_Some (nodes l !! a).
Proof.
  intros Hr (i & Hi)%list_elem_of_lookup_1.
  destruct (dll_repr_node _ _ _ _ Hr Hi) as (n & -> & _). eauto.
Qed.

Lemma eject_spec l ls i a :
  dll_repr l ls → ls !! i = Some a →
  ∃ l', eject a l = (Ok a, l') ∧
        dll_repr l' (delete i ls) ∧
        (∃ n, nodes l' !! a = Some n ∧ _prv n = None ∧ _nxt n = None) ∧
        same_data (nodes l) (nodes l').
Proof.
  intros Hr Hi. pose proof Hr as (Hnd & Hf & Hb & Hn).
  destruct (Hn i a Hi) as (n & Ha & Hprv & Hnxt).
  pose proof (lookup_lt_Some _ _ _ Hi) as Hlt.
  assert (Hp : ∀ p, _prv n = Some p → p ≠ a ∧ is_Some (nodes l !! p)).
  { intros p Hp. rewrite Hprv in Hp. destruct i as [|i']; [done|]. simpl in Hp. split.
    - intros ->. pose proof (NoDup_lookup _ _ _ _ Hnd Hi Hp). lia.
    - destruct (Hn _ _ Hp) as (m & -> & _); eauto. }
  assert (Hx : ∀ x, _nxt n = Some x → x ≠ a ∧ is_Some (nodes l !! x)).
  { intros x Hx. rewrite Hnxt in Hx. split.
    - intros ->. pose proof (NoDup_lookup _ _ _ _ Hnd Hi Hx). lia.
    - destruct (Hn _ _ Hx) as (m & -> & _); eauto. }
  destruct (node_eject_spec _ _ _ Ha Hp Hx) as (h' & Hej & Hh').
  exists (mk_DLList
            (if bool_decide (_front l = Some a) then _nxt n else _front l)
            (if bool_decide (_back l = Some a) then _prv n else _back l) h').
  split.
  { unfold eject, on_heap, node_nxt, node_prv. munfold.
    destruct l as [f b h]; simpl in *.
    destruct (bool_decide (f = Some a)); simpl; rewrite ?(load_Some _ _ _ Ha); simpl;
      (destruct (bool_decide (b = Some a)); simpl; rewrite ?(load_Some _ _ _ Ha); simpl;
       by rewrite Hej). }
  split; [|split].
  - split; [|split; [|split]]; simpl.
    + eapply sublist_NoDup; [done|apply sublist_delete].
    + rewrite head_lookup. case_bool_decide as Hfa.
      * apply (dll_repr_front_iff _ _ _ _ Hr Hi) in Hfa as ->.
        by rewrite list_lookup_delete_ge by lia.
      * assert (i ≠ 0) by (by rewrite <-(dll_repr_front_iff _ _ _ _ Hr Hi)).
        rewrite list_lookup_delete_lt by lia. by rewrite Hf, head_lookup.
    + rewrite last_lookup, length_delete by eauto. case_bool_decide as Hba.
      * apply (dll_repr_back_iff _ _ _ _ Hr Hi) in Hba as ->. rewrite Hprv.
        destruct (length ls) as [|[|len]] eqn:El; simpl; [lia| |].
        -- by destruct ls as [|? []].
        -- rewrite list_lookup_delete_lt by lia. f_equal; lia.
      * assert (i ≠ pred (length ls)) by (by rewrite <-(dll_repr_back_iff _ _ _ _ Hr Hi)).
        rewrite list_lookup_delete_ge by lia. rewrite Hb, last_lookup. f_equal; lia.
    + intros j y Hj. rewrite Hh'.
      destruct (decide (j < i)) as [Hji|Hji].
      * rewrite list_lookup_delete_lt in Hj by lia.
        destruct (Hn _ _ Hj) as (m & Hy & Hmp & Hmx). rewrite Hy. simpl.
        eexists. split; [done|]. unfold ejected.
        rewrite decide_False by (intros ->; pose proof (NoDup_lookup _ _ _ _ Hnd Hi Hj); lia).
        simpl. split.
        -- rewrite decide_False.
           ++ rewrite Hmp. destruct j as [|j']; [done|]. simpl.
              by rewrite list_lookup_delete_lt by lia.
           ++ rewrite Hnxt. intros Hc. pose proof (NoDup_lookup _ _ _ _ Hnd Hj Hc). lia.
        -- case_decide as Hc.
           ++ rewrite Hprv in Hc. destruct i as [|i']; [done|]. simpl in Hc.
              pose proof (NoDup_lookup _ _ _ _ Hnd Hj Hc) as ->.
              rewrite list_lookup_delete_ge by lia. done.
           ++ rewrite Hmx. destruct (decide (S j = i)) as [<-|].
              ** exfalso. apply Hc. rewrite Hprv. done.
              ** by rewrite list_lookup_delete_lt by lia.
      * rewrite list_lookup_delete_ge in Hj by lia.
        destruct (Hn _ _ Hj) as (m & Hy & Hmp & Hmx). rewrite Hy. simpl.
        eexists. split; [done|]. unfold ejected.
        rewrite decide_False by (intros ->; pose proof (NoDup_lookup _ _ _ _ Hnd Hi Hj); lia).
        simpl. split.
        -- case_decide as Hc.
           ++ rewrite Hnxt in Hc.
              pose proof (NoDup_lookup _ _ _ _ Hnd Hj Hc) as Heq.
              assert (j = i) as -> by lia. rewrite Hprv.
              destruct i as [|i']; [done|]. simpl.
              by rewrite list_lookup_delete_lt by lia.
           ++ rewrite Hmp. simpl. destruct j as [|j'].
              ** exfalso. assert (i = 0) as -> by lia. apply Hc. by rewrite Hnxt.
              ** simpl. destruct (decide (j' < i)).
                 --- exfalso. assert (S j' = i) as <- by lia. apply Hc. by rewrite Hnxt.
                 --- by rewrite list_lookup_delete_ge by lia.
        -- rewrite decide_False.
           ++ rewrite Hmx. by rewrite list_lookup_delete_ge by lia.
           ++ rewrite Hprv. intros Hc. destruct i as [|i']; [done|]. simpl in Hc.
              pose proof (NoDup_lookup _ _ _ _ Hnd Hj Hc). lia.
  - simpl. rewrite Hh', Ha. simpl. eexists. split; [done|].
    unfold ejected. by rewrite decide_True.
  - intros y. simpl. rewrite Hh'. rewrite <-option_fmap_compose.
    apply option_fmap_ext. intros m. simpl. apply ejected_data.
Qed.

Lemma push_front_spec l ls a n0 :
  dll_repr l ls → a ∉ ls → nodes l !! a = Some n0 →
  ∃ l', push_front a l = (Ok (), l') ∧
        dll_repr l' (a :: ls) ∧
        same_data (nodes l) (nodes l').
Proof.
  intros Hr Hni Ha. pose proof Hr as (Hnd & Hf & Hb & Hn).
  assert (Hp : ∀ p, (None : option nat) = Some p → p ≠ a ∧ is_Some (nodes l !! p)) by done.
  assert (Hx : ∀ x, _front l = Some x → x ≠ a ∧ is_Some (nodes l !! x)).
  { intros x Hx. rewrite Hf in Hx. apply head_Some_elem_of in Hx. split.
    - by intros ->.
    - by eapply dll_repr_is_Some. }
  destruct (node_insert_between_spec _ _ _ _ _ Ha Hp Hx) as (h' & Hins & Hh').
  exists (mk_DLList (Some a) (if _back l is None then Some a else _back l) h').
  split.
  { unfold push_front, on_heap. munfold. destruct l as [f b h]; simpl in *.
    rewrite Hins. simpl. by destruct b. }
  split.
  - split; [|split; [|split]]; simpl.
    + by apply NoDup_cons.
    + done.
    + rewrite Hb. destruct ls as [|x ls']; [done|]. simpl.
      destruct (last (x :: ls')) eqn:E; [done|]. by apply last_None in E.
    + intros j y Hj. rewrite Hh'. destruct j as [|j]; simpl in Hj.
      * simplify_eq. rewrite Ha. simpl. eexists. split; [done|].
        unfold inserted. rewrite decide_True by done. simpl.
        split; [done|]. by rewrite Hf, head_lookup.
      * destruct (Hn _ _ Hj) as (m & Hy & Hmp & Hmx). rewrite Hy. simpl.
        eexists. split; [done|]. unfold inserted.
        rewrite decide_False by (intros ->; apply Hni; by eapply list_elem_of_lookup_2).
        simpl. split; [|done].
        case_decide as Hc.
        -- rewrite Hf, head_lookup in Hc.
           by rewrite (NoDup_lookup _ _ _ _ Hnd Hj Hc).
        -- rewrite Hmp. destruct j as [|j']; [|done].
           exfalso. apply Hc. by rewrite Hf, head_lookup.
  - intros y. simpl. rewrite Hh'. rewrite <-option_fmap_compose.
    apply option_fmap_ext. intros m. simpl. apply inserted_data.
Qed.

Lemma move_to_front_spec l ls i a :
  dll_repr l ls → ls !! i = Some a →
  ∃ l', move_to_front a l = (Ok a, l') ∧
        dll_repr l' (a :: delete i ls) ∧
        same_data (nodes l) (nodes l').
Proof.
  intros Hr Hi. unfold move_to_front. munfold.
  case_bool_decide as Hfa.
  - exists l. split; [done|]. split; [|done].
    apply (dll_repr_front_iff _ _ _ _ Hr Hi) in Hfa as ->.
    destruct ls as [|x ls']; [done|]. simpl in *. by simplify_eq.
  - destruct (eject_spec _ _ _ _ Hr Hi) as (l1 & Hej & Hr1 & (n1 & Hn1 & _) & Hd1).
    assert (Hni : a ∉ delete i ls).
    { destruct Hr as (Hnd & _). intros (j & Hj)%list_elem_of_lookup_1.
      rewrite list_lookup_delete in Hj. case_decide.
      - pose proof (NoDup_lookup _ _ _ _ Hnd Hi Hj). lia.
      - pose proof (NoDup_lookup _ _ _ _ Hnd Hi Hj). lia. }
    destruct (push_front_spec _ _ _ _ Hr1 Hni Hn1) as (l2 & Hpf & Hr2 & Hd2).
    exists l2. rewrite Hej. simpl. rewrite Hpf. simpl.
    split; [done|]. split; [done|]. by eapply same_data_trans.
Qed.

Lemma prev_at_snoc ls a : prev_at (ls ++ [a]) (length ls) = last ls.
Proof.
  rewrite last_lookup. destruct ls as [|x ls']; [done|].
  change (length (x :: ls')) with (S (length ls')). simpl prev_at. simpl pred.
  apply (lookup_app_l (x :: ls')). simpl. lia.
Qed.

Lemma push_back_spec l ls a n0 :
  dll_repr l ls → a ∉ ls → nodes l !! a = Some n0 →
  ∃ l', push_back a l = (Ok (), l') ∧
        dll_repr l' (ls ++ [a]) ∧
        same_data (nodes l) (nodes l').
Proof.
  intros Hr Hni Ha. pose proof Hr as (Hnd & Hf & Hb & Hn).
  assert (Hx : ∀ x, (None : option nat) = Some x → x ≠ a ∧ is_Some (nodes l !! x)) by done.
  assert (Hp : ∀ p, _back l = Some p → p ≠ a ∧ is_Some (nodes l !! p)).
  { intros p Hp. rewrite Hb in Hp. apply last_Some_elem_of in Hp. split.
    - by intros ->.
    - by eapply dll_repr_is_Some. }
  destruct (node_insert_between_spec _ _ _ _ _ Ha Hp Hx) as (h' & Hins & Hh').
  exists (mk_DLList (if _front l is None then Some a else _front l) (Some a) h').
  split.
  { unfold push_back, on_heap. munfold. destruct l as [f b h]; simpl in *.
    rewrite Hins. simpl. by destruct f. }
  split.
  - split; [|split; [|split]]; simpl.
    + apply NoDup_app. split; [done|]. split; [|apply NoDup_singleton].
      by intros x Hin ->%list_elem_of_singleton.
    + rewrite Hf. by destruct ls.
    + by rewrite last_snoc.
    + intros j y Hj. rewrite Hh'.
      destruct (decide (j < length ls)) as [Hlt|Hge].
      * rewrite lookup_app_l in Hj by done.
        destruct (Hn _ _ Hj) as (m & Hy & Hmp & Hmx). rewrite Hy. simpl.
        eexists. split; [done|]. unfold inserted.
        rewrite decide_False by (intros ->; apply Hni; by eapply list_elem_of_lookup_2).
        simpl. split.
        -- rewrite Hmp. destruct j as [|j']; [done|]. simpl.
           by rewrite lookup_app_l by lia.
        -- case_decide as Hc.
           ++ rewrite Hb, last_lookup in Hc.
              pose proof (NoDup_lookup _ _ _ _ Hnd Hj Hc) as ->.
              rewrite lookup_app_r by lia.
              replace (S (pred (length ls)) - length ls) with 0 by lia. done.
           ++ rewrite Hmx. destruct (decide (S j < length ls)).
              ** by rewrite lookup_app_l by lia.
              ** exfalso. apply Hc. rewrite Hb, last_lookup, <-Hj. f_equal. lia.
      * pose proof (lookup_lt_Some _ _ _ Hj) as Hlen. rewrite length_app in Hlen.
        simpl in Hlen. assert (j = length ls) as -> by lia.
        rewrite list_lookup_middle in Hj by done. simplify_eq.
        rewrite Ha. simpl. eexists. split; [done|]. unfold inserted.
        rewrite decide_True by done. simpl. split.
        -- by rewrite Hb, prev_at_snoc.
        -- symmetry. apply lookup_ge_None. rewrite length_app. simpl. lia.
  - intros y. simpl. rewrite Hh'. rewrite <-option_fmap_compose.
    apply option_fmap_ext. intros m. simpl. apply inserted_data.
Qed.

Lemma move_to_back_spec l ls i a :
  dll_repr l ls → ls !! i = Some a →
  ∃ l', move_to_back a l = (Ok a, l') ∧
        dll_repr l' (delete i ls ++ [a]) ∧
        same_data (nodes l) (nodes l').
Proof.
  intros Hr Hi. unfold move_to_back. munfold.
  case_bool_decide as Hba.
  - exists l. split; [done|]. split; [|done].
    apply (dll_repr_back_iff _ _ _ _ Hr Hi) in Hba as ->.
    destruct ls as [|x ls'] using rev_ind; [done|].
    rewrite length_app in *. simpl in *.
    replace (pred (length ls' + 1)) with (length ls') in * by lia.
    rewrite list_lookup_middle in Hi by done. simplify_eq.
    by rewrite delete_middle, app_nil_r.
  - destruct (eject_spec _ _ _ _ Hr Hi) as (l1 & Hej & Hr1 & (n1 & Hn1 & _) & Hd1).
    assert (Hni : a ∉ delete i ls).
    { destruct Hr as (Hnd & _). intros (j & Hj)%list_elem_of_lookup_1.
      rewrite list_lookup_delete in Hj. case_decide.
      - pose proof (NoDup_lookup _ _ _ _ Hnd Hi Hj). lia.
      - pose proof (NoDup_lookup _ _ _ _ Hnd Hi Hj). lia. }
    destruct (push_back_spec _ _ _ _ Hr1 Hni Hn1) as (l2 & Hpb & Hr2 & Hd2).
    exists l2. rewrite Hej. simpl. rewrite Hpb. simpl.
    split; [done|]. split; [done|]. by eapply same_data_trans.
Qed.

Lemma pop_back_spec l ls a :
  dll_repr l ls → last ls = Some a →
  ∃ l', pop_back l = (Ok a, l') ∧
        dll_repr l' (delete (pred (length ls)) ls) ∧
        same_data (nodes l) (nodes l').
Proof.
  intros Hr Hlast. pose proof Hr as (_ & _ & Hb & _).
  unfold pop_back. munfold. rewrite Hb, Hlast.
  rewrite last_lookup in Hlast.
  destruct (eject_spec _ _ _ _ Hr Hlast) as (l' & Hej & Hr' & _ & Hd).
  exists l'. by rewrite Hej.
Qed.

Lemma pop_front_spec l ls a :
  dll_repr l ls → head ls = Some a →
  ∃ l', pop_front l = (Ok a, l') ∧
        dll_repr l' (delete 0 ls) ∧
        same_data (nodes l) (nodes l').
Proof.
  intros Hr Hhead. pose proof Hr as (_ & Hf & _ & _).
  unfold pop_front. munfold. rewrite Hf, Hhead.
  rewrite head_lookup in Hhead.
  destruct (eject_spec _ _ _ _ Hr Hhead) as (l' & Hej & Hr' & _ & Hd).
  exists l'. by rewrite Hej.
Qed.

Lemma pop_back_empty l : dll_repr l [] → pop_back l = (Raise IsEmptyError, l).
Proof. intros (_ & _ & Hb & _). unfold pop_back. munfold. by rewrite Hb. Qed.

Lemma pop_front_empty l : dll_repr l [] → pop_front l = (Raise IsEmptyError, l).
Proof. intros (_ & Hf & _ & _). unfold pop_front. munfold. by rewrite Hf. Qed.

(** Walking the [_nxt] references from the front finds exactly [ls]. *)
Lemma walk_drop (h : gmap nat (_DLListNode K V)) ls fuel i :
  (∀ j a, ls !! j = Some a → h !! a ≫= _nxt = ls !! S j) →
  length ls ≤ i + fuel →
  walk fuel h (ls !! i) = drop i ls.
Proof.
  intros Hnxt. revert i. induction fuel as [|fuel IH]; intros i Hlen.
  - rewrite drop_ge by lia. simpl. by destruct (ls !! i).
  - simpl. destruct (ls !! i) as [a|] eqn:Hi.
    + rewrite (Hnxt _ _ Hi), IH by lia. symmetry. by apply drop_S.
    + apply lookup_ge_None in Hi. by rewrite drop_ge.
Qed.

Lemma dll_repr_length l ls : dll_repr l ls → length ls ≤ size (nodes l).
Proof.
  intros Hr. pose proof Hr as (Hnd & _).
  rewrite <-(size_list_to_set (C:=gset nat) ls), <-size_dom by done.
  apply subseteq_size. intros a Ha%elem_of_list_to_set.
  apply elem_of_dom. by eapply dll_repr_is_Some.
Qed.

Lemma to_list_repr l ls : dll_repr l ls → to_list l = ls.
Proof.
  intros Hr. pose proof Hr as (Hnd & Hf & _ & Hn).
  unfold to_list. rewrite Hf, head_lookup.
  rewrite (walk_drop _ ls); [done| |].
  - intros j a Hj. destruct (Hn _ _ Hj) as (n & -> & _ & Hx). done.
  - pose proof (dll_repr_length _ _ Hr). lia.
Qed.

(** Walking the [_prv] references from the back finds [ls] reversed. *)
Lemma walk_back_take h ls fuel i a :
  (∀ j b, ls !! j = Some b → h !! b ≫= _prv = prev_at ls j) →
  ls !! i = Some a → i < fuel →
  walk_back fuel h (Some a) = reverse (take (S i) ls).
Proof.
  intros Hprv. revert fuel a. induction i as [|i IH]; intros fuel a Hi Hlt.
  - destruct fuel as [|fuel]; [lia|]. simpl. rewrite (Hprv _ _ Hi). simpl.
    destruct ls as [|x ls']; simplify_eq/=. by destruct fuel.
  - destruct fuel as [|fuel]; [lia|]. simpl. rewrite (Hprv _ _ Hi). simpl.
    destruct (lookup_lt_is_Some_2 ls i) as [b Hb];
      [apply lookup_lt_Some in Hi; lia|].
    rewrite Hb, (IH fuel b Hb) by lia.
    by rewrite (take_S_r ls (S i) a Hi), reverse_app.
Qed.

Lemma to_list_back_repr l ls : dll_repr l ls → to_list_back l = reverse ls.
Proof.
  intros Hr. pose proof Hr as (Hnd & _ & Hb & Hn).
  unfold to_list_back. rewrite Hb.
  destruct (last ls) as [a|] eqn:Hlast.
  - rewrite last_lookup in Hlast.
    rewrite (walk_back_take _ ls _ (pred (length ls)) a); [| |done|].
    + pose proof (lookup_lt_Some _ _ _ Hlast).
      rewrite take_ge by lia. done.
    + intros j b Hj. destruct (Hn _ _ Hj) as (n & -> & Hp & _). done.
    + pose proof (dll_repr_length _ _ Hr). pose proof (lookup_lt_Some _ _ _ Hlast). lia.
  - apply last_None in Hlast as ->. simpl. by destruct (size (nodes l)).
Qed.

(** Overwriting the value of a node leaves the list as it is. *)
Lemma dll_repr_update_data l ls a n d :
  dll_repr l ls → nodes l !! a = Some n →
  dll_repr (set_nodes (<[a := mk_DLListNode d (_prv n) (_nxt n)]> (nodes l)) l) ls.
Proof.
  intros (Hnd & Hf & Hb & Hn) Ha. split; [done|]. split; [done|]. split; [done|].
  intros i y Hi. simpl. destruct (Hn _ _ Hi) as (m & Hy & Hmp & Hmx).
  destruct (decide (y = a)) as [->|Hne].
  - rewrite lookup_insert_eq. simplify_eq. eauto.
  - rewrite lookup_insert_ne by done. eauto.
Qed.

(** A new object is not part of the list. *)
Lemma dll_repr_alloc l ls a n :
  dll_repr l ls → nodes l !! a = None →
  dll_repr (set_nodes (<[a := n]> (nodes l)) l) ls ∧ a ∉ ls.
Proof.
  intros Hr Ha. assert (Hni : a ∉ ls).
  { intros Hin. destruct (dll_repr_is_Some _ _ _ Hr Hin) as [? ?]. congruence. }
  split; [|done]. destruct Hr as (Hnd & Hf & Hb & Hn).
  split; [done|]. split; [done|]. split; [done|].
  intros i y Hi. simpl. destruct (Hn _ _ Hi) as (m & Hy & Hmp & Hmx).
  rewrite lookup_insert_ne; [eauto|]. intros ->. apply Hni.
  by eapply list_elem_of_lookup_2.
Qed.

(** *** The methods of the list, with the state they leave *)

Lemma well_formed_repr l ls : dll_repr l ls → well_formed l.
Proof. intros Hr. unfold well_formed. by rewrite (to_list_repr _ _ Hr). Qed.

Lemma eject_run l ls i a n :
  dll_repr l ls → ls !! i = Some a → nodes l !! a = Some n →
  ∃ h', eject a l =
          (Ok a, mk_DLList
                   (if bool_decide (_front l = Some a) then _nxt n else _front l)
                   (if bool_decide (_back l = Some a) then _prv n else _back l) h') ∧
        ∀ y, h' !! y = ejected a n y <$> nodes l !! y.
Proof.
  intros Hr Hi Ha. pose proof Hr as (Hnd & Hf & Hb & Hn).
  destruct (Hn i a Hi) as (n' & Ha' & Hprv & Hnxt).
  assert (n' = n) as -> by congruence.
  assert (Hp : ∀ p, _prv n = Some p → p ≠ a ∧ is_Some (nodes l !! p)).
  { intros p Hp. rewrite Hprv in Hp. destruct i as [|i']; [done|]. simpl in Hp. split.
    - intros ->. pose proof (NoDup_lookup _ _ _ _ Hnd Hi Hp). lia.
    - destruct (Hn _ _ Hp) as (m & -> & _); eauto. }
  assert (Hx : ∀ x, _nxt n = Some x → x ≠ a ∧ is_Some (nodes l !! x)).
  { intros x Hx. rewrite Hnxt in Hx. split.
    - intros ->. pose proof (NoDup_lookup _ _ _ _ Hnd Hi Hx). lia.
    - destruct (Hn _ _ Hx) as (m & -> & _); eauto. }
  destruct (node_eject_spec _ _ _ Ha Hp Hx) as (h' & Hej & Hh').
  exists h'. split; [|done].
  unfold eject, on_heap, node_nxt, node_prv. munfold.
  destruct l as [f b h]; simpl in *.
  destruct (bool_decide (f = Some a)); simpl; rewrite ?(load_Some _ _ _ Ha); simpl;
    (destruct (bool_decide (b = Some a)); simpl; rewrite ?(load_Some _ _ _ Ha); simpl;
     by rewrite Hej).
Qed.

Lemma push_front_run l ls a n0 :
  dll_repr l ls → a ∉ ls → nodes l !! a = Some n0 →
  ∃ h', push_front a l =
          (Ok (), mk_DLList (Some a) (if _back l is None then Some a else _back l) h') ∧
        ∀ y, h' !! y = inserted a None (_front l) y <$> nodes l !! y.
Proof.
  intros Hr Hni Ha. pose proof Hr as (Hnd & Hf & Hb & Hn).
  assert (Hp : ∀ p, (None : option nat) = Some p → p ≠ a ∧ is_Some (nodes l !! p)) by done.
  assert (Hx : ∀ x, _front l = Some x → x ≠ a ∧ is_Some (nodes l !! x)).
  { intros x Hx. rewrite Hf in Hx. apply head_Some_elem_of in Hx. split.
    - by intros ->.
    - by eapply dll_repr_is_Some. }
  destruct (node_insert_between_spec _ _ _ _ _ Ha Hp Hx) as (h' & Hins & Hh').
  exists h'. split; [|done].
  unfold push_front, on_heap. munfold. destruct l as [f b h]; simpl in *.
  rewrite Hins. simpl. by destruct b.
Qed.

Lemma push_back_run l ls a n0 :
  dll_repr l ls → a ∉ ls → nodes l !! a = Some n0 →
  ∃ h', push_back a l =
          (Ok (), mk_DLList (if _front l is None then Some a else _front l) (Some a) h') ∧
        ∀ y, h' !! y = inserted a (_back l) None y <$> nodes l !! y.
Proof.
  intros Hr Hni Ha. pose proof Hr as (Hnd & Hf & Hb & Hn).
  assert (Hx : ∀ x, (None : option nat) = Some x → x ≠ a ∧ is_Some (nodes l !! x)) by done.
  assert (Hp : ∀ p, _back l = Some p → p ≠ a ∧ is_Some (nodes l !! p)).
  { intros p Hp. rewrite Hb in Hp. apply last_Some_elem_of in Hp. split.
    - by intros ->.
    - by eapply dll_repr_is_Some. }
  destruct (node_insert_between_spec _ _ _ _ _ Ha Hp Hx) as (h' & Hins & Hh').
  exists h'. split; [|done].
  unfold push_back, on_heap. munfold. destruct l as [f b h]; simpl in *.
  rewrite Hins. simpl. by destruct f.
Qed.

End dll_facts.

(** ** [dll_lru_cache.py]: the cache *)

Lemma bind_run {S A B} (m : M S A) (k : A → M S B) (s : S) :
  (m ≫= k) s = match m s with
               | (Ok a, s') => k a s'
               | (Raise e, s') => (Raise e, s')
               end.
Proof. done. Qed.

Lemma bind_ok {S A B} (m : M S A) (k : A → M S B) (s s' : S) (a : A) :
  m s = (Ok a, s') → (m ≫= k) s = k a s'.
Proof. intros Hm. by rewrite bind_run, Hm. Qed.

Section odict_facts.
Context {K V : Type} `{EqDecision K}.
Implicit Types (es : odict K V) (k : K) (v : V).

Lemma od_get_lookup es i k v :
  NoDup es.*1 → es !! i = Some (k, v) → od_get k es = Some v.
Proof.
  revert i. induction es as [|[k' v'] es IH]; intros i Hnd Hi; [done|].
  csimpl in *. apply NoDup_cons in Hnd as [Hni Hnd].
  destruct i as [|i]; simpl in Hi.
  - simplify_eq. by rewrite decide_True.
  - rewrite decide_False; [by eapply IH|].
    intros ->. apply Hni. apply list_elem_of_fmap. exists (k, v).
    split; [done|]. by eapply list_elem_of_lookup_2.
Qed.

Lemma od_remove_delete es i k v :
  NoDup es.*1 → es !! i = Some (k, v) → od_remove k es = delete i es.
Proof.
  revert i. induction es as [|[k' v'] es IH]; intros i Hnd Hi; [done|].
  csimpl in *. apply NoDup_cons in Hnd as [Hni Hnd].
  destruct i as [|i]; simpl in Hi.
  - simplify_eq. by rewrite decide_True.
  - rewrite decide_False; [by erewrite IH|].
    intros ->. apply Hni. apply list_elem_of_fmap. exists (k, v).
    split; [done|]. by eapply list_elem_of_lookup_2.
Qed.

Lemma removelast_delete {A} (xs : list A) : removelast xs = delete (pred (length xs)) xs.
Proof.
  induction xs as [|x [|y xs] IH]; [done..|].
  change (removelast (x :: y :: xs)) with (x :: removelast (y :: xs)).
  rewrite IH. done.
Qed.

End odict_facts.

Section cache_facts.
Context {K V : Type} `{Countable K}.
Import DllLruCache.
Implicit Types (c : LRUCache K V) (l : _DLList K V) (h : gmap nat (_DLListNode K V)).
Implicit Types (ls : list nat) (es : odict K V) (k : K) (v : V).

Lemma item_at_same_data h h' a : same_data h h' → item_at h' a = item_at h a.
Proof.
  intros Hsd. specialize (Hsd a). unfold item_at.
  destruct (h' !! a) as [n'|], (h !! a) as [n|]; simpl in *; try done.
  injection Hsd as Hsd. by rewrite Hsd.
Qed.

Lemma key_at_same_data h h' a : same_data h h' → key_at h' a = key_at h a.
Proof.
  intros Hsd. specialize (Hsd a). unfold key_at.
  destruct (h' !! a) as [n'|], (h !! a) as [n|]; simpl in *; try done.
  injection Hsd as Hsd. by rewrite Hsd.
Qed.

Lemma key_at_item_at h a e : item_at h a = Some e → key_at h a = Some e.1.
Proof.
  unfold item_at, key_at. destruct (h !! a); simpl; [|done]. by intros [= <-].
Qed.

Lemma holds_same_data h h' ls es : same_data h h' → holds h ls es → holds h' ls es.
Proof.
  intros Hsd Hh. eapply Forall2_impl; [exact Hh|].
  intros a e. by rewrite (item_at_same_data h h').
Qed.

Lemma holds_frame h h' ls es :
  (∀ a, a ∈ ls → item_at h' a = item_at h a) → holds h ls es → holds h' ls es.
Proof.
  intros Hfr Hh. induction Hh as [|a e ls es Ha _ IH]; [by apply Forall2_nil|].
  apply Forall2_cons. split.
  - rewrite Hfr; [done|]. apply list_elem_of_here.
  - apply IH. intros a' Hin. apply Hfr. by apply list_elem_of_further.
Qed.

Lemma holds_entries h ls es : holds h ls es → omap (item_at h) ls = es.
Proof. induction 1 as [|a e ls es Ha _ IH]; csimpl; [done|]. by rewrite Ha, IH. Qed.

Lemma dll_abs_entries c ls es : dll_abs c ls es → entries c = es.
Proof.
  intros (Hr & Hh & _). unfold entries. rewrite (to_list_repr _ _ Hr).
  by apply holds_entries.
Qed.

Lemma dll_abs_length c ls es : dll_abs c ls es → length es = length ls.
Proof. intros (_ & Hh & _). symmetry. by eapply Forall2_length. Qed.

Lemma dll_abs_lookup c ls es i a :
  dll_abs c ls es → ls !! i = Some a →
  ∃ k v, es !! i = Some (k, v) ∧ item_at (nodes (_dllist c)) a = Some (k, v) ∧
         _dict c !! k = Some a.
Proof.
  intros (Hr & Hh & _ & Hd) Hi.
  destruct (Forall2_lookup_l _ _ _ _ _ Hh Hi) as ([k v] & He & Hit).
  exists k, v. split; [done|]. split; [done|]. apply Hd. split.
  - by eapply list_elem_of_lookup_2.
  - by rewrite (key_at_item_at _ _ _ Hit).
Qed.

Lemma dll_abs_NoDup c ls es : dll_abs c ls es → NoDup es.*1.
Proof.
  intros Ha. pose proof Ha as ((Hnd & _) & Hh & _ & Hd).
  apply NoDup_alt. intros i j k Hi Hj.
  rewrite list_lookup_fmap in Hi, Hj.
  destruct (es !! i) as [[ki vi]|] eqn:Ei; [|by simplify_eq/=].
  destruct (es !! j) as [[kj vj]|] eqn:Ej; [|by simplify_eq/=]. simplify_eq/=.
  destruct (Forall2_lookup_r _ _ _ _ _ Hh Ei) as (ai & Hai & Hiti).
  destruct (Forall2_lookup_r _ _ _ _ _ Hh Ej) as (aj & Haj & Hitj).
  destruct (dll_abs_lookup _ _ _ _ _ Ha Hai) as (k1 & v1 & He1 & _ & Hd1).
  destruct (dll_abs_lookup _ _ _ _ _ Ha Haj) as (k2 & v2 & He2 & _ & Hd2).
  simplify_eq. by eapply NoDup_lookup.
Qed.

Lemma dll_abs_hit c ls es k a :
  dll_abs c ls es → _dict c !! k = Some a →
  ∃ i v, ls !! i = Some a ∧ es !! i = Some (k, v) ∧
         item_at (nodes (_dllist c)) a = Some (k, v) ∧ od_get k es = Some v.
Proof.
  intros Ha Hk. pose proof Ha as (Hr & Hh & _ & Hd).
  apply Hd in Hk as [(i & Hi)%list_elem_of_lookup_1 Hkey].
  destruct (dll_abs_lookup _ _ _ _ _ Ha Hi) as (k' & v & He & Hit & _).
  rewrite (key_at_item_at _ _ _ Hit) in Hkey. simpl in Hkey. simplify_eq.
  exists i, v. split; [done|]. split; [done|]. split; [done|].
  eapply od_get_lookup; [|done]. by eapply dll_abs_NoDup.
Qed.

Lemma dll_abs_miss c ls es k :
  dll_abs c ls es → _dict c !! k = None → od_get k es = None.
Proof.
  intros Ha Hk. pose proof Ha as (Hr & Hh & _ & Hd).
  apply od_get_None. intros ([k' v] & Hkv & (i & Hi)%list_elem_of_lookup_1)%list_elem_of_fmap.
  simpl in Hkv. subst k'.
  destruct (Forall2_lookup_r _ _ _ _ _ Hh Hi) as (a & Hai & Hit).
  destruct (dll_abs_lookup _ _ _ _ _ Ha Hai) as (k1 & v1 & He1 & _ & Hd1).
  simplify_eq.
Qed.

Lemma set_nodes_nodes l : set_nodes (nodes l) l = l.
Proof. by destruct l. Qed.

Lemma set_dllist_dllist c : set_dllist (_dllist c) c = c.
Proof. by destruct c. Qed.

Lemma on_dllist_run {A} (m : M (_DLList K V) A) c r l' :
  m (_dllist c) = (r, l') → on_dllist m c = (r, set_dllist l' c).
Proof. unfold on_dllist, zoom. by intros ->. Qed.

Lemma on_heap_run {A} (m : M (gmap nat (_DLListNode K V)) A) l r h' :
  m (nodes l) = (r, h') → on_heap m l = (r, set_nodes h' l).
Proof. unfold on_heap, zoom. by intros ->. Qed.

(** A hit moves the node to the front; index and entries follow. *)
Lemma dll_abs_move_to_front c ls es i a k v :
  dll_abs c ls es → ls !! i = Some a → es !! i = Some (k, v) →
  ∃ l', move_to_front a (_dllist c) = (Ok a, l') ∧
        same_data (nodes (_dllist c)) (nodes l') ∧
        dll_abs (set_dllist l' c) (a :: delete i ls) ((k, v) :: delete i es).
Proof.
  intros Ha Hi He. pose proof Ha as (Hr & Hh & Hsz & Hd).
  destruct (move_to_front_spec _ _ _ _ Hr Hi) as (l' & Hmv & Hr' & Hsd).
  exists l'. split; [done|]. split; [done|].
  pose proof (Forall2_lookup_lr _ _ _ _ _ _ Hh Hi He) as Hit.
  split; [done|]. split; [|split]; simpl.
  - apply Forall2_cons. split.
    + by rewrite (item_at_same_data _ _ _ Hsd).
    + apply Forall2_delete. by eapply holds_same_data.
  - rewrite Hsz, length_delete by eauto.
    pose proof (lookup_lt_Some _ _ _ Hi). lia.
  - intros k' a'. rewrite Hd, (key_at_same_data _ _ _ Hsd).
    by rewrite <-(delete_Permutation ls i a Hi).
Qed.

Lemma get_hit c ls es k a dflt :
  dll_abs c ls es → _dict c !! k = Some a →
  ∃ i v l', ls !! i = Some a ∧ es !! i = Some (k, v) ∧
            get k dflt c = (Ok v, set_dllist l' c) ∧
            dll_abs (set_dllist l' c) (a :: delete i ls) ((k, v) :: delete i es).
Proof.
  intros Ha Hk.
  destruct (dll_abs_hit _ _ _ _ _ Ha Hk) as (i & v & Hi & He & Hit & Hget).
  destruct (dll_abs_move_to_front _ _ _ _ _ _ _ Ha Hi He) as (l' & Hmv & Hsd & Ha').
  exists i, v, l'. split; [done|]. split; [done|]. split; [|done].
  unfold get. rewrite bind_run. unfold read at 1. rewrite Hk.
  rewrite (bind_ok _ _ _ _ _ (on_dllist_run _ _ _ _ Hmv)).
  rewrite <-(item_at_same_data _ _ _ Hsd) in Hit. unfold item_at in Hit.
  destruct (nodes l' !! a) as [n'|] eqn:Hn'; [|done]. simpl in Hit. simplify_eq.
  erewrite on_dllist_run; [|apply on_heap_run].
  2:{ unfold node_value. rewrite (bind_ok _ _ _ _ _ (load_Some _ _ _ Hn')). done. }
  simpl. by rewrite set_nodes_nodes.
Qed.

Lemma get_miss c k dflt :
  _dict c !! k = None →
  get k dflt c = (match dflt with Some d => Ok d | None => Raise KeyError end, c).
Proof.
  intros Hk. unfold get. rewrite bind_run. unfold read at 1. rewrite Hk.
  by destruct dflt.
Qed.

Lemma put_hit c ls es k a v :
  dll_abs c ls es → _dict c !! k = Some a →
  ∃ i v0 l', ls !! i = Some a ∧ es !! i = Some (k, v0) ∧
             put k v c = (Ok (), set_dllist l' c) ∧
             dll_abs (set_dllist l' c) (a :: delete i ls) ((k, v) :: delete i es).
Proof.
  intros Ha Hk.
  destruct (dll_abs_hit _ _ _ _ _ Ha Hk) as (i & v0 & Hi & He & Hit & Hget).
  destruct (dll_abs_move_to_front _ _ _ _ _ _ _ Ha Hi He) as (l1 & Hmv & Hsd & Ha1).
  rewrite <-(item_at_same_data _ _ _ Hsd) in Hit. unfold item_at in Hit.
  destruct (nodes l1 !! a) as [n1|] eqn:Hn1; [|done]. simpl in Hit. simplify_eq.
  set (n2 := mk_DLListNode (mk_Item (_key (data n1)) v) (_prv n1) (_nxt n1)).
  exists i, (value (data n1)), (set_nodes (<[a := n2]> (nodes l1)) l1).
  split; [done|]. split; [done|]. split.
  { unfold put. rewrite bind_run. unfold read at 1. rewrite Hk.
    rewrite (bind_ok _ _ _ _ _ (on_dllist_run _ _ _ _ Hmv)).
    erewrite on_dllist_run; [|apply on_heap_run].
    2:{ unfold set_value. by apply update_Some. }
    done. }
  destruct Ha1 as (Hr1 & Hh1 & Hsz1 & Hd1). simpl in *.
  assert (Hni : a ∉ delete i ls).
  { destruct Hr1 as (Hnd1 & _). by apply NoDup_cons in Hnd1 as [? _]. }
  split; [|split; [|split]]; simpl.
  - by apply dll_repr_update_data.
  - apply Forall2_cons in Hh1 as [_ Hh1]. apply Forall2_cons. split.
    + unfold item_at. by rewrite lookup_insert_eq.
    + eapply holds_frame; [|exact Hh1]. intros a' Hin.
      unfold item_at. rewrite lookup_insert_ne; [done|]. by intros ->.
  - done.
  - intros k' a'. rewrite Hd1. apply and_iff_compat_l.
    unfold key_at. destruct (decide (a' = a)) as [->|Hne].
    + by rewrite lookup_insert_eq, Hn1.
    + by rewrite lookup_insert_ne.
Qed.

(** The last steps of [put] for a new key: a new node, indexed and pushed to
    the front. *)
Lemma put_new_node c ls es k v :
  dll_abs c ls es → _dict c !! k = None →
  ∃ c', (node ← on_dllist (on_heap (new_node (mk_Item k v)));
         modify (λ c, set_dict (<[k := node]> (_dict c)) c);;
         on_dllist (push_front node)) c = (Ok (), c') ∧
        _max_size c' = _max_size c ∧
        ∃ a, dll_abs c' (a :: ls) ((k, v) :: es).
Proof.
  intros Ha Hk. pose proof Ha as (Hr & Hh & Hsz & Hd).
  set (h := nodes (_dllist c)). set (a := fresh (dom h)).
  set (n0 := mk_DLListNode (mk_Item k v) None None).
  assert (Hfresh : h !! a = None).
  { apply not_elem_of_dom. apply is_fresh. }
  destruct (dll_repr_alloc _ _ a n0 Hr Hfresh) as [Hr1 Hni].
  set (l1 := set_nodes (<[a:=n0]> h) (_dllist c)) in *.
  assert (Hn0 : nodes l1 !! a = Some n0) by apply lookup_insert_eq.
  destruct (push_front_spec _ _ _ _ Hr1 Hni Hn0) as (l2 & Hpf & Hr2 & Hsd).
  exists (set_dllist l2 (set_dict (<[k:=a]> (_dict c)) c)). split; [|split; [done|]].
  { erewrite bind_ok; [|apply on_dllist_run, on_heap_run; reflexivity].
    rewrite bind_run. unfold modify at 1.
    by erewrite on_dllist_run; [|exact Hpf]. }
  exists a. split; [|split; [|split]]; simpl.
  - done.
  - apply Forall2_cons. split.
    + rewrite (item_at_same_data _ _ _ Hsd). unfold item_at. simpl.
      by rewrite lookup_insert_eq.
    + eapply holds_frame; [|exact Hh]. intros a' Hin.
      rewrite (item_at_same_data _ _ _ Hsd). unfold item_at. simpl.
      rewrite lookup_insert_ne; [done|]. by intros ->.
  - rewrite map_size_insert_None by done. by rewrite Hsz.
  - intros k' a'. rewrite (key_at_same_data _ _ _ Hsd). simpl.
    rewrite elem_of_cons. unfold key_at.
    destruct (decide (k' = k)) as [->|Hkne].
    + rewrite lookup_insert_eq. split.
      * intros [= <-]. split; [by left|]. by rewrite lookup_insert_eq.
      * intros [[->|Hin] Hkey]; [done|]. exfalso.
        rewrite lookup_insert_ne in Hkey by (by intros ->).
        assert (_dict c !! k = Some a') by (by apply Hd). congruence.
    + rewrite lookup_insert_ne by done. rewrite Hd. split.
      * intros [Hin Hkey]. split; [by right|].
        rewrite lookup_insert_ne; [done|]. by intros ->.
      * intros [[->|Hin] Hkey].
        -- rewrite lookup_insert_eq in Hkey. simpl in Hkey. congruence.
        -- split; [done|]. rewrite lookup_insert_ne in Hkey; [done|]. by intros ->.
Qed.

(** The eviction steps of [put]: the back node leaves the list and its key
    leaves the index. *)
Lemma put_evict c ls es :
  dll_abs c ls es → ls ≠ [] →
  ∃ b kb vb c1,
    last ls = Some b ∧ last es = Some (kb, vb) ∧
    (lru_node ← on_dllist pop_back;
     lru_key ← on_dllist (on_heap (node_key lru_node));
     dict_delitem lru_key) c = (Ok (), c1) ∧
    _max_size c1 = _max_size c ∧
    _dict c1 = delete kb (_dict c) ∧
    dll_abs c1 (removelast ls) (removelast es).
Proof.
  intros Ha Hne. pose proof Ha as (Hr & Hh & Hsz & Hd).
  apply last_is_Some in Hne as [b Hlast].
  destruct (pop_back_spec _ _ _ Hr Hlast) as (l1 & Hpop & Hr1 & Hsd).
  pose proof Hlast as Hi. rewrite last_lookup in Hi.
  destruct (dll_abs_lookup _ _ _ _ _ Ha Hi) as (kb & vb & He & Hit & Hdb).
  pose proof Hit as Hit1.
  rewrite <-(item_at_same_data _ _ _ Hsd) in Hit1. unfold item_at in Hit1.
  destruct (nodes l1 !! b) as [n1|] eqn:Hn1; [|done]. simpl in Hit1.
  exists b, kb, vb, (set_dict (delete kb (_dict c)) (set_dllist l1 c)).
  split; [done|]. split.
  { rewrite last_lookup, (dll_abs_length _ _ _ Ha). done. }
  split.
  { rewrite (bind_ok _ _ _ _ _ (on_dllist_run _ _ _ _ Hpop)).
    erewrite bind_ok; [|apply on_dllist_run, on_heap_run].
    2:{ unfold node_key. rewrite (bind_ok _ _ _ _ _ (load_Some _ _ _ Hn1)). done. }
    simpl. rewrite set_nodes_nodes. unfold dict_delitem. simpl.
    simplify_eq. by rewrite Hdb. }
  split; [done|]. split; [done|].
  rewrite !removelast_delete, (dll_abs_length _ _ _ Ha).
  pose proof Hr as (Hnd & _).
  pose proof (delete_Permutation _ _ _ Hi) as Hperm.
  assert (Hnb : b ∉ delete (pred (length ls)) ls).
  { rewrite Hperm in Hnd. by apply NoDup_cons in Hnd as [? _]. }
  split; [|split; [|split]]; simpl.
  - done.
  - apply Forall2_delete. by eapply holds_same_data.
  - rewrite map_size_delete_Some by eauto. rewrite Hsz, length_delete by eauto. lia.
  - intros k' a'. rewrite lookup_delete_Some, (key_at_same_data _ _ _ Hsd), Hd.
    split.
    + intros (Hkne & Hin & Hkey). split; [|done].
      rewrite Hperm in Hin. apply elem_of_cons in Hin as [->|Hin]; [|done].
      rewrite (key_at_item_at _ _ _ Hit) in Hkey. simpl in Hkey. congruence.
    + intros (Hin & Hkey).
      assert (Hin' : a' ∈ ls) by (rewrite Hperm; by apply list_elem_of_further).
      split; [|done]. intros <-.
      assert (_dict c !! kb = Some a') as Hda by (by apply Hd).
      rewrite Hdb in Hda. by simplify_eq.
Qed.

Lemma full_run c cap :
  int_value (_max_size c) = Some cap →
  full c = (Ok (cap <=? Z.of_nat (size (_dict c)))%Z, c).
Proof.
  unfold full. destruct (_max_size c) as [|[]| | |]; simpl; intros [= <-]; done.
Qed.

Lemma put_miss c ls es k v cap :
  dll_abs c ls es → _dict c !! k = None →
  int_value (_max_size c) = Some cap → (0 < cap)%Z → (Z.of_nat (length ls) ≤ cap)%Z →
  ∃ c' ls',
    put k v c = (Ok (), c') ∧ _max_size c' = _max_size c ∧
    dll_abs c' ls' ((k, v) :: (if Spec.is_full cap es then removelast es else es)) ∧
    (Z.of_nat (length ls') ≤ cap)%Z.
Proof.
  intros Ha Hk Hcap Hpos Hlen. pose proof Ha as (Hr & Hh & Hsz & Hd).
  unfold put. rewrite bind_run. unfold read at 1. rewrite Hk.
  rewrite (bind_ok _ _ _ _ _ (full_run _ _ Hcap)). rewrite Hsz.
  unfold Spec.is_full. rewrite (dll_abs_length _ _ _ Ha).
  destruct (Z.leb_spec cap (Z.of_nat (length ls))) as [Hfull|Hnf].
  - rewrite bool_decide_eq_true_2 by lia.
    assert (Hne : ls ≠ []) by (intros ->; simpl in *; lia).
    destruct (put_evict _ _ _ Ha Hne) as (b & kb & vb & c1 & _ & _ & Hev & Hmx1 & Hd1 & Ha1).
    rewrite (bind_ok _ _ _ _ _ Hev).
    assert (Hk1 : _dict c1 !! k = None) by (rewrite Hd1; apply lookup_delete_None; by right).
    destruct (put_new_node _ _ _ k v Ha1 Hk1) as (c' & Hrun & Hmx' & a & Ha').
    exists c', (a :: removelast ls). rewrite Hrun. split; [done|].
    split; [congruence|]. split; [done|]. simpl.
    rewrite removelast_delete, length_delete.
    + destruct ls; simpl in *; [done|lia].
    + apply lookup_lt_is_Some. destruct ls; simpl in *; [done|lia].
  - rewrite bool_decide_eq_false_2 by lia.
    erewrite bind_ok; [|reflexivity].
    destruct (put_new_node _ _ _ k v Ha Hk) as (c' & Hrun & Hmx' & a & Ha').
    exists c', (a :: ls). rewrite Hrun. split; [done|].
    split; [done|]. split; [done|]. simpl. lia.
Qed.

(** One call of the cache is one step of the specification's cache on the
    entries. *)
Lemma dll_step_refines c ls es cap o :
  dll_abs c ls es →
  int_value (_max_size c) = Some cap → (0 < cap)%Z → (Z.of_nat (length ls) ≤ cap)%Z →
  ∃ ls',
    (step o c).1 = (Spec.step cap o es).1 ∧
    dll_abs (step o c).2 ls' (Spec.step cap o es).2 ∧
    _max_size (step o c).2 = _max_size c ∧
    (Z.of_nat (length ls') ≤ cap)%Z.
Proof.
  intros Ha Hcap Hpos Hlen. pose proof (dll_abs_NoDup _ _ _ Ha) as Hnd.
  destruct o as [k dflt|k v]; unfold step, Spec.step; rewrite bind_run.
  - unfold Spec.get. destruct (_dict c !! k) as [a|] eqn:Hk.
    + destruct (get_hit _ _ _ _ _ dflt Ha Hk) as (i & v & l' & Hi & He & Hget & Ha').
      rewrite Hget, (od_get_lookup _ _ _ _ Hnd He), (od_remove_delete _ _ _ _ Hnd He).
      exists (a :: delete i ls). simpl. split; [done|]. split; [done|]. split; [done|].
      rewrite length_delete by eauto. pose proof (lookup_lt_Some _ _ _ Hi). lia.
    + rewrite (get_miss _ _ dflt Hk), (dll_abs_miss _ _ _ _ Ha Hk).
      exists ls. by destruct dflt.
  - unfold Spec.put. destruct (_dict c !! k) as [a|] eqn:Hk.
    + destruct (put_hit _ _ _ _ _ v Ha Hk) as (i & v0 & l' & Hi & He & Hput & Ha').
      rewrite Hput, (od_get_lookup _ _ _ _ Hnd He), (od_remove_delete _ _ _ _ Hnd He).
      exists (a :: delete i ls). simpl. split; [done|]. split; [done|]. split; [done|].
      rewrite length_delete by eauto. pose proof (lookup_lt_Some _ _ _ Hi). lia.
    + destruct (put_miss _ _ _ _ v _ Ha Hk Hcap Hpos Hlen) as (c' & ls' & Hput & Hmx & Ha' & Hlen').
      rewrite Hput, (dll_abs_miss _ _ _ _ Ha Hk). exists ls'. done.
Qed.

Lemma dll_init_inv mx c :
  __init__ mx = Ok c ↔ positive_integer mx ∧ c = mkLRUCache mx ∅ new_DLList.
Proof.
  unfold __init__, positive_integer.
  destruct mx as [z|[]| | |]; simpl;
    try (split; [done|by intros [(z' & [=] & _) _]]).
  - destruct (Z.leb_spec z 0); split.
    + done.
    + intros [(z' & [= <-] & ?) _]; lia.
    + intros [= <-]. split; [exists z; split; [done|lia]|done].
    + by intros [_ ->].
  - split; [intros [= <-]; split; [exists 1%Z; split; [done|lia]|done]|by intros [_ ->]].
  - split; [done|intros [(z' & [= <-] & ?) _]; lia].
Qed.

Lemma dll_abs_init mx : dll_abs (mkLRUCache (K:=K) (V:=V) mx ∅ new_DLList) [] [].
Proof.
  split; [apply dll_repr_nil|]. split; [apply Forall2_nil_2|]. split; [done|].
  intros k a. simpl. rewrite lookup_empty. split; [done|].
  by intros [?%elem_of_nil _].
Qed.

Lemma dll_state_after_cons o ops c :
  state_after (o :: ops) c = state_after ops (step o c).2.
Proof.
  unfold state_after. simpl. destruct (step o c) as [r c'].
  simpl. by destruct (run ops c').
Qed.

Lemma dll_outcomes_cons o ops c :
  outcomes (o :: ops) c = (step o c).1 :: outcomes ops (step o c).2.
Proof.
  unfold outcomes. simpl. destruct (step o c) as [r c'].
  simpl. by destruct (run ops c').
Qed.

Lemma dll_run_refines c ls es cap ops :
  dll_abs c ls es →
  int_value (_max_size c) = Some cap → (0 < cap)%Z → (Z.of_nat (length ls) ≤ cap)%Z →
  ∃ ls',
    outcomes ops c = (Spec.run cap ops es).1 ∧
    dll_abs (state_after ops c) ls' (Spec.run cap ops es).2 ∧
    _max_size (state_after ops c) = _max_size c ∧
    (Z.of_nat (length ls') ≤ cap)%Z.
Proof.
  revert c ls es. induction ops as [|o ops IH]; intros c ls es Ha Hcap Hpos Hlen.
  - exists ls. done.
  - destruct (dll_step_refines _ _ _ _ o Ha Hcap Hpos Hlen) as (ls1 & Hr1 & Ha1 & Hmx1 & Hlen1).
    rewrite <-Hmx1 in Hcap.
    destruct (IH _ _ _ Ha1 Hcap Hpos Hlen1) as (ls' & Hr' & Ha' & Hmx' & Hlen').
    exists ls'. rewrite dll_state_after_cons, dll_outcomes_cons. simpl.
    destruct (Spec.step cap o es) as [r es1]. simpl in *.
    destruct (Spec.run cap ops es1) as [rs es']. simpl in *.
    split; [by rewrite Hr1, Hr'|]. split; [done|]. split; [congruence|done].
Qed.

Lemma dll_run_inv mx ops c : dll_inv mx c → dll_inv mx (state_after ops c).
Proof.
  intros (Hmx & cap & ls & es & Hcap & Hpos & Ha & Hlen). rewrite <-Hmx in Hcap.
  destruct (dll_run_refines _ _ _ _ ops Ha Hcap Hpos Hlen) as (ls' & _ & Ha' & Hmx' & Hlen').
  split; [congruence|]. exists cap, ls', (Spec.run cap ops es).2.
  rewrite <-Hmx. done.
Qed.

Lemma dll_reachable_inv c : dll_reachable c → ∃ mx, dll_inv mx c.
Proof.
  intros (mx & c0 & ops & Hinit & <-). exists mx. apply dll_run_inv.
  apply dll_init_inv in Hinit as [(cap & ? & ?) ->].
  split; [done|]. exists cap, [], []. split; [done|]. split; [done|].
  split; [apply dll_abs_init|]. simpl. lia.
Qed.

Lemma dll_reachable_step c o : dll_reachable c → dll_reachable (step o c).2.
Proof.
  intros (mx & c0 & ops & Hinit & <-). exists mx, c0, (ops ++ [o]).
  split; [done|]. clear Hinit. revert c0.
  induction ops as [|o' ops IH]; intros c0.
  - simpl. rewrite dll_state_after_cons. done.
  - simpl. rewrite !dll_state_after_cons. apply IH.
Qed.

End cache_facts.

(** ** Recency in the specification's cache *)
Section spec_facts.
Context {K V : Type} `{EqDecision K}.
Implicit Types (es : odict K V) (ks : list K) (k : K) (v : V) (ops : list (op K V)).

Lemma last_access_from_bounds t ops k i :
  last_access_from t ops k = Some i → t ≤ i < t + length ops.
Proof.
  revert t. induction ops as [|o ops IH]; intros t; simpl; [done|].
  destruct (last_access_from (S t) ops k) as [i'|] eqn:E.
  - intros [= <-]. apply IH in E. lia.
  - case_decide; [|done]. intros [= <-]. lia.
Qed.

Lemma last_access_from_snoc t ops o k :
  last_access_from t (ops ++ [o]) k =
    if decide (op_key o = k) then Some (t + length ops) else last_access_from t ops k.
Proof.
  revert t. induction ops as [|o' ops IH]; intros t; simpl.
  - case_decide; [f_equal; lia|done].
  - rewrite IH. case_decide; [f_equal; lia|done].
Qed.

Lemma last_access_snoc ops o k :
  last_access (ops ++ [o]) k =
    if decide (op_key o = k) then Some (length ops) else last_access ops k.
Proof. unfold last_access. by rewrite last_access_from_snoc. Qed.

Lemma last_access_lt ops k i : last_access ops k = Some i → i < length ops.
Proof. intros Hi%last_access_from_bounds. lia. Qed.

Lemma mru_first_delete ops ks i : mru_first ops ks → mru_first ops (delete i ks).
Proof.
  intros Hs j1 j2 k1 k2 Hlt. rewrite !list_lookup_delete.
  intros H1 H2. eapply Hs; [|exact H1|exact H2].
  repeat case_decide; lia.
Qed.

Lemma all_accessed_sublist ops ks ks' :
  ks' `sublist_of` ks → all_accessed ops ks → all_accessed ops ks'.
Proof. intros Hsub Ha k Hin. apply Ha. by eapply elem_of_sublist. Qed.

(** A call with a key outside [ks] does not disturb the order of [ks]. *)
Lemma mru_first_other ops o ks :
  op_key o ∉ ks → mru_first ops ks → mru_first (ops ++ [o]) ks.
Proof.
  intros Hni Hs i j ki kj Hlt Hi Hj.
  destruct (Hs _ _ _ _ Hlt Hi Hj) as (ti & tj & Hti & Htj & Ht).
  exists ti, tj. rewrite !last_access_snoc.
  rewrite !decide_False; [done|..].
  - intros Heq. apply Hni. rewrite Heq. by eapply list_elem_of_lookup_2.
  - intros Heq. apply Hni. rewrite Heq. by eapply list_elem_of_lookup_2.
Qed.

Lemma all_accessed_other ops o ks : all_accessed ops ks → all_accessed (ops ++ [o]) ks.
Proof.
  intros Ha k Hin. rewrite last_access_snoc. case_decide; [eauto|by apply Ha].
Qed.

(** The key of the last call goes in front of the keys it is not among. *)
Lemma mru_first_touch ops o ks :
  op_key o ∉ ks → all_accessed ops ks → mru_first ops ks →
  mru_first (ops ++ [o]) (op_key o :: ks) ∧ all_accessed (ops ++ [o]) (op_key o :: ks).
Proof.
  intros Hni Ha Hs. split.
  - intros i j ki kj Hlt Hi Hj. destruct j as [|j]; [lia|]. simpl in Hj.
    destruct i as [|i]; simpl in Hi.
    + simplify_eq. assert (Hin : kj ∈ ks) by (by eapply list_elem_of_lookup_2).
      destruct (Ha _ Hin) as [tj Htj].
      exists tj, (length ops). rewrite !last_access_snoc.
      rewrite decide_False by (by intros <-). rewrite decide_True by done.
      split; [done|]. split; [done|]. by eapply last_access_lt.
    + apply (mru_first_other ops o ks Hni Hs i j); [lia|done..].
  - intros k [->|Hin]%elem_of_cons.
    + rewrite last_access_snoc, decide_True by done. eauto.
    + by apply (all_accessed_other ops o ks Ha).
Qed.

Lemma od_get_Some_lookup es k v : od_get k es = Some v → ∃ i, es !! i = Some (k, v).
Proof. intros Hin%od_get_Some. by apply list_elem_of_lookup_1. Qed.

Lemma spec_step_inv cap ops o es :
  (0 < cap)%Z → spec_inv cap ops es → spec_inv cap (ops ++ [o]) (Spec.step cap o es).2.
Proof.
  intros Hpos (Hnd & Hlen & Hs & Ha).
  assert (Hhit : ∀ k v v0 i, op_key o = k → es !! i = Some (k, v0) →
            spec_inv cap (ops ++ [o]) ((k, v) :: od_remove k es)).
  { intros k v v0 i Hk Hi. rewrite (od_remove_delete _ _ _ _ Hnd Hi).
    assert (Hki : es.*1 !! i = Some k) by (by rewrite list_lookup_fmap, Hi).
    assert (Hni : op_key o ∉ delete i es.*1).
    { rewrite Hk. pose proof Hnd as Hnd'.
      rewrite (delete_Permutation _ _ _ Hki) in Hnd'.
      by apply NoDup_cons in Hnd' as [? _]. }
    pose proof (sublist_delete es.*1 i) as Hsub.
    destruct (mru_first_touch ops o (delete i es.*1) Hni) as [Hs' Ha'].
    { by eapply all_accessed_sublist. }
    { by apply mru_first_delete. }
    rewrite Hk in *. split; [|split; [|split]]; csimpl; rewrite ?list_fmap_delete.
    - apply NoDup_cons. split; [done|]. by eapply sublist_NoDup.
    - rewrite length_delete by eauto. pose proof (lookup_lt_Some _ _ _ Hi). lia.
    - done.
    - done. }
  assert (Hmiss : ∀ k v es', op_key o = k → od_get k es = None →
            es' = es ∨ (es' = removelast es ∧ (Z.of_nat (length es) = cap)%Z) →
            (Z.of_nat (length es) < cap)%Z ∨ es' ≠ es →
            spec_inv cap (ops ++ [o]) ((k, v) :: es')).
  { intros k v es' Hk Hget Hes' Hroom. apply od_get_None in Hget.
    assert (Hsub : es'.*1 `sublist_of` es.*1).
    { destruct Hes' as [->|[-> _]]; [done|].
      rewrite removelast_delete, list_fmap_delete. apply sublist_delete. }
    assert (Hni : op_key o ∉ es'.*1).
    { rewrite Hk. intros Hin. apply Hget. by eapply elem_of_sublist. }
    destruct (mru_first_touch ops o es'.*1 Hni) as [Hs' Ha'].
    { by eapply all_accessed_sublist. }
    { destruct Hes' as [->|[-> _]]; [done|].
      rewrite removelast_delete, list_fmap_delete. by apply mru_first_delete. }
    rewrite Hk in *. split; [|split; [|split]]; csimpl.
    - apply NoDup_cons. split; [done|]. by eapply sublist_NoDup.
    - destruct Hes' as [->|[-> Hfull]].
      + destruct Hroom as [?|?]; [lia|done].
      + rewrite removelast_delete. destruct es as [|e es0]; [simpl in *; lia|].
        rewrite length_delete; [simpl in *; lia|].
        apply lookup_lt_is_Some. simpl. lia.
    - done.
    - done. }
  destruct o as [k dflt|k v]; unfold Spec.step, Spec.get, Spec.put.
  - destruct (od_get k es) as [v|] eqn:Hget.
    + destruct (od_get_Some_lookup _ _ _ Hget) as [i Hi]. simpl. by eapply Hhit.
    + assert (Hni : op_key (Get k dflt : op K V) ∉ es.*1) by (by apply od_get_None).
      assert (spec_inv cap (ops ++ [Get k dflt]) es).
      { split; [done|]. split; [done|]. split.
        - by apply mru_first_other.
        - by apply all_accessed_other. }
      by destruct dflt.
  - destruct (od_get k es) as [v0|] eqn:Hget.
    + destruct (od_get_Some_lookup _ _ _ Hget) as [i Hi]. simpl. by eapply Hhit.
    + simpl. apply Hmiss; [done|done|..]; unfold Spec.is_full; case_bool_decide.
      * by right.
      * by left.
      * right. destruct es; [simpl in *; lia|]. intros Heq.
        apply (f_equal length) in Heq. rewrite removelast_delete in Heq.
        rewrite length_delete in Heq; [simpl in *; lia|].
        apply lookup_lt_is_Some. simpl. lia.
      * left. lia.
Qed.

Lemma spec_run_snoc cap ops o es :
  (Spec.run cap (ops ++ [o]) es).2 = (Spec.step cap o (Spec.run cap ops es).2).2.
Proof.
  revert es. induction ops as [|o' ops IH]; intros es; simpl.
  - by destruct (Spec.step cap o es).
  - destruct (Spec.step cap o' es) as [r es1]. specialize (IH es1).
    destruct (Spec.run cap (ops ++ [o]) es1), (Spec.run cap ops es1). done.
Qed.

Lemma spec_run_inv cap ops :
  (0 < cap)%Z → spec_inv cap ops (Spec.run cap ops ([] : odict K V)).2.
Proof.
  intros Hpos. induction ops as [|o ops IH] using rev_ind.
  - split; [apply NoDup_nil_2|]. split; [simpl; lia|]. split.
    + intros i j ki kj _ Hi. csimpl in Hi. by rewrite lookup_nil in Hi.
    + intros k Hin. csimpl in Hin. by apply elem_of_nil in Hin.
  - rewrite spec_run_snoc. by apply spec_step_inv.
Qed.

(** The back entry of a full cache is the least recently used one. *)
Lemma spec_back_is_lru cap ops es victim vv k' :
  spec_inv cap ops es → last es = Some (victim, vv) →
  k' ∈ es.*1 → k' ≠ victim → accessed_before ops victim k'.
Proof.
  intros (Hnd & _ & Hs & _) Hlast (i & Hi)%list_elem_of_lookup_1 Hne.
  assert (Hv : es.*1 !! pred (length es.*1) = Some victim).
  { rewrite <-last_lookup, fmap_last, Hlast. done. }
  eapply (Hs i (pred (length es.*1))); [|done..].
  pose proof (lookup_lt_Some _ _ _ Hi).
  destruct (decide (i = pred (length es.*1))) as [->|]; [congruence|lia].
Qed.

End spec_facts.

(** ** [main.py] and the specification's cache *)
Section main_refinement.
Context {K V : Type} `{EqDecision K}.
Implicit Types (c : Main.LRUCache K V) (d es : odict K V) (k : K) (v : V).
Implicit Types (ops : list (op K V)).

Lemma od_get_app_absent d1 d2 k : k ∉ d1.*1 → od_get k (d1 ++ d2) = od_get k d2.
Proof.
  induction d1 as [|[k' v'] d1 IH]; csimpl; [done|].
  rewrite not_elem_of_cons. intros [Hne Hni]. rewrite decide_False by done. auto.
Qed.

Lemma od_remove_app_absent d1 d2 k :
  k ∉ d1.*1 → od_remove k (d1 ++ d2) = d1 ++ od_remove k d2.
Proof.
  induction d1 as [|[k' v'] d1 IH]; csimpl; [done|].
  rewrite not_elem_of_cons. intros [Hne Hni]. rewrite decide_False by done.
  by rewrite IH.
Qed.

Lemma od_split d k v :
  NoDup d.*1 → od_get k d = Some v →
  ∃ d1 d2, d = d1 ++ ((k, v) :: d2) ∧ (k ∉ d1.*1) ∧ (k ∉ d2.*1).
Proof.
  intros Hnd Hget. apply od_get_Some, list_elem_of_split in Hget as (d1 & d2 & ->).
  exists d1, d2. split; [done|].
  rewrite fmap_app in Hnd. csimpl in Hnd.
  apply NoDup_app in Hnd as (_ & Hdisj & Hnd2).
  apply NoDup_cons in Hnd2 as [Hni2 _]. split; [|done].
  intros Hin. apply (Hdisj _ Hin). apply list_elem_of_here.
Qed.

Lemma od_get_rev d k : NoDup d.*1 → od_get k (reverse d) = od_get k d.
Proof.
  intros Hnd. destruct (od_get k d) as [v|] eqn:Hget.
  - destruct (od_split _ _ _ Hnd Hget) as (d1 & d2 & -> & Hni1 & Hni2).
    rewrite reverse_app, reverse_cons, <-app_assoc.
    rewrite od_get_app_absent by (by rewrite fmap_reverse, elem_of_reverse).
    simpl. by rewrite decide_True.
  - apply od_get_None. apply od_get_None in Hget.
    by rewrite fmap_reverse, elem_of_reverse.
Qed.

Lemma od_remove_rev d k : NoDup d.*1 → od_remove k (reverse d) = reverse (od_remove k d).
Proof.
  intros Hnd. destruct (od_get k d) as [v|] eqn:Hget.
  - destruct (od_split _ _ _ Hnd Hget) as (d1 & d2 & -> & Hni1 & Hni2).
    rewrite od_remove_app_absent by done. simpl. rewrite decide_True by done.
    rewrite !reverse_app, reverse_cons, <-app_assoc.
    rewrite od_remove_app_absent by (by rewrite fmap_reverse, elem_of_reverse).
    simpl. by rewrite decide_True.
  - apply od_get_None in Hget. rewrite (od_remove_absent k d) by done.
    apply od_remove_absent. by rewrite fmap_reverse, elem_of_reverse.
Qed.

(** A call that is not a [put] on a present key is one step of the
    specification's cache on the dict read backwards. *)
Lemma main_step_refines mx cap o c :
  main_inv mx c → int_value mx = Some cap →
  match o with
  | Put k _ => od_get k (reverse (Main._dict c)) = None
  | Get _ _ => True
  end →
  (Main.step o c).1 = (Spec.step cap o (reverse (Main._dict c))).1 ∧
  reverse (Main._dict (Main.step o c).2) = (Spec.step cap o (reverse (Main._dict c))).2.
Proof.
  intros (Hmx & (cap' & Hcap' & Hpos & Hlen) & Hnd) Hcap Hnew.
  assert (cap' = cap) as -> by congruence.
  unfold Main.len, Main.keys in *.
  destruct o as [k dflt|k v]; unfold Main.step, Spec.step; rewrite bind_run.
  - rewrite main_get_unfold. unfold Spec.get. rewrite (od_get_rev _ _ Hnd).
    destruct (od_get k (Main._dict c)) as [v|] eqn:Hget; [|by destruct dflt].
    simpl. split; [done|].
    rewrite od_set_absent by (by apply od_remove_not_elem).
    by rewrite reverse_snoc, (od_remove_rev _ _ Hnd).
  - rewrite main_put_unfold, Hmx, (int_ge_obj_int _ _ _ Hcap).
    unfold Spec.put, Spec.is_full. rewrite Hnew, length_reverse.
    rewrite (od_get_rev _ _ Hnd) in Hnew. apply od_get_None in Hnew.
    destruct (Z.leb_spec cap (Z.of_nat (length (Main._dict c)))) as [Hfull|Hnf].
    + rewrite bool_decide_eq_true_2 by lia.
      destruct (Main._dict c) as [|[k0 v0] rest] eqn:Hd; [simpl in *; lia|].
      simpl. split; [done|].
      csimpl in Hnew. apply not_elem_of_cons in Hnew as [_ Hnew].
      rewrite (od_set_absent _ _ _ Hnew), reverse_snoc, reverse_cons.
      by rewrite removelast_last.
    + rewrite bool_decide_eq_false_2 by lia. simpl. split; [done|].
      by rewrite (od_set_absent _ _ _ Hnew), reverse_snoc.
Qed.

Lemma main_outcomes_cons o ops c :
  Main.outcomes (o :: ops) c = (Main.step o c).1 :: Main.outcomes ops (Main.step o c).2.
Proof.
  unfold Main.outcomes. simpl. destruct (Main.step o c) as [r c'].
  simpl. by destruct (Main.run ops c').
Qed.

Lemma main_run_refines mx cap ops c :
  main_inv mx c → int_value mx = Some cap →
  puts_only_insert cap ops (reverse (Main._dict c)) →
  Main.outcomes ops c = (Spec.run cap ops (reverse (Main._dict c))).1 ∧
  reverse (Main._dict (Main.state_after ops c)) = (Spec.run cap ops (reverse (Main._dict c))).2.
Proof.
  revert c. induction ops as [|o ops IH]; intros c Hinv Hcap Hnew; [done|].
  destruct Hnew as [Ho Hnew].
  destruct (main_step_refines mx cap o c Hinv Hcap) as [Hr Hs].
  { by destruct o. }
  rewrite main_outcomes_cons, main_state_after_cons. simpl.
  destruct (Spec.step cap o (reverse (Main._dict c))) as [r es1]. simpl in *.
  rewrite <-Hs in Hnew.
  destruct (IH _ (main_step_inv mx o c Hinv) Hcap Hnew) as [Hrs Hss].
  rewrite Hs in Hrs, Hss.
  destruct (Spec.run cap ops es1) as [rs es']. simpl in *.
  by rewrite Hr, Hrs, Hss.
Qed.

End main_refinement.

(** ** The two caches against the specification *)
Section both_caches.
Context {K V : Type} `{Countable K}.
Implicit Types (k : K) (v : V) (ops : list (op K V)).

(** C5. Capacity invariant: for a capacity the constructor accepts and for
    every sequence of [get] and [put] calls, the number of entries is between
    0 and the capacity after every call. In both files. *)
Theorem capacity_invariant (mx : pyobj) ops
    (c0 : Main.LRUCache K V) (d0 : DllLruCache.LRUCache K V) :
  Main.__init__ mx = Ok c0 →
  DllLruCache.__init__ mx = Ok d0 →
  ∃ cap,
    int_value (Main.max_size (Main.state_after ops c0)) = Some cap ∧
    int_value (DllLruCache.max_size (DllLruCache.state_after ops d0)) = Some cap ∧
    (0 ≤ Z.of_nat (Main.len (Main.state_after ops c0)) ≤ cap)%Z ∧
    (0 ≤ Z.of_nat (DllLruCache.len (DllLruCache.state_after ops d0)) ≤ cap)%Z.
Proof.
  intros Hc Hd.
  apply main_init_inv in Hc as [(cap & Hcap & Hpos) ->].
  apply dll_init_inv in Hd as [_ ->].
  assert (Hm0 : main_inv mx (Main.mkLRUCache (K:=K) (V:=V) mx [])).
  { split; [done|]. split; [|apply NoDup_nil_2].
    exists cap. unfold Main.len. simpl. split; [done|]. split; [done|lia]. }
  assert (Hd0 : dll_inv mx (DllLruCache.mkLRUCache (K:=K) (V:=V) mx ∅ DllLruCache.new_DLList)).
  { split; [done|]. exists cap, [], []. split; [done|]. split; [done|].
    split; [apply dll_abs_init|]. simpl. lia. }
  destruct (main_run_inv mx ops _ Hm0) as (Hmx & (cap1 & Hcap1 & Hpos1 & Hlen1) & _).
  destruct (dll_run_inv mx ops _ Hd0) as (Hdmx & cap2 & ls & es & Hcap2 & Hpos2 & Ha & Hlen2).
  assert (cap1 = cap) as -> by congruence.
  assert (cap2 = cap) as -> by congruence.
  exists cap.
  unfold Main.max_size, DllLruCache.max_size, DllLruCache.len.
  rewrite Hmx, Hdmx. destruct Ha as (_ & _ & -> & _).
  repeat split; try done; lia.
Qed.

(** C7. Miss purity: for a key that is not in the cache, [get(k)] raises
    [KeyNotFoundError] (Python's [KeyError]) and [get(k, d)] returns [d]; in
    both cases the cache after the call is the cache before it, and no other
    error is raised. In both files, for every state of the cache. *)
Theorem get_miss_pure (c : Main.LRUCache K V) (d : DllLruCache.LRUCache K V) k :
  Main.cached c k = None →
  DllLruCache._dict d !! k = None →
  Main.get k None c = (Raise KeyNotFoundError, c) ∧
  (∀ x, Main.get k (Some x) c = (Ok x, c)) ∧
  DllLruCache.get k None d = (Raise KeyNotFoundError, d) ∧
  (∀ x, DllLruCache.get k (Some x) d = (Ok x, d)).
Proof.
  unfold Main.cached. intros Hc Hd.
  split; [by rewrite main_get_unfold, Hc|].
  split; [intros x; by rewrite main_get_unfold, Hc|].
  split; [by rewrite (get_miss _ _ None Hd)|].
  intros x. by rewrite (get_miss _ _ (Some x) Hd).
Qed.

(** C8. Construction fails with [InvalidCapacityError] ([TypeError] or
    [ValueError]) exactly when the argument is not a positive integer; a
    failed construction yields no cache; a successful one yields a cache
    whose capacity is the argument, and no sequence of calls changes it. In
    both files. *)
Theorem constructor_capacity (mx : pyobj) :
  ((∃ e, Main.__init__ (K:=K) (V:=V) mx = Raise e ∧ InvalidCapacityError e)
     ↔ ¬ positive_integer mx) ∧
  ((∃ e, DllLruCache.__init__ (K:=K) (V:=V) mx = Raise e ∧ InvalidCapacityError e)
     ↔ ¬ positive_integer mx) ∧
  (¬ positive_integer mx →
     (∀ c : Main.LRUCache K V, Main.__init__ mx ≠ Ok c) ∧
     (∀ d : DllLruCache.LRUCache K V, DllLruCache.__init__ mx ≠ Ok d)) ∧
  (∀ (c0 : Main.LRUCache K V) ops,
     Main.__init__ mx = Ok c0 →
     Main.max_size c0 = mx ∧ Main.max_size (Main.state_after ops c0) = mx) ∧
  (∀ (d0 : DllLruCache.LRUCache K V) ops,
     DllLruCache.__init__ mx = Ok d0 →
     DllLruCache.max_size d0 = mx ∧
     DllLruCache.max_size (DllLruCache.state_after ops d0) = mx).
Proof.
  assert (Hm : ∀ c : Main.LRUCache K V, Main.__init__ mx = Ok c → positive_integer mx).
  { intros c Hc. by apply main_init_inv in Hc as [? _]. }
  assert (Hd : ∀ d : DllLruCache.LRUCache K V,
             DllLruCache.__init__ mx = Ok d → positive_integer mx).
  { intros d Hd. by apply dll_init_inv in Hd as [? _]. }
  assert (Hme : ¬ positive_integer mx →
            ∃ e, Main.__init__ (K:=K) (V:=V) mx = Raise e ∧ InvalidCapacityError e).
  { intros Hn. unfold Main.__init__, InvalidCapacityError.
    destruct mx as [z|[]| | |]; simpl; eauto.
    - destruct (Z.leb_spec z 0); [eauto|].
      exfalso. apply Hn. exists z. split; [done|lia].
    - exfalso. apply Hn. exists 1%Z. split; [done|lia]. }
  assert (Hde : ¬ positive_integer mx →
            ∃ e, DllLruCache.__init__ (K:=K) (V:=V) mx = Raise e ∧ InvalidCapacityError e).
  { intros Hn. unfold DllLruCache.__init__, InvalidCapacityError.
    destruct mx as [z|[]| | |]; simpl; eauto.
    - destruct (Z.leb_spec z 0); [eauto|].
      exfalso. apply Hn. exists z. split; [done|lia].
    - exfalso. apply Hn. exists 1%Z. split; [done|lia]. }
  split; [|split; [|split; [|split]]].
  - split; [|done]. intros (e & He & _) Hp.
    assert (Main.__init__ (K:=K) (V:=V) mx = Ok (Main.mkLRUCache mx [])) as Hok
      by (by apply main_init_inv).
    congruence.
  - split; [|done]. intros (e & He & _) Hp.
    assert (DllLruCache.__init__ (K:=K) (V:=V) mx
            = Ok (DllLruCache.mkLRUCache mx ∅ DllLruCache.new_DLList)) as Hok
      by (by apply dll_init_inv).
    congruence.
  - intros Hn. split; intros c Hc; apply Hn; eauto.
  - intros c0 ops Hc. apply main_init_inv in Hc as [(cap & Hcap & Hpos) ->].
    split; [done|]. eapply main_run_inv. split; [done|]. split; [|apply NoDup_nil_2].
    exists cap. unfold Main.len. simpl. split; [done|]. split; [done|lia].
  - intros d0 ops Hc. apply dll_init_inv in Hc as [(cap & Hcap & Hpos) ->].
    split; [done|]. eapply dll_run_inv. split; [done|].
    exists cap, [], []. split; [done|]. split; [done|].
    split; [apply dll_abs_init|]. simpl. lia.
Qed.

(** C10. A hit with a default: for a key that is in the cache, [get(k, d)]
    does what [get(k)] does: it returns the cached value, not [d], and makes
    [k] the most recently used key. In both files. *)
Theorem get_hit_ignores_default
    (c : Main.LRUCache K V) (d : DllLruCache.LRUCache K V) k v w dflt :
  main_reachable c →
  dll_reachable d →
  Main.cached c k = Some v →
  DllLruCache.cached d k = Some w →
  Main.get k (Some dflt) c = Main.get k None c ∧
  (Main.get k (Some dflt) c).1 = Ok v ∧
  head (Main.recency (Main.get k (Some dflt) c).2) = Some k ∧
  DllLruCache.get k (Some dflt) d = DllLruCache.get k None d ∧
  (DllLruCache.get k (Some dflt) d).1 = Ok w ∧
  head (DllLruCache.recency (DllLruCache.get k (Some dflt) d).2) = Some k.
Proof.
  intros Hc Hd Hcv Hdw. unfold Main.cached in Hcv.
  apply main_reachable_inv in Hc as (mx & _ & _ & Hnd).
  apply dll_reachable_inv in Hd as (mx' & _ & cap & ls & es & _ & _ & Ha & _).
  rewrite !main_get_unfold, Hcv. split; [done|]. split; [done|]. split.
  { simpl. unfold Main.recency, Main.keys. simpl.
    rewrite od_set_absent by (by apply od_remove_not_elem).
    by rewrite fmap_app, reverse_app. }
  unfold DllLruCache.cached in Hdw.
  destruct (DllLruCache._dict d !! k) as [a|] eqn:Hk; [|done]. simpl in Hdw.
  destruct (get_hit _ _ _ _ _ (Some dflt) Ha Hk) as (i & v1 & l1 & Hi & He & Hg1 & Ha1).
  destruct (get_hit _ _ _ _ _ None Ha Hk) as (i' & v2 & l2 & Hi' & He' & Hg2 & Ha2).
  destruct (dll_abs_hit _ _ _ _ _ Ha Hk) as (j & v3 & Hj & Hej & Hit & _).
  unfold DllLruCache.item_at in Hit.
  destruct (DllLruCache.nodes (DllLruCache._dllist d) !! a) as [n|]; [|done].
  simpl in *. simplify_eq.
  pose proof Ha as ((Hndl & _) & _).
  assert (i = j) as -> by (by eapply NoDup_lookup).
  assert (i' = j) as -> by (by eapply NoDup_lookup).
  simplify_eq.
  split.
  { rewrite Hg1, Hg2. f_equal.
    unfold DllLruCache.get in Hg1, Hg2. rewrite bind_run in Hg1, Hg2.
    unfold read at 1 in Hg1. unfold read at 1 in Hg2. rewrite Hk in Hg1, Hg2.
    congruence. }
  rewrite Hg1. split; [done|]. simpl.
  unfold DllLruCache.recency. by rewrite (dll_abs_entries _ _ _ Ha1).
Qed.

End both_caches.

(** ** The doubly-linked-list cache *)
Section dll_cache.
Context {K V : Type} `{Countable K}.
Import DllLruCache.
Implicit Types (c : LRUCache K V) (l : _DLList K V) (k : K) (v : V) (ops : list (op K V)).

Lemma dll_abs_consistent c ls es : dll_abs c ls es → consistent c.
Proof.
  intros Ha. pose proof Ha as (Hr & Hh & Hsz & Hd).
  unfold consistent, recency.
  rewrite (dll_abs_entries _ _ _ Ha), (to_list_repr _ _ Hr).
  split; [by eapply dll_abs_NoDup|].
  split; [by rewrite length_fmap, (dll_abs_length _ _ _ Ha)|].
  split; [|intros k a; apply Hd].
  apply set_eq. intros k. rewrite elem_of_dom, elem_of_list_to_set. split.
  - intros [a Hk]. destruct (dll_abs_hit _ _ _ _ _ Ha Hk) as (i & v & _ & He & _).
    apply list_elem_of_fmap. exists (k, v). split; [done|].
    by eapply list_elem_of_lookup_2.
  - intros Hin. destruct (_dict c !! k) as [a|] eqn:Hk; [eauto|].
    apply (dll_abs_miss _ _ _ _ Ha) in Hk. by apply od_get_None in Hk.
Qed.

Lemma spec_step_outcome cap (o : op K V) es e :
  (Spec.step cap o es).1 = Raise e →
  e = KeyError ∧ ∃ k, o = Get k None ∧ od_get k es = None.
Proof.
  destruct o as [k dflt|k v]; unfold Spec.step, Spec.get, Spec.put.
  - destruct (od_get k es) eqn:E; [done|]. destruct dflt; [done|].
    simpl. intros [= <-]. eauto.
  - by destruct (od_get k es).
Qed.

(** C6. Consistency: in every reachable state of the doubly-linked-list
    cache, the keys of the dict are the keys held by the nodes of the list,
    without duplicates, and the dict sends each key to the very node that
    holds it; every [get] and [put] keeps it so. *)
Theorem index_list_consistent c (o : op K V) :
  dll_reachable c →
  consistent c ∧ consistent (step o c).2.
Proof.
  intros Hc. pose proof (dll_reachable_step _ o Hc) as Hc'.
  apply dll_reachable_inv in Hc as (mx & _ & cap & ls & es & _ & _ & Ha & _).
  apply dll_reachable_inv in Hc' as (mx' & _ & cap' & ls' & es' & _ & _ & Ha' & _).
  split; by eapply dll_abs_consistent.
Qed.

(** C9. [pop_back] and [pop_front] raise [EmptyError] (the code's
    [IsEmptyError]) exactly when the list has no node, and no [get] or [put]
    of a reachable cache can meet that error: when [put] pops, the cache is
    full, so the list is not empty and the pop succeeds; the only error a
    call can raise is the [KeyError] of a miss without default. *)
Theorem pop_empty_error_unreachable l (ls : list nat) c (o : op K V) :
  dll_repr l ls →
  dll_reachable c →
  ((pop_back l).1 = Raise EmptyError ↔ to_list l = []) ∧
  ((pop_front l).1 = Raise EmptyError ↔ to_list l = []) ∧
  ((full c).1 = Ok true →
     to_list (_dllist c) ≠ [] ∧ ∃ a, (pop_back (_dllist c)).1 = Ok a) ∧
  (step o c).1 ≠ Raise EmptyError ∧
  (∀ e, (step o c).1 = Raise e → e = KeyError ∧ ∃ k, o = Get k None ∧ _dict c !! k = None).
Proof.
  intros Hr Hc. rewrite (to_list_repr _ _ Hr).
  apply dll_reachable_inv in Hc as (mx & Hmx & cap & cls & es & Hcap & Hpos & Ha & Hlen).
  split; [|split; [|split]].
  - destruct (last ls) as [a|] eqn:Hlast.
    + destruct (pop_back_spec _ _ _ Hr Hlast) as (l' & -> & _). simpl.
      split; [done|]. by intros ->.
    + apply last_None in Hlast as ->. by rewrite pop_back_empty.
  - destruct (head ls) as [a|] eqn:Hhead.
    + destruct (pop_front_spec _ _ _ Hr Hhead) as (l' & -> & _). simpl.
      split; [done|]. by intros ->.
    + apply head_None in Hhead as ->. by rewrite pop_front_empty.
  - pose proof Ha as (Hcr & _ & Hsz & _). rewrite <-Hmx in Hcap.
    rewrite (full_run _ _ Hcap), (to_list_repr _ _ Hcr). simpl. intros [= Hfull].
    apply Z.leb_le in Hfull. rewrite Hsz in Hfull.
    assert (Hne : cls ≠ []) by (intros ->; simpl in *; lia).
    split; [done|]. apply last_is_Some in Hne as [a Hlast].
    destruct (pop_back_spec _ _ _ Hcr Hlast) as (l' & -> & _). eauto.
  - rewrite <-Hmx in Hcap.
    destruct (dll_step_refines _ _ _ _ o Ha Hcap Hpos Hlen) as (ls' & Hout & _).
    rewrite Hout. split.
    + intros He. by apply spec_step_outcome in He as [? _].
    + intros e He. apply spec_step_outcome in He as (-> & k & -> & Hget).
      split; [done|]. exists k. split; [done|].
      destruct (_dict c !! k) as [a|] eqn:Hk; [|done].
      destruct (dll_abs_hit _ _ _ _ _ Ha Hk) as (i & v & _ & _ & _ & Hget').
      congruence.
Qed.

(** *** The doubly-linked-list cache is the cache of the specification *)

(** Refinement: for every accepted capacity and every sequence of calls, the
    outcomes of the calls and the entries left in the cache, in recency
    order, are those of the specification's cache. *)
Theorem dll_refines_spec (mx : pyobj) ops (d0 : LRUCache K V) :
  __init__ mx = Ok d0 →
  ∃ cap, int_value mx = Some cap ∧
         outcomes ops d0 = (Spec.run cap ops []).1 ∧
         entries (state_after ops d0) = (Spec.run cap ops []).2.
Proof.
  intros Hd. apply dll_init_inv in Hd as [(cap & Hcap & Hpos) ->].
  exists cap. split; [done|].
  destruct (dll_run_refines (mkLRUCache mx ∅ new_DLList) [] [] cap ops)
    as (ls & Hout & Ha & _); [apply dll_abs_init|done|done|simpl; lia|].
  split; [done|]. by eapply dll_abs_entries.
Qed.

(** A reachable cache with the history of calls that led to it. *)
Lemma dll_history_inv (mx : pyobj) ops (d0 : LRUCache K V) :
  __init__ mx = Ok d0 →
  ∃ cap ls es,
    int_value (_max_size (state_after ops d0)) = Some cap ∧ (0 < cap)%Z ∧
    dll_abs (state_after ops d0) ls es ∧ (Z.of_nat (length ls) ≤ cap)%Z ∧
    spec_inv cap ops es.
Proof.
  intros Hd. apply dll_init_inv in Hd as [(cap & Hcap & Hpos) ->].
  destruct (dll_run_refines (mkLRUCache mx ∅ new_DLList) [] [] cap ops)
    as (ls & Hout & Ha & Hmx & Hlen); [apply dll_abs_init|done|done|simpl; lia|].
  exists cap, ls, (Spec.run cap ops []).2. rewrite Hmx.
  split; [done|]. split; [done|]. split; [done|]. split; [done|].
  by apply spec_run_inv.
Qed.

(** [put] of a key that is in the cache: the value is replaced, the key
    becomes the most recently used one, the other entries keep their order,
    the dict keeps its keys (nothing is evicted) and the number of entries
    stays, whether the cache is full or not. *)
Theorem dll_put_present c k v v0 :
  dll_reachable c →
  cached c k = Some v0 →
  (put k v c).1 = Ok () ∧
  entries (put k v c).2 = (k, v) :: od_remove k (entries c) ∧
  cached (put k v c).2 k = Some v ∧
  _dict (put k v c).2 = _dict c ∧
  len (put k v c).2 = len c.
Proof.
  intros Hc Hv. apply dll_reachable_inv in Hc as (mx & _ & cap & ls & es & _ & _ & Ha & _).
  unfold cached in Hv. destruct (_dict c !! k) as [a|] eqn:Hk; [|done].
  destruct (put_hit _ _ _ _ _ v Ha Hk) as (i & v1 & l' & Hi & He & Hput & Ha').
  rewrite Hput. simpl. split; [done|]. split; [|split; [|done]].
  - rewrite (dll_abs_entries _ _ _ Ha'), (dll_abs_entries _ _ _ Ha).
    f_equal. symmetry. eapply od_remove_delete; [|done]. by eapply dll_abs_NoDup.
  - assert (Hk' : _dict (set_dllist l' c) !! k = Some a) by done.
    destruct (dll_abs_hit _ _ _ _ _ Ha' Hk') as (j & v2 & Hj & Hej & Hit & _).
    unfold cached. rewrite Hk'. simpl. unfold item_at in Hit. simpl in Hit.
    destruct (nodes l' !! a) as [n|]; [|done]. simpl in *.
    pose proof Ha' as ((Hnd & _) & _).
    assert (j = 0) as -> by (by eapply (NoDup_lookup _ j 0 a Hnd)).
    simpl in Hej. by simplify_eq.
Qed.

(** Eviction: [put] of a key that is not in the cache, into a full cache,
    removes exactly one entry, the one at the back of the list, and its key
    is the least recently accessed of the keys in the cache: every other key
    was accessed later, in the history [ops] of the calls made since
    construction. *)
Theorem dll_put_full_evicts_lru (mx : pyobj) ops (d0 : LRUCache K V) k v :
  __init__ mx = Ok d0 →
  _dict (state_after ops d0) !! k = None →
  (full (state_after ops d0)).1 = Ok true →
  let c := state_after ops d0 in
  let c' := (put k v c).2 in
  ∃ victim,
    last (recency c) = Some victim ∧
    (put k v c).1 = Ok () ∧
    recency c' = k :: removelast (recency c) ∧
    dom (_dict c') = {[k]} ∪ (dom (_dict c) ∖ {[victim]}) ∧
    victim ∈ dom (_dict c) ∧
    len c' = len c ∧
    ∀ k', k' ∈ dom (_dict c) → k' ≠ victim → accessed_before ops victim k'.
Proof.
  intros Hd Hk Hfull c c'. subst c c'.
  destruct (dll_history_inv mx ops d0 Hd) as (cap & ls & es & Hcap & Hpos & Ha & Hlen & Hs).
  set (c := state_after ops d0) in *.
  destruct (put_miss _ _ _ _ v _ Ha Hk Hcap Hpos Hlen) as (c' & ls' & Hput & _ & Ha' & _).
  rewrite Hput. simpl.
  rewrite (full_run _ _ Hcap) in Hfull. simpl in Hfull. injection Hfull as Hfull.
  apply Z.leb_le in Hfull. pose proof Ha as (_ & _ & Hsz & _). rewrite Hsz in Hfull.
  assert (Hisfull : Spec.is_full cap es = true).
  { unfold Spec.is_full. rewrite (dll_abs_length _ _ _ Ha).
    apply bool_decide_eq_true_2. lia. }
  rewrite Hisfull in Ha'.
  assert (Hne : es ≠ []).
  { intros ->. pose proof (dll_abs_length _ _ _ Ha) as Hl. simpl in Hl. lia. }
  apply last_is_Some in Hne as [[victim vv] Hlast].
  pose proof (dll_abs_consistent _ _ _ Ha) as (Hnd & _ & Hdom & _).
  pose proof (dll_abs_consistent _ _ _ Ha') as (_ & _ & Hdom' & _).
  unfold recency in *.
  rewrite (dll_abs_entries _ _ _ Ha) in *. rewrite (dll_abs_entries _ _ _ Ha') in *.
  assert (Hsplit : es.*1 = removelast es.*1 ++ [victim]).
  { apply last_Some in Hlast as [es0 ->].
    rewrite fmap_app. simpl. by rewrite removelast_last. }
  assert (Hrl : (removelast es).*1 = removelast es.*1).
  { by rewrite !removelast_delete, list_fmap_delete, length_fmap. }
  exists victim. split; [by rewrite fmap_last, Hlast|]. split; [done|].
  split; [csimpl; by rewrite Hrl|].
  assert (Hvni : victim ∉ removelast es.*1).
  { rewrite Hsplit in Hnd. apply NoDup_app in Hnd as (_ & Hdisj & _).
    intros Hin. apply (Hdisj _ Hin). apply list_elem_of_here. }
  split; [|split; [|split]].
  - rewrite Hdom', Hdom. csimpl. rewrite Hrl. rewrite Hsplit at 2.
    rewrite list_to_set_app_L. simpl.
    apply set_eq. intros x.
    rewrite !elem_of_union, elem_of_difference, elem_of_union, !elem_of_singleton.
    rewrite elem_of_list_to_set. split.
    + intros [->|Hin]; [by left|]. right. split; [by left|]. by intros ->.
    + intros [->|[[Hin|Hin] Hne]]; [by left|by right|].
      apply elem_of_union in Hin as [Hin%elem_of_singleton|Hin%elem_of_empty]; done.
  - rewrite Hdom, elem_of_list_to_set, Hsplit. apply elem_of_app. right.
    apply list_elem_of_here.
  - unfold len. pose proof Ha' as (_ & Hh' & -> & _). rewrite Hsz.
    rewrite (Forall2_length _ _ _ Hh'). simpl. rewrite removelast_delete.
    pose proof (dll_abs_length _ _ _ Ha).
    destruct es as [|e es0]; [done|].
    rewrite length_delete; [simpl in *; lia|].
    apply lookup_lt_is_Some. simpl. lia.
  - intros k' Hin Hne. rewrite Hdom, elem_of_list_to_set in Hin.
    by eapply spec_back_is_lru.
Qed.

(** Recency: the key of a hit or of a [put] is the most recently used one
    after the call, and stays so as long as the calls are about this key. *)
Theorem dll_touched_key_is_mru c k v dflt ops :
  dll_reachable c →
  (is_Some (_dict c !! k) → head (recency (get k dflt c).2) = Some k) ∧
  head (recency (put k v c).2) = Some k ∧
  (head (recency c) = Some k → Forall (λ o, op_key o = k) ops →
     head (recency (state_after ops c)) = Some k).
Proof.
  intros Hc. split; [|split].
  - apply dll_reachable_inv in Hc as (mx & _ & cap & ls & es & _ & _ & Ha & _).
    intros [a Hk].
    destruct (get_hit _ _ _ _ _ dflt Ha Hk) as (i & v1 & l' & _ & _ & -> & Ha').
    simpl. unfold recency. by rewrite (dll_abs_entries _ _ _ Ha').
  - apply dll_reachable_inv in Hc as (mx & Hmx & cap & ls & es & Hcap & Hpos & Ha & Hlen).
    rewrite <-Hmx in Hcap.
    destruct (dll_step_refines _ _ _ _ (Put k v) Ha Hcap Hpos Hlen) as (ls' & _ & Ha' & _).
    unfold step in Ha'. rewrite bind_run in Ha'.
    destruct (put k v c) as [[[]|e] c']; simpl in *;
      unfold recency; rewrite (dll_abs_entries _ _ _ Ha');
      unfold Spec.put; by destruct (od_get k es).
  - revert c Hc. induction ops as [|o ops IH]; intros c Hc Hhead Hall; [done|].
    apply Forall_cons in Hall as [Hko Hall].
    rewrite dll_state_after_cons. apply IH; [by apply dll_reachable_step| |done].
    apply dll_reachable_inv in Hc as (mx & Hmx & cap & ls & es & Hcap & Hpos & Ha & Hlen).
    rewrite <-Hmx in Hcap.
    destruct (dll_step_refines _ _ _ _ o Ha Hcap Hpos Hlen) as (ls' & _ & Ha' & _).
    unfold recency in *. rewrite (dll_abs_entries _ _ _ Ha').
    rewrite (dll_abs_entries _ _ _ Ha) in Hhead.
    destruct o as [k' dflt'|k' v']; simpl in Hko; subst k';
      unfold Spec.step, Spec.get, Spec.put.
    + destruct (od_get k es); [done|]. by destruct dflt'.
    + by destruct (od_get k es).
Qed.

(** The list of a reachable cache: walking [_prv] from the back finds the
    nodes that walking [_nxt] from the front finds, in reverse; there are as
    many nodes as the dict has keys; [empty] says whether there is none. *)
Theorem dll_list_well_formed c :
  dll_reachable c →
  to_list_back (_dllist c) = reverse (to_list (_dllist c)) ∧
  length (to_list (_dllist c)) = len c ∧
  empty (_dllist c) = (Ok (bool_decide (len c = 0)), _dllist c).
Proof.
  intros (mx & _ & cap & ls & es & _ & _ & (Hr & _ & Hsz & _) & _)%dll_reachable_inv.
  rewrite (to_list_repr _ _ Hr), (to_list_back_repr _ _ Hr). unfold len.
  split; [done|]. split; [done|].
  destruct Hr as (_ & _ & Hb & _). unfold empty. rewrite bind_run. unfold read.
  rewrite Hb, Hsz. destruct ls as [|a ls] using rev_ind; [done|].
  rewrite last_snoc, length_app. simpl. rewrite bool_decide_eq_false_2 by lia. done.
Qed.

End dll_cache.

(** ** Where the two files agree *)
Section agreement.
Context {K V : Type} `{Countable K}.
Implicit Types (k : K) (v : V) (ops : list (op K V)).

(** As long as no [put] is on a key that is in the cache, [main.py] is the
    cache of the specification too: the outcomes are the same, and the dict
    read from its last key to its first holds the entries in recency
    order. *)
Theorem main_refines_spec_when_puts_insert (mx : pyobj) (cap : Z) ops
    (c0 : Main.LRUCache K V) :
  Main.__init__ mx = Ok c0 →
  int_value mx = Some cap →
  puts_only_insert cap ops [] →
  Main.outcomes ops c0 = (Spec.run cap ops []).1 ∧
  reverse (Main._dict (Main.state_after ops c0)) = (Spec.run cap ops []).2.
Proof.
  intros Hc Hcap Hnew. apply main_init_inv in Hc as [(cap' & Hcap' & Hpos) ->].
  assert (cap' = cap) as -> by congruence.
  apply (main_run_refines mx cap ops (Main.mkLRUCache mx [])); [|done..].
  split; [done|]. split; [|apply NoDup_nil_2].
  exists cap. unfold Main.len. simpl. split; [done|]. split; [done|lia].
Qed.

(** On such histories the two files return the same values, raise at the
    same calls and hold the same entries in the same recency order. *)
Theorem main_agrees_with_dll_when_puts_insert (mx : pyobj) (cap : Z) ops
    (c0 : Main.LRUCache K V) (d0 : DllLruCache.LRUCache K V) :
  Main.__init__ mx = Ok c0 →
  DllLruCache.__init__ mx = Ok d0 →
  int_value mx = Some cap →
  puts_only_insert cap ops [] →
  Main.outcomes ops c0 = DllLruCache.outcomes ops d0 ∧
  reverse (Main._dict (Main.state_after ops c0))
    = DllLruCache.entries (DllLruCache.state_after ops d0).
Proof.
  intros Hc Hd Hcap Hnew.
  apply main_init_inv in Hc as [(cap' & Hcap' & Hpos) ->].
  apply dll_init_inv in Hd as [_ ->].
  assert (cap' = cap) as -> by congruence.
  destruct (main_run_refines mx cap ops (Main.mkLRUCache mx [])) as [Ho Hs]; [|done..|].
  { split; [done|]. split; [|apply NoDup_nil_2].
    exists cap. unfold Main.len. simpl. split; [done|]. split; [done|lia]. }
  destruct (dll_run_refines (DllLruCache.mkLRUCache mx ∅ DllLruCache.new_DLList)
              [] [] cap ops) as (ls & Ho' & Ha & _);
    [apply dll_abs_init|done|done|simpl; lia|].
  simpl in *. split; [by rewrite Ho, Ho'|].
  rewrite Hs. symmetry. by eapply dll_abs_entries.
Qed.

End agreement.

(** ** The links of a node *)
Section node_api.
Context {K V : Type}.
Import DllLruCache.
Implicit Types (h : gmap nat (_DLListNode K V)) (n m : _DLListNode K V).

(** The docstring of [_DLListNode.eject], [prev <-> self <-> next] becomes
    [prev <----------> next]: the neighbours of the node are linked to each
    other (a neighbour the node does not have is [None] on the other side),
    the node itself is left linked to nothing, no other node and no item
    changes, and a second [eject] changes nothing. *)
Theorem node_eject_sews h self n :
  h !! self = Some n →
  (∀ p, _prv n = Some p → p ≠ self ∧ is_Some (h !! p)) →
  (∀ x, _nxt n = Some x → x ≠ self ∧ is_Some (h !! x)) →
  ∃ h', node_eject self h = (Ok self, h') ∧
        h' !! self = Some (mk_DLListNode (data n) None None) ∧
        (∀ p, _prv n = Some p → _nxt <$> h' !! p = Some (_nxt n)) ∧
        (∀ x, _nxt n = Some x → _prv <$> h' !! x = Some (_prv n)) ∧
        (∀ y, y ≠ self → _prv n ≠ Some y → _nxt n ≠ Some y → h' !! y = h !! y) ∧
        same_data h h' ∧
        node_eject self h' = (Ok self, h').
Proof.
  intros Hself Hp Hx.
  destruct (node_eject_spec _ _ _ Hself Hp Hx) as (h' & Hej & Hh').
  exists h'. split; [done|].
  assert (Hself' : h' !! self = Some (mk_DLListNode (data n) None None)).
  { rewrite Hh', Hself. simpl. unfold ejected. by rewrite decide_True. }
  split; [done|]. split; [|split; [|split; [|split]]].
  - intros p Hnp. destruct (Hp p Hnp) as [Hne [m Hm]].
    rewrite Hh', Hm. simpl. unfold ejected. rewrite decide_False by done. simpl.
    by rewrite (decide_True (P:=_prv n = Some p)).
  - intros x Hnx. destruct (Hx x Hnx) as [Hne [m Hm]].
    rewrite Hh', Hm. simpl. unfold ejected. rewrite decide_False by done. simpl.
    by rewrite (decide_True (P:=_nxt n = Some x)).
  - intros y Hys Hyp Hyx. rewrite Hh'. destruct (h !! y) as [[dm pm xm]|]; [|done].
    simpl. unfold ejected. rewrite decide_False by done. simpl.
    by rewrite !decide_False.
  - intros y. rewrite Hh', <-option_fmap_compose.
    apply option_fmap_ext. intros m. simpl. apply ejected_data.
  - destruct (node_eject_spec h' self _ Hself') as (h'' & Hej' & Hh''); [done..|].
    rewrite Hej'. f_equal. apply map_eq. intros y. rewrite Hh''.
    destruct (h' !! y) as [[dm pm xm]|] eqn:Hy; [|done]. simpl. f_equal.
    unfold ejected. simpl. destruct (decide (y = self)) as [->|Hne]; [|done].
    rewrite Hself' in Hy. by simplify_eq.
Qed.

(** [eject] undoes [insert_between]: a detached node that is put between
    two neighbouring nodes (or before the first, or after the last) and then
    ejected leaves every node as it was. *)
Theorem node_insert_then_eject h self n prv nxt :
  h !! self = Some n → detached n →
  (∀ p, prv = Some p → p ≠ self ∧ ∃ m, h !! p = Some m ∧ _nxt m = nxt) →
  (∀ x, nxt = Some x → x ≠ self ∧ ∃ m, h !! x = Some m ∧ _prv m = prv) →
  (node_insert_between self prv nxt;; node_eject self) h = (Ok self, h).
Proof.
  intros Hself [Hdp Hdx] Hp Hx.
  destruct (node_insert_between_spec h self n prv nxt Hself) as (h1 & Hins & Hh1).
  { intros p Hpp. destruct (Hp p Hpp) as [? (m & -> & _)]. eauto. }
  { intros x Hxx. destruct (Hx x Hxx) as [? (m & -> & _)]. eauto. }
  rewrite (bind_ok _ _ _ _ _ Hins).
  assert (Hn1 : h1 !! self = Some (mk_DLListNode (data n) prv nxt)).
  { rewrite Hh1, Hself. simpl. unfold inserted. by rewrite decide_True. }
  destruct (node_eject_spec h1 self _ Hn1) as (h2 & Hej & Hh2).
  { simpl. intros p Hpp. destruct (Hp p Hpp) as [? (m & Hm & _)].
    split; [done|]. rewrite Hh1, Hm. eauto. }
  { simpl. intros x Hxx. destruct (Hx x Hxx) as [? (m & Hm & _)].
    split; [done|]. rewrite Hh1, Hm. eauto. }
  rewrite Hej. f_equal. apply map_eq. intros y. rewrite Hh2, Hh1.
  destruct (h !! y) as [m|] eqn:Hy; [|done]. simpl. f_equal.
  unfold ejected, inserted. simpl.
  destruct (decide (y = self)) as [->|Hne].
  - simplify_eq. destruct n; simpl in *. by subst.
  - destruct m as [dm pm xm]. simpl. f_equal.
    + destruct (decide (nxt = Some y)) as [Hny|Hny]; [|done].
      destruct (Hx y Hny) as [_ (m' & Hm' & Hpm)]. by simplify_eq.
    + destruct (decide (prv = Some y)) as [Hpy|Hpy]; [|done].
      destruct (Hp y Hpy) as [_ (m' & Hm' & Hxm)]. by simplify_eq.
Qed.

(** [insert_between] undoes [eject]: a node whose neighbours point to it,
    ejected and put back between its old neighbours, leaves every node as it
    was. *)
Theorem node_eject_then_insert h self n :
  h !! self = Some n →
  (∀ p, _prv n = Some p → p ≠ self ∧ ∃ m, h !! p = Some m ∧ _nxt m = Some self) →
  (∀ x, _nxt n = Some x → x ≠ self ∧ ∃ m, h !! x = Some m ∧ _prv m = Some self) →
  (node_eject self;; node_insert_between self (_prv n) (_nxt n)) h = (Ok self, h).
Proof.
  intros Hself Hp Hx.
  destruct (node_eject_spec h self n Hself) as (h1 & Hej & Hh1).
  { intros p Hpp. destruct (Hp p Hpp) as [? (m & -> & _)]. eauto. }
  { intros x Hxx. destruct (Hx x Hxx) as [? (m & -> & _)]. eauto. }
  rewrite (bind_ok _ _ _ _ _ Hej).
  assert (Hn1 : h1 !! self = Some (mk_DLListNode (data n) None None)).
  { rewrite Hh1, Hself. simpl. unfold ejected. by rewrite decide_True. }
  destruct (node_insert_between_spec h1 self _ (_prv n) (_nxt n) Hn1) as (h2 & Hins & Hh2).
  { intros p Hpp. destruct (Hp p Hpp) as [? (m & Hm & _)].
    split; [done|]. rewrite Hh1, Hm. eauto. }
  { intros x Hxx. destruct (Hx x Hxx) as [? (m & Hm & _)].
    split; [done|]. rewrite Hh1, Hm. eauto. }
  rewrite Hins. f_equal. apply map_eq. intros y. rewrite Hh2, Hh1.
  destruct (h !! y) as [m|] eqn:Hy; [|done]. simpl. f_equal.
  unfold ejected, inserted. simpl.
  destruct (decide (y = self)) as [->|Hne].
  - simplify_eq. by destruct n.
  - destruct m as [dm pm xm]. simpl. f_equal.
    + destruct (decide (_nxt n = Some y)) as [Hny|Hny]; [|done].
      destruct (Hx y Hny) as [_ (m' & Hm' & Hpm)]. by simplify_eq.
    + destruct (decide (_prv n = Some y)) as [Hpy|Hpy]; [|done].
      destruct (Hp y Hpy) as [_ (m' & Hm' & Hxm)]. by simplify_eq.
Qed.

End node_api.

(** ** The list as a deque *)
Section list_api.
Context {K V : Type}.
Import DllLruCache.
Implicit Types (l : _DLList K V) (n m : _DLListNode K V) (ls : list nat).
Implicit Types (h : gmap nat (_DLListNode K V)).

(** The reads of a well-formed list: [empty] holds exactly when the list has
    no node, [front] and [back] are the first and the last node, [_front] is
    [None] exactly when [_back] is (the test that [empty], [pop_front] and
    [pop_back] leave in a comment), the nodes are distinct, and walking
    [_prv] from the back finds the nodes of the walk along [_nxt] from the
    front, in reverse. None of the reads changes the list. *)
Theorem list_ends_agree l :
  well_formed l →
  empty l = (Ok (bool_decide (to_list l = [])), l) ∧
  front l = (Ok (head (to_list l)), l) ∧
  back l = (Ok (last (to_list l)), l) ∧
  (_front l = None ↔ _back l = None) ∧
  NoDup (to_list l) ∧
  to_list_back l = reverse (to_list l).
Proof.
  intros Hr. pose proof Hr as (Hnd & Hf & Hb & _).
  split; [|split; [|split; [|split; [|split]]]].
  - unfold empty. rewrite bind_run. unfold read. rewrite Hb.
    destruct (last (to_list l)) as [a|] eqn:Hlast; simpl.
    + rewrite bool_decide_eq_false_2; [done|]. intros Hnil. by rewrite Hnil in Hlast.
    + apply last_None in Hlast. by rewrite bool_decide_eq_true_2.
  - unfold front, read. by rewrite Hf.
  - unfold back, read. by rewrite Hb.
  - rewrite Hf, Hb. rewrite last_None. by destruct (to_list l).
  - done.
  - by apply to_list_back_repr.
Qed.

(** [push_front] puts a node that is not in the list before the others:
    the call succeeds, the list stays well formed, and no item is touched. *)
Theorem push_front_prepends l a n0 :
  well_formed l → a ∉ to_list l → nodes l !! a = Some n0 →
  ∃ l', push_front a l = (Ok (), l') ∧
        well_formed l' ∧
        to_list l' = a :: to_list l ∧
        same_data (nodes l) (nodes l').
Proof.
  intros Hr Hni Ha.
  destruct (push_front_spec _ _ _ _ Hr Hni Ha) as (l' & Hrun & Hr' & Hsd).
  exists l'. split; [done|]. split; [by eapply well_formed_repr|].
  split; [by apply to_list_repr|done].
Qed.

(** [push_back] puts a node that is not in the list after the others. *)
Theorem push_back_appends l a n0 :
  well_formed l → a ∉ to_list l → nodes l !! a = Some n0 →
  ∃ l', push_back a l = (Ok (), l') ∧
        well_formed l' ∧
        to_list l' = to_list l ++ [a] ∧
        same_data (nodes l) (nodes l').
Proof.
  intros Hr Hni Ha.
  destruct (push_back_spec _ _ _ _ Hr Hni Ha) as (l' & Hrun & Hr' & Hsd).
  exists l'. split; [done|]. split; [by eapply well_formed_repr|].
  split; [by apply to_list_repr|done].
Qed.

(** [eject] takes a node of the list out of it, wherever it is: the call
    returns the node, the other nodes keep their order, the node is left
    linked to nothing, and no item is touched. *)
Theorem eject_unlinks l i a :
  well_formed l → to_list l !! i = Some a →
  ∃ l' n, eject a l = (Ok a, l') ∧
          well_formed l' ∧
          to_list l' = delete i (to_list l) ∧
          nodes l' !! a = Some n ∧ detached n ∧
          same_data (nodes l) (nodes l').
Proof.
  intros Hr Hi.
  destruct (eject_spec _ _ _ _ Hr Hi) as (l' & Hrun & Hr' & (n & Hn & Hp & Hx) & Hsd).
  exists l', n. split; [done|]. split; [by eapply well_formed_repr|].
  split; [by apply to_list_repr|]. done.
Qed.

(** On a list that is not empty, [pop_front] returns the first node and
    [pop_back] the last one, and the list is left without it. *)
Theorem pop_returns_end l a b :
  well_formed l → head (to_list l) = Some a → last (to_list l) = Some b →
  (∃ l', pop_front l = (Ok a, l') ∧ well_formed l' ∧ to_list l' = tail (to_list l)) ∧
  (∃ l', pop_back l = (Ok b, l') ∧ well_formed l' ∧ to_list l' = removelast (to_list l)).
Proof.
  intros Hr Hhead Hlast. split.
  - destruct (pop_front_spec _ _ _ Hr Hhead) as (l' & Hrun & Hr' & _).
    exists l'. split; [done|]. split; [by eapply well_formed_repr|].
    rewrite (to_list_repr _ _ Hr'). by destruct (to_list l).
  - destruct (pop_back_spec _ _ _ Hr Hlast) as (l' & Hrun & Hr' & _).
    exists l'. split; [done|]. split; [by eapply well_formed_repr|].
    by rewrite (to_list_repr _ _ Hr'), removelast_delete.
Qed.

(** [move_to_front] makes a node of the list the first one and keeps the
    order of the others; on the first node it changes nothing, so a second
    call changes nothing. *)
Theorem move_to_front_moves l i a :
  well_formed l → to_list l !! i = Some a →
  ∃ l', move_to_front a l = (Ok a, l') ∧
        well_formed l' ∧
        to_list l' = a :: delete i (to_list l) ∧
        same_data (nodes l) (nodes l') ∧
        (i = 0 → l' = l) ∧
        move_to_front a l' = (Ok a, l').
Proof.
  intros Hr Hi.
  destruct (move_to_front_spec _ _ _ _ Hr Hi) as (l' & Hrun & Hr' & Hsd).
  exists l'. split; [done|]. split; [by eapply well_formed_repr|].
  split; [by apply to_list_repr|]. split; [done|]. split.
  - intros ->. revert Hrun. unfold move_to_front. munfold.
    rewrite bool_decide_eq_true_2; [by intros [= <-]|].
    destruct Hr as (_ & -> & _). by rewrite head_lookup.
  - unfold move_to_front. munfold. rewrite bool_decide_eq_true_2; [done|].
    by destruct Hr' as (_ & -> & _).
Qed.

(** [move_to_back] makes a node of the list the last one and keeps the order
    of the others; on the last node it changes nothing, so a second call
    changes nothing. *)
Theorem move_to_back_moves l i a :
  well_formed l → to_list l !! i = Some a →
  ∃ l', move_to_back a l = (Ok a, l') ∧
        well_formed l' ∧
        to_list l' = delete i (to_list l) ++ [a] ∧
        same_data (nodes l) (nodes l') ∧
        (i = pred (length (to_list l)) → l' = l) ∧
        move_to_back a l' = (Ok a, l').
Proof.
  intros Hr Hi.
  destruct (move_to_back_spec _ _ _ _ Hr Hi) as (l' & Hrun & Hr' & Hsd).
  exists l'. split; [done|]. split; [by eapply well_formed_repr|].
  split; [by apply to_list_repr|]. split; [done|]. split.
  - intros Hlast. revert Hrun. unfold move_to_back. munfold.
    rewrite bool_decide_eq_true_2; [by intros [= <-]|].
    destruct Hr as (_ & _ & -> & _). by rewrite last_lookup, <-Hlast.
  - unfold move_to_back. munfold. rewrite bool_decide_eq_true_2; [done|].
    destruct Hr' as (_ & _ & -> & _). by rewrite last_snoc.
Qed.

Lemma front_prv_None l ls y m :
  dll_repr l ls → head ls = Some y → nodes l !! y = Some m → _prv m = None.
Proof.
  intros Hr Hy Hm. rewrite head_lookup in Hy.
  destruct (dll_repr_node _ _ _ _ Hr Hy) as (m' & Hm' & Hp & _). by simplify_eq.
Qed.

Lemma back_nxt_None l ls y m :
  dll_repr l ls → last ls = Some y → nodes l !! y = Some m → _nxt m = None.
Proof.
  intros Hr Hy Hm. rewrite last_lookup in Hy.
  destruct (dll_repr_node _ _ _ _ Hr Hy) as (m' & Hm' & _ & Hx). simplify_eq.
  rewrite Hx. apply lookup_ge_None. apply lookup_lt_Some in Hy. lia.
Qed.

(** Pushing a detached node and popping at the same end gives the node back
    and leaves the list exactly as it was: the same ends, the same links and
    the same items, at either end. *)
Theorem push_then_pop_restores l a n0 :
  well_formed l → a ∉ to_list l → nodes l !! a = Some n0 → detached n0 →
  (push_front a;; pop_front) l = (Ok a, l) ∧
  (push_back a;; pop_back) l = (Ok a, l).
Proof.
  intros Hr Hni Ha [Hn0p Hn0x]. unfold well_formed in Hr.
  pose proof Hr as (Hnd & Hf & Hb & Hn). split.
  - destruct (push_front_run _ _ _ _ Hr Hni Ha) as (h1 & Hpf & Hh1).
    destruct (push_front_spec _ _ _ _ Hr Hni Ha) as (l1 & Hpf' & Hr1 & _).
    rewrite Hpf in Hpf'. injection Hpf' as <-.
    rewrite (bind_ok _ _ _ _ _ Hpf).
    unfold pop_front. rewrite bind_run. unfold read at 1. simpl.
    assert (Hn1 : h1 !! a = Some (mk_DLListNode (data n0) None (_front l))).
    { rewrite Hh1, Ha. simpl. unfold inserted. by rewrite decide_True. }
    destruct (eject_run _ (a :: to_list l) 0 a _ Hr1 eq_refl Hn1) as (h2 & Hej & Hh2).
    rewrite Hej. simpl. f_equal.
    rewrite bool_decide_eq_true_2 by done.
    assert (Hback : (if bool_decide ((if _back l is None then Some a else _back l) = Some a)
                     then None else if _back l is None then Some a else _back l) = _back l).
    { destruct (_back l) as [b|] eqn:Eb.
      - rewrite bool_decide_eq_false_2; [done|]. intros [= ->].
        apply Hni. apply last_Some_elem_of. by rewrite <-Hb.
      - by rewrite bool_decide_eq_true_2. }
    rewrite Hback. destruct l as [f b h]. simpl in *. f_equal.
    apply map_eq. intros y. rewrite Hh2, Hh1.
    destruct (h !! y) as [m|] eqn:Hy; [|done]. simpl. f_equal.
    unfold ejected, inserted. simpl.
    destruct (decide (y = a)) as [->|Hya].
    + simplify_eq. destruct n0; simpl in *. by subst.
    + destruct m as [dm pm xm]. simpl. f_equal.
      destruct (decide (f = Some y)) as [Hfy|Hfy]; [|done].
      symmetry. apply (front_prv_None _ _ y (mk_DLListNode dm pm xm) Hr); [|done].
      by rewrite <-Hf.
  - destruct (push_back_run _ _ _ _ Hr Hni Ha) as (h1 & Hpb & Hh1).
    destruct (push_back_spec _ _ _ _ Hr Hni Ha) as (l1 & Hpb' & Hr1 & _).
    rewrite Hpb in Hpb'. injection Hpb' as <-.
    rewrite (bind_ok _ _ _ _ _ Hpb).
    unfold pop_back. rewrite bind_run. unfold read at 1. simpl.
    assert (Hn1 : h1 !! a = Some (mk_DLListNode (data n0) (_back l) None)).
    { rewrite Hh1, Ha. simpl. unfold inserted. by rewrite decide_True. }
    assert (Hi : (to_list l ++ [a]) !! length (to_list l) = Some a) by (by apply list_lookup_middle).
    destruct (eject_run _ (to_list l ++ [a]) _ a _ Hr1 Hi Hn1) as (h2 & Hej & Hh2).
    rewrite Hej. simpl. f_equal.
    rewrite (bool_decide_eq_true_2 (Some a = Some a)) by done.
    assert (Hfront : (if bool_decide ((if _front l is None then Some a else _front l) = Some a)
                      then None else if _front l is None then Some a else _front l) = _front l).
    { destruct (_front l) as [b|] eqn:Eb.
      - rewrite bool_decide_eq_false_2; [done|]. intros [= ->].
        apply Hni. apply head_Some_elem_of. by rewrite <-Hf.
      - by rewrite bool_decide_eq_true_2. }
    rewrite Hfront. destruct l as [f b h]. simpl in *. f_equal.
    apply map_eq. intros y. rewrite Hh2, Hh1.
    destruct (h !! y) as [m|] eqn:Hy; [|done]. simpl. f_equal.
    unfold ejected, inserted. simpl.
    destruct (decide (y = a)) as [->|Hya].
    + simplify_eq. destruct n0; simpl in *. by subst.
    + destruct m as [dm pm xm]. simpl. f_equal.
      destruct (decide (b = Some y)) as [Hby|Hby]; [|done].
      symmetry. apply (back_nxt_None _ _ y (mk_DLListNode dm pm xm) Hr); [|done].
      by rewrite <-Hb.
Qed.

(** Popping a node and pushing it back at the same end leaves the list
    exactly as it was, at either end. *)
Theorem pop_then_push_restores l :
  well_formed l → to_list l ≠ [] →
  (a ← pop_front; push_front a) l = (Ok (), l) ∧
  (a ← pop_back; push_back a) l = (Ok (), l).
Proof.
  intros Hr Hne. unfold well_formed in Hr.
  pose proof Hr as (Hnd & Hf & Hb & Hn). split.
  - destruct (to_list l) as [|a ls'] eqn:Els; [done|].
    assert (Hi : (a :: ls') !! 0 = Some a) by done.
    destruct (Hn 0 a Hi) as (n & Ha & Hprv & Hnxt). simpl in Hprv, Hnxt.
    destruct (eject_run _ _ _ _ _ Hr Hi Ha) as (h1 & Hej & Hh1).
    destruct (eject_spec _ _ _ _ Hr Hi) as (l1 & Hej' & Hr1 & _).
    rewrite Hej in Hej'. injection Hej' as <-. simpl in Hr1.
    unfold pop_front. rewrite bind_run, bind_run. unfold read at 1.
    rewrite Hf. simpl. rewrite Hej.
    assert (Hni : a ∉ ls') by (by apply NoDup_cons in Hnd as [? _]).
    assert (Hn1 : h1 !! a = Some (mk_DLListNode (data n) None None)).
    { rewrite Hh1, Ha. simpl. unfold ejected. by rewrite decide_True. }
    destruct (push_front_run _ _ _ _ Hr1 Hni Hn1) as (h2 & Hpf & Hh2).
    rewrite Hpf. simpl in *. f_equal.
    rewrite Hf in *. rewrite bool_decide_eq_true_2 in * by done.
    assert (Hback : (if (if bool_decide (_back l = Some a) then _prv n else _back l) is None
                     then Some a
                     else if bool_decide (_back l = Some a) then _prv n else _back l)
                    = _back l).
    { rewrite Hb, Hprv. destruct (last (a :: ls')) as [b|] eqn:Elast.
      - destruct (decide (b = a)) as [->|Hba].
        + by rewrite bool_decide_eq_true_2.
        + rewrite bool_decide_eq_false_2; [done|congruence].
      - by apply last_None in Elast. }
    rewrite Hback. destruct l as [f b h]. simpl in *. subst f. f_equal.
    apply map_eq. intros y. rewrite Hh2, Hh1.
    destruct (h !! y) as [m|] eqn:Hy; [|done]. simpl. f_equal.
    unfold ejected, inserted. simpl.
    destruct (decide (y = a)) as [->|Hya].
    + simplify_eq. destruct n; simpl in *. by subst.
    + rewrite Hprv. destruct m as [dm pm xm]. simpl. f_equal.
      destruct (decide (_nxt n = Some y)) as [Hxy|Hxy]; [|done].
      rewrite Hnxt in Hxy. destruct (Hn 1 y Hxy) as (m' & Hm' & Hp' & _).
      simpl in Hp'. by simplify_eq.
  - destruct (last (to_list l)) as [a|] eqn:Hlast; [|by apply last_None in Hlast].
    pose proof Hlast as Hi. rewrite last_lookup in Hi.
    destruct (Hn _ a Hi) as (n & Ha & Hprv & Hnxt).
    assert (Hnx : _nxt n = None).
    { rewrite Hnxt. apply lookup_ge_None. apply lookup_lt_Some in Hi. lia. }
    destruct (eject_run _ _ _ _ _ Hr Hi Ha) as (h1 & Hej & Hh1).
    destruct (eject_spec _ _ _ _ Hr Hi) as (l1 & Hej' & Hr1 & _).
    rewrite Hej in Hej'. injection Hej' as <-.
    unfold pop_back. rewrite bind_run, bind_run. unfold read at 1.
    rewrite Hb. simpl. rewrite Hej.
    assert (Hni : a ∉ delete (pred (length (to_list l))) (to_list l)).
    { pose proof Hnd as Hnd'. rewrite (delete_Permutation _ _ _ Hi) in Hnd'.
      by apply NoDup_cons in Hnd' as [? _]. }
    assert (Hn1 : h1 !! a = Some (mk_DLListNode (data n) None None)).
    { rewrite Hh1, Ha. simpl. unfold ejected. by rewrite decide_True. }
    destruct (push_back_run _ _ _ _ Hr1 Hni Hn1) as (h2 & Hpb & Hh2).
    rewrite Hpb. simpl in *. f_equal.
    rewrite (bool_decide_eq_true_2 (_back l = Some a)) in * by congruence.
    assert (Hfront : (if (if bool_decide (_front l = Some a) then _nxt n else _front l) is None
                      then Some a
                      else if bool_decide (_front l = Some a) then _nxt n else _front l)
                     = _front l).
    { rewrite Hnx. destruct (_front l) as [b|] eqn:Efront.
      - destruct (decide (b = a)) as [->|Hfa].
        + by rewrite bool_decide_eq_true_2.
        + rewrite bool_decide_eq_false_2; [done|congruence].
      - exfalso. apply Hne. apply head_None. by rewrite <-Hf. }
    rewrite Hfront.
    assert (Hba : Some a = _back l) by congruence.
    rewrite Hba. destruct l as [f b h]. simpl in *. f_equal.
    apply map_eq. intros y. rewrite Hh2, Hh1.
    destruct (h !! y) as [m|] eqn:Hy; [|done]. simpl. f_equal.
    unfold ejected, inserted. simpl.
    destruct (decide (y = a)) as [->|Hya].
    + simplify_eq. destruct n; simpl in *. by rewrite Hnx.
    + rewrite Hnx. destruct m as [dm pm xm]. simpl. f_equal.
      destruct (decide (_prv n = Some y)) as [Hpy|Hpy]; [|done].
      rewrite Hprv in Hpy.
      destruct (pred (length (to_list (mk_DLList f b h)))) as [|j] eqn:Ej; [done|].
      simpl in Hpy. destruct (Hn j y Hpy) as (m' & Hm' & _ & Hx').
      rewrite Hi in Hx'. by simplify_eq.
Qed.

End list_api.

(** ** The cache as a map *)
Section cache_api.
Context {K V : Type} `{Countable K}.
Implicit Types (k : K) (v : V) (es d : odict K V).

Lemma od_get_remove_other k k' es : k' ≠ k → od_get k' (od_remove k es) = od_get k' es.
Proof.
  intros Hne. induction es as [|[k1 v1] es IH]; simpl; [done|].
  destruct (decide (k1 = k)) as [->|Hk1]; simpl.
  - by rewrite decide_False.
  - by rewrite IH.
Qed.

Lemma od_get_set_other k k' v es : k' ≠ k → od_get k' (od_set k v es) = od_get k' es.
Proof.
  intros Hne. induction es as [|[k1 v1] es IH]; simpl.
  - by rewrite decide_False.
  - destruct (decide (k1 = k)) as [->|Hk1]; simpl.
    + by rewrite !decide_False.
    + by rewrite IH.
Qed.

Lemma od_get_app k d1 d2 :
  od_get k (d1 ++ d2) = match od_get k d1 with Some v => Some v | None => od_get k d2 end.
Proof.
  induction d1 as [|[k1 v1] d1 IH]; simpl; [done|]. by destruct (decide (k1 = k)).
Qed.

Lemma od_get_removelast k' es :
  last es.*1 ≠ Some k' → od_get k' (removelast es) = od_get k' es.
Proof.
  destruct es as [|[kl vl] es _] using rev_ind; [done|].
  rewrite removelast_last, fmap_app, od_get_app. csimpl. rewrite last_snoc. intros Hne.
  simpl.
  destruct (od_get k' es); [done|]. rewrite decide_False; [done|]. by intros ->.
Qed.

Lemma od_get_removelast_back kl es :
  NoDup es.*1 → last es.*1 = Some kl → od_get kl (removelast es) = None.
Proof.
  destruct es as [|[k1 v1] es _] using rev_ind; [done|].
  rewrite removelast_last, fmap_app. csimpl. rewrite last_snoc. intros Hnd [= ->].
  apply od_get_None. apply NoDup_app in Hnd as (_ & Hdisj & _).
  intros Hin. apply (Hdisj _ Hin). apply list_elem_of_here.
Qed.

Lemma dll_abs_cached (c : DllLruCache.LRUCache K V) ls es k :
  dll_abs c ls es → DllLruCache.cached c k = od_get k es.
Proof.
  intros Ha. unfold DllLruCache.cached.
  destruct (DllLruCache._dict c !! k) as [a|] eqn:Hk; simpl.
  - destruct (dll_abs_hit _ _ _ _ _ Ha Hk) as (i & v & _ & _ & Hit & ->).
    unfold DllLruCache.item_at in Hit.
    destruct (DllLruCache.nodes (DllLruCache._dllist c) !! a) as [n|]; [|done].
    simpl in *. by simplify_eq.
  - symmetry. by eapply dll_abs_miss.
Qed.

Lemma dll_put_run (c : DllLruCache.LRUCache K V) ls es cap k v :
  dll_abs c ls es →
  int_value (DllLruCache._max_size c) = Some cap → (0 < cap)%Z →
  (Z.of_nat (length ls) ≤ cap)%Z →
  ∃ c' ls', DllLruCache.put k v c = (Ok (), c') ∧
            dll_abs c' ls' (Spec.put cap k v es).2 ∧
            DllLruCache._max_size c' = DllLruCache._max_size c ∧
            (Z.of_nat (length ls') ≤ cap)%Z.
Proof.
  intros Ha Hcap Hpos Hlen.
  destruct (dll_step_refines _ _ _ _ (Put k v) Ha Hcap Hpos Hlen)
    as (ls' & Hout & Ha' & Hmx & Hlen').
  unfold DllLruCache.step, Spec.step in *. rewrite bind_run in *.
  assert (Hs : ∃ es', Spec.put cap k v es = (Ok (), es')).
  { unfold Spec.put. destruct (od_get k es); eauto. }
  destruct Hs as [es' Hs]. rewrite Hs in *.
  destruct (DllLruCache.put k v c) as [[[]|e] c']; simpl in *; [|done].
  by exists c', ls'.
Qed.

(** A first node that the dict knows is found by [get] without any change
    of the cache. *)
Lemma dll_get_front (c : DllLruCache.LRUCache K V) ls es k a v dflt :
  dll_abs c (a :: ls) ((k, v) :: es) → DllLruCache._dict c !! k = Some a →
  DllLruCache.get k dflt c = (Ok v, c).
Proof.
  intros Ha Hk. pose proof Ha as (Hr & Hh & _).
  apply Forall2_cons in Hh as [Hit _]. unfold DllLruCache.item_at in Hit.
  destruct (DllLruCache.nodes (DllLruCache._dllist c) !! a) as [n|] eqn:Hn; [|done].
  simpl in Hit. simplify_eq.
  unfold DllLruCache.get. rewrite bind_run. unfold read at 1. rewrite Hk.
  assert (Hmv : DllLruCache.move_to_front a (DllLruCache._dllist c)
                = (Ok a, DllLruCache._dllist c)).
  { unfold DllLruCache.move_to_front. munfold.
    rewrite bool_decide_eq_true_2; [done|]. by destruct Hr as (_ & -> & _). }
  rewrite (bind_ok _ _ _ _ _ (on_dllist_run _ _ _ _ Hmv)).
  rewrite set_dllist_dllist.
  erewrite on_dllist_run; [|apply on_heap_run].
  2:{ unfold DllLruCache.node_value. rewrite (bind_ok _ _ _ _ _ (load_Some _ _ _ Hn)). done. }
  simpl. by rewrite set_nodes_nodes, set_dllist_dllist.
Qed.

(** [main.py] raises nothing but the [KeyError] of a miss without default:
    on a cache that the constructor built and that any calls have used, [put]
    always returns, so [next(iter(self._dict))] is never called on an empty
    dict and raises no [StopIteration]; [full] returns a boolean, so the
    comparison with [_max_size] raises no [TypeError]; and [get] raises only
    [KeyError], only without a default and only for a key that is not in the
    cache. *)
Theorem main_raises_only_key_error (c : Main.LRUCache K V) :
  main_reachable c →
  (∀ k v, (Main.put k v c).1 = Ok ()) ∧
  (∃ b, Main.full c = (Ok b, c)) ∧
  (∀ k dflt e, (Main.get k dflt c).1 = Raise e →
     e = KeyError ∧ dflt = None ∧ Main.cached c k = None) ∧
  (∀ o e, (Main.step o c).1 = Raise e → e = KeyError ∧ ∃ k, o = Get k None).
Proof.
  intros (mx & Hmx & (cap & Hcap & Hpos & Hlen) & Hnd)%main_reachable_inv.
  unfold Main.len in Hlen.
  assert (Hput : ∀ k v, (Main.put k v c).1 = Ok ()).
  { intros k v. rewrite main_put_unfold, Hmx, (int_ge_obj_int _ _ _ Hcap).
    destruct (Z.leb_spec cap (Z.of_nat (length (Main._dict c)))) as [Hfull|Hnf]; [|done].
    destruct (Main._dict c); [simpl in Hfull; lia|done]. }
  assert (Hget : ∀ k dflt e, (Main.get k dflt c).1 = Raise e →
            e = KeyError ∧ dflt = None ∧ Main.cached c k = None).
  { intros k dflt e. rewrite main_get_unfold. unfold Main.cached.
    destruct (od_get k (Main._dict c)); [done|]. destruct dflt; [done|].
    by intros [= <-]. }
  split; [done|]. split; [|split; [done|]].
  - unfold Main.full. rewrite Hmx, (int_ge_obj_int _ _ _ Hcap). eauto.
  - intros [k dflt|k v] e; unfold Main.step; rewrite bind_run.
    + specialize (Hget k dflt e). destruct (Main.get k dflt c) as [[w|e'] c']; [done|].
      simpl in *. intros [= ->]. destruct Hget as (-> & -> & _); [done|]. eauto.
    + specialize (Hput k v). destruct (Main.put k v c) as [[[]|e'] c']; done.
Qed.

(** [full] on a cache in use: it returns a boolean, which says whether the
    number of entries is the capacity ([>=] never holds strictly), and changes
    nothing. In both files. *)
Theorem full_iff_at_capacity (c : Main.LRUCache K V) (d : DllLruCache.LRUCache K V) :
  main_reachable c → dll_reachable d →
  (∃ cap, int_value (Main.max_size c) = Some cap ∧
          Main.full c = (Ok (bool_decide (Z.of_nat (Main.len c) = cap)), c)) ∧
  (∃ cap, int_value (DllLruCache.max_size d) = Some cap ∧
          DllLruCache.full d = (Ok (bool_decide (Z.of_nat (DllLruCache.len d) = cap)), d)).
Proof.
  intros (mx & Hmx & (cap & Hcap & Hpos & Hlen) & Hnd)%main_reachable_inv.
  intros (mx' & Hmx' & cap' & ls & es & Hcap' & Hpos' & Ha & Hlen')%dll_reachable_inv.
  split.
  - exists cap. unfold Main.max_size, Main.full. rewrite Hmx. split; [done|].
    rewrite (int_ge_obj_int _ _ _ Hcap). do 2 f_equal. unfold Main.len in *.
    destruct (Z.leb_spec cap (Z.of_nat (length (Main._dict c)))).
    + rewrite bool_decide_eq_true_2; [done|lia].
    + rewrite bool_decide_eq_false_2; [done|lia].
  - exists cap'. unfold DllLruCache.max_size. rewrite Hmx'. split; [done|].
    rewrite <-Hmx' in Hcap'. rewrite (full_run _ _ Hcap'). do 2 f_equal.
    unfold DllLruCache.len. destruct Ha as (_ & _ & Hsz & _). rewrite Hsz.
    destruct (Z.leb_spec cap' (Z.of_nat (length ls))).
    + rewrite bool_decide_eq_true_2; [done|lia].
    + rewrite bool_decide_eq_false_2; [done|lia].
Qed.

(** What [put] stores, [get] returns: after [put(k, v)] the cache holds [v]
    for [k], and a [get(k)] that follows returns [v], with or without a
    default. In both files, whether the key was in the cache or not and
    whether the cache was full or not. *)
Theorem put_then_get (c : Main.LRUCache K V) (d : DllLruCache.LRUCache K V) k v dflt :
  main_reachable c → dll_reachable d →
  Main.cached (Main.put k v c).2 k = Some v ∧
  ((Main.put k v;; Main.get k dflt) c).1 = Ok v ∧
  DllLruCache.cached (DllLruCache.put k v d).2 k = Some v ∧
  ((DllLruCache.put k v;; DllLruCache.get k dflt) d).1 = Ok v.
Proof.
  intros (mx & Hmx & (cap & Hcap & Hpos & Hlen) & Hnd)%main_reachable_inv.
  intros (mx' & Hmx' & cap' & ls & es & Hcap' & Hpos' & Ha & Hlen')%dll_reachable_inv.
  assert (Hm : ∃ d', Main.put k v c = (Ok (), Main.set_dict (od_set k v d') c)).
  { rewrite main_put_unfold, Hmx, (int_ge_obj_int _ _ _ Hcap). unfold Main.len in Hlen.
    destruct (Z.leb_spec cap (Z.of_nat (length (Main._dict c)))) as [Hfull|Hnf]; [|eauto].
    destruct (Main._dict c); [simpl in Hfull; lia|eauto]. }
  destruct Hm as [d' Hm]. rewrite (bind_ok _ _ _ _ _ Hm), Hm. simpl.
  unfold Main.cached. simpl. rewrite main_get_unfold. simpl. rewrite od_get_set.
  split; [done|]. split; [done|].
  rewrite <-Hmx' in Hcap'.
  destruct (dll_put_run _ _ _ _ k v Ha Hcap' Hpos' Hlen') as (d1 & ls1 & Hput & Ha1 & Hmx1 & Hlen1).
  rewrite (bind_ok _ _ _ _ _ Hput), Hput. simpl.
  assert (Hes : ∃ es1, (Spec.put cap' k v es).2 = (k, v) :: es1).
  { unfold Spec.put. destruct (od_get k es); simpl; eauto. }
  destruct Hes as [es1 Hes]. rewrite Hes in Ha1.
  rewrite (dll_abs_cached _ _ _ k Ha1). simpl. rewrite decide_True by done.
  split; [done|].
  rewrite <-Hmx1 in Hcap'.
  destruct (dll_step_refines _ _ _ _ (Get k dflt) Ha1 Hcap' Hpos' Hlen1) as (ls2 & Hout & _).
  unfold DllLruCache.step, Spec.step, Spec.get in Hout. rewrite bind_run in Hout.
  simpl in Hout. rewrite decide_True in Hout by done. simpl in Hout.
  destruct (DllLruCache.get k dflt d1) as [[w|e] d2]; simpl in *; by simplify_eq.
Qed.

(** [get] changes no content: after a [get], hit or miss, every key holds
    the value it held, the number of entries is the same, and the same [get]
    again returns the same and leaves the cache as the first one left it. In
    both files. *)
Theorem get_keeps_contents (c : Main.LRUCache K V) (d : DllLruCache.LRUCache K V)
    k dflt k' :
  main_reachable c → dll_reachable d →
  Main.cached (Main.get k dflt c).2 k' = Main.cached c k' ∧
  Main.len (Main.get k dflt c).2 = Main.len c ∧
  Main.get k dflt (Main.get k dflt c).2 = Main.get k dflt c ∧
  DllLruCache.cached (DllLruCache.get k dflt d).2 k' = DllLruCache.cached d k' ∧
  DllLruCache.len (DllLruCache.get k dflt d).2 = DllLruCache.len d ∧
  DllLruCache.get k dflt (DllLruCache.get k dflt d).2 = DllLruCache.get k dflt d.
Proof.
  intros (mx & Hmx & (cap & Hcap & Hpos & Hlen) & Hnd)%main_reachable_inv.
  intros (mx' & Hmx' & cap' & ls & es & Hcap' & Hpos' & Ha & Hlen')%dll_reachable_inv.
  split; [|split; [|split; [|split; [|split]]]].
  - rewrite main_get_unfold. unfold Main.cached.
    destruct (od_get k (Main._dict c)) as [w|] eqn:Hget; [|by destruct dflt]. simpl.
    destruct (decide (k' = k)) as [->|Hne].
    + by rewrite od_get_set.
    + by rewrite od_get_set_other, od_get_remove_other.
  - rewrite main_get_unfold. unfold Main.len.
    destruct (od_get k (Main._dict c)) as [w|] eqn:Hget; [|by destruct dflt]. simpl.
    rewrite od_set_absent by (by apply od_remove_not_elem).
    rewrite length_app, od_remove_length. unfold od_contains. rewrite Hget. simpl.
    destruct (Main._dict c); simpl in *; [done|lia].
  - rewrite (main_get_unfold k dflt c).
    destruct (od_get k (Main._dict c)) as [w|] eqn:Hget.
    + simpl. rewrite main_get_unfold. simpl. rewrite od_get_set.
      unfold Main.set_dict. simpl. do 3 f_equal.
      pose proof (od_remove_not_elem k _ Hnd) as Hni.
      rewrite (od_set_absent k w (od_remove k (Main._dict c))) by done.
      rewrite od_remove_app_absent by done. simpl. rewrite decide_True by done.
      by rewrite app_nil_r.
    + destruct dflt; simpl; rewrite main_get_unfold, Hget; done.
  - destruct (DllLruCache._dict d !! k) as [a|] eqn:Hk.
    + destruct (get_hit _ _ _ _ _ dflt Ha Hk) as (i & w & l' & Hi & He & -> & Ha').
      simpl. rewrite (dll_abs_cached _ _ _ k' Ha'), (dll_abs_cached _ _ _ k' Ha).
      pose proof (dll_abs_NoDup _ _ _ Ha) as Hnde.
      rewrite <-(od_remove_delete _ _ _ _ Hnde He). simpl.
      destruct (decide (k = k')) as [<-|Hne].
      * symmetry. by eapply od_get_lookup.
      * by apply od_get_remove_other.
    + rewrite (get_miss _ _ dflt Hk). done.
  - destruct (DllLruCache._dict d !! k) as [a|] eqn:Hk.
    + by destruct (get_hit _ _ _ _ _ dflt Ha Hk) as (i & w & l' & Hi & He & -> & Ha').
    + by rewrite (get_miss _ _ dflt Hk).
  - destruct (DllLruCache._dict d !! k) as [a|] eqn:Hk.
    + destruct (get_hit _ _ _ _ _ dflt Ha Hk) as (i & w & l' & Hi & He & -> & Ha').
      simpl. by eapply dll_get_front.
    + rewrite (get_miss _ _ dflt Hk). simpl. by rewrite (get_miss _ _ dflt Hk).
Qed.

(** What [put(k, v)] does to the other keys, and where the two files part.
    In [main.py] a full cache loses the first key of its dict, whatever [k]
    is, and every other key keeps its value. In [dll_lru_cache.py] the cache
    loses a key only when it is full and [k] is not in it, the lost key is the
    last one in recency order, and every other key keeps its value. *)
Theorem put_keeps_other_keys (c : Main.LRUCache K V) (d : DllLruCache.LRUCache K V)
    k v k' :
  main_reachable c → dll_reachable d → k' ≠ k →
  let main_evicts := (Main.full c).1 = Ok true ∧ head (Main.keys c) = Some k' in
  let dll_evicts := (DllLruCache.full d).1 = Ok true ∧ DllLruCache._dict d !! k = None ∧
                    last (DllLruCache.recency d) = Some k' in
  (main_evicts → Main.cached (Main.put k v c).2 k' = None) ∧
  (¬ main_evicts → Main.cached (Main.put k v c).2 k' = Main.cached c k') ∧
  (dll_evicts → DllLruCache.cached (DllLruCache.put k v d).2 k' = None) ∧
  (¬ dll_evicts →
     DllLruCache.cached (DllLruCache.put k v d).2 k' = DllLruCache.cached d k').
Proof.
  intros (mx & Hmx & (cap & Hcap & Hpos & Hlen) & Hnd)%main_reachable_inv.
  intros (mx' & Hmx' & cap' & ls & es & Hcap' & Hpos' & Ha & Hlen')%dll_reachable_inv.
  intros Hne. cbv zeta.
  assert (Hmain :
    ((Main.full c).1 = Ok true ∧ head (Main.keys c) = Some k' →
       Main.cached (Main.put k v c).2 k' = None) ∧
    (¬ ((Main.full c).1 = Ok true ∧ head (Main.keys c) = Some k') →
       Main.cached (Main.put k v c).2 k' = Main.cached c k')).
  { unfold Main.full, Main.cached, Main.keys. rewrite main_put_unfold, Hmx.
    rewrite (int_ge_obj_int _ _ _ Hcap). simpl. unfold Main.len, Main.keys in *.
    destruct (Z.leb_spec cap (Z.of_nat (length (Main._dict c)))) as [Hfull|Hnf].
    - destruct (Main._dict c) as [|[k0 v0] rest]; [simpl in Hfull; lia|].
      csimpl in *. apply NoDup_cons in Hnd as [Hni _]. split.
      + intros [_ [= ->]]. rewrite od_get_set_other by done. by apply od_get_None.
      + intros Hnot. rewrite od_get_set_other by done.
        rewrite decide_False; [done|]. intros ->. by apply Hnot.
    - simpl. split; [by intros [[=] _]|]. intros _. by apply od_get_set_other. }
  destruct Hmain as [Hm1 Hm2]. split; [done|]. split; [done|].
  rewrite <-Hmx' in Hcap'.
  destruct (dll_put_run _ _ _ _ k v Ha Hcap' Hpos' Hlen') as (d1 & ls1 & Hput & Ha1 & _).
  rewrite Hput. simpl.
  rewrite (dll_abs_cached _ _ _ k' Ha1), (dll_abs_cached _ _ _ k' Ha).
  rewrite (full_run _ _ Hcap'). simpl. unfold DllLruCache.recency.
  rewrite (dll_abs_entries _ _ _ Ha).
  pose proof (dll_abs_NoDup _ _ _ Ha) as Hnde.
  pose proof Ha as (_ & _ & Hsz & _). rewrite Hsz.
  unfold Spec.put, Spec.is_full. rewrite (dll_abs_length _ _ _ Ha).
  destruct (DllLruCache._dict d !! k) as [a|] eqn:Hk.
  - destruct (dll_abs_hit _ _ _ _ _ Ha Hk) as (i & v0 & _ & _ & _ & ->). simpl.
    rewrite decide_False by done. rewrite od_get_remove_other by done.
    split; [by intros (_ & [=] & _)|done].
  - rewrite (dll_abs_miss _ _ _ _ Ha Hk). simpl. rewrite decide_False by done.
    destruct (Z.leb_spec cap' (Z.of_nat (length ls))) as [Hfull|Hnf].
    + rewrite bool_decide_eq_true_2 by lia. split.
      * intros (_ & _ & Hlast). by apply od_get_removelast_back.
      * intros Hnot. apply od_get_removelast. intros Hlast. by apply Hnot.
    + rewrite bool_decide_eq_false_2 by lia. split; [by intros ([=] & _)|done].
Qed.

End cache_api.

(** ** The two files on concrete calls *)

(** The comments of [main()]: key 10 is evicted, key 1 is found. *)
Example main_scenario_outcomes :
  Main.__init__ (PyInt 2) = Ok (main_cache 2) ∧
  DllLruCache.__init__ (PyInt 2) = Ok (dll_cache 2) ∧
  Main.outcomes main_scenario (main_cache 2) =
    [Ok None; Ok None; Ok (Some (PyInt 2)); Ok None; Ok (Some PyNone); Ok (Some (PyInt 2))] ∧
  DllLruCache.outcomes main_scenario (dll_cache 2) =
    [Ok None; Ok None; Ok (Some (PyInt 2)); Ok None; Ok (Some PyNone); Ok (Some (PyInt 2))] ∧
  Main.recency (Main.state_after main_scenario (main_cache 2)) = [1; 100] ∧
  DllLruCache.recency (DllLruCache.state_after main_scenario (dll_cache 2)) = [1; 100].
Proof. repeat split; vm_compute; reflexivity. Qed.

(** Every [put] of [main()] is on a new key, so the two files agree on it. *)
Example main_scenario_puts_only_insert : puts_only_insert 2 main_scenario [].
Proof. repeat split; vm_compute; reflexivity. Qed.

Example main_scenario_agreement :
  Main.outcomes main_scenario (main_cache 2)
    = DllLruCache.outcomes main_scenario (dll_cache 2) ∧
  reverse (Main._dict (Main.state_after main_scenario (main_cache 2)))
    = DllLruCache.entries (DllLruCache.state_after main_scenario (dll_cache 2)).
Proof. split; vm_compute; reflexivity. Qed.

(** C1, at a failing input of [main.py]. Capacity 3; [put(1, 10)],
    [put(2, 20)], [put(1, 11)], [put(3, 30)]: the cache is full and key 4 is
    not in it. Key 2 is the least recently accessed key (key 1 was accessed
    again by the third call), yet [put(4, 40)] removes key 1: [main.py]
    leaves a key that [put] updates at its old place in the dict. On the same
    calls [dll_lru_cache.py] removes key 2. *)
Theorem main_put_evicts_recently_used_key :
  let ops := [Put 1 (PyInt 10); Put 2 (PyInt 20); Put 1 (PyInt 11); Put 3 (PyInt 30)] in
  let c := Main.state_after ops (main_cache 3) in
  let d := DllLruCache.state_after ops (dll_cache 3) in
  Main.__init__ (PyInt 3) = Ok (main_cache 3) ∧
  DllLruCache.__init__ (PyInt 3) = Ok (dll_cache 3) ∧
  Main.cached c 4 = None ∧
  (Main.full c).1 = Ok true ∧
  Main.keys c = [1; 2; 3] ∧
  accessed_before ops 2 1 ∧ accessed_before ops 2 3 ∧ ¬ accessed_before ops 1 2 ∧
  Main.put 4 (PyInt 40) c =
    (Ok (), Main.mkLRUCache (PyInt 3) [(2, PyInt 20); (3, PyInt 30); (4, PyInt 40)]) ∧
  DllLruCache.recency d = [3; 1; 2] ∧
  DllLruCache.entries (DllLruCache.put 4 (PyInt 40) d).2 =
    [(4, PyInt 40); (3, PyInt 30); (1, PyInt 11)].
Proof.
  cbv zeta. repeat split; try (vm_compute; reflexivity).
  - exists 1, 2. repeat split; vm_compute; lia.
  - exists 1, 3. repeat split; vm_compute; lia.
  - intros (i & j & Hi & Hj & Hlt). vm_compute in Hi, Hj. simplify_eq. lia.
Qed.

(** C2, at a failing input of [main.py]. Capacity 2; [put(1, 10)],
    [put(2, 20)]: the cache is full and key 2 is in it. [put(2, 30)] evicts
    key 1 and the number of entries drops from 2 to 1: [main.py] tests
    [full] before it looks whether the key is present. When the cache is
    not full (capacity 3, same calls), [put(1, 11)] replaces the value but
    leaves key 1 the least recently used key. On the same calls
    [dll_lru_cache.py] keeps both entries and moves the key to the front. *)
Theorem main_put_present_key_evicts :
  let ops := [Put 1 (PyInt 10); Put 2 (PyInt 20)] in
  let c := Main.state_after ops (main_cache 2) in
  let d := DllLruCache.state_after ops (dll_cache 2) in
  let c3 := Main.state_after ops (main_cache 3) in
  let d3 := DllLruCache.state_after ops (dll_cache 3) in
  Main.cached c 2 = Some (PyInt 20) ∧ Main.cached c 1 = Some (PyInt 10) ∧
  Main.len c = 2 ∧ (Main.full c).1 = Ok true ∧
  Main.put 2 (PyInt 30) c = (Ok (), Main.mkLRUCache (PyInt 2) [(2, PyInt 30)]) ∧
  Main.len (Main.put 2 (PyInt 30) c).2 = 1 ∧
  Main.cached (Main.put 2 (PyInt 30) c).2 1 = None ∧
  DllLruCache.entries (DllLruCache.put 2 (PyInt 30) d).2 = [(2, PyInt 30); (1, PyInt 10)] ∧
  (Main.full c3).1 = Ok false ∧
  Main.recency c3 = [2; 1] ∧
  Main.recency (Main.put 1 (PyInt 11) c3).2 = [2; 1] ∧
  Main.cached (Main.put 1 (PyInt 11) c3).2 1 = Some (PyInt 11) ∧
  DllLruCache.recency (DllLruCache.put 1 (PyInt 11) d3).2 = [1; 2].
Proof. cbv zeta. repeat split; vm_compute; reflexivity. Qed.

(** C3, at an input where the two files differ. Capacity 2; [put(1, 10)],
    [put(2, 20)], [put(2, 30)], [get(1)]: in [main.py] the third call evicts
    key 1 and the fourth raises [KeyError]; in [dll_lru_cache.py] nothing is
    evicted and the fourth call returns 10. *)
Theorem main_and_dll_differ :
  let ops := [Put 1 (PyInt 10); Put 2 (PyInt 20); Put 2 (PyInt 30); Get 1 None] in
  Main.__init__ (PyInt 2) = Ok (main_cache 2) ∧
  DllLruCache.__init__ (PyInt 2) = Ok (dll_cache 2) ∧
  Main.outcomes ops (main_cache 2) = [Ok None; Ok None; Ok None; Raise KeyError] ∧
  DllLruCache.outcomes ops (dll_cache 2) = [Ok None; Ok None; Ok None; Ok (Some (PyInt 10))] ∧
  Main.outcomes ops (main_cache 2) ≠ DllLruCache.outcomes ops (dll_cache 2) ∧
  Main.keys (Main.state_after (take 3 ops) (main_cache 2)) = [2] ∧
  DllLruCache.recency (DllLruCache.state_after (take 3 ops) (dll_cache 2)) = [2; 1].
Proof. cbv zeta. repeat split; try (vm_compute; reflexivity). vm_compute. discriminate. Qed.

(** C4, at a failing input of [main.py]. Capacity 3; [put(1, 10)],
    [put(2, 20)]; then [put(1, 11)], on a key that is in the cache: key 2
    stays the most recently used key and key 1 the next to be evicted. On the
    same calls [dll_lru_cache.py] makes key 1 the most recently used key. *)
Theorem main_put_present_key_not_mru :
  let ops := [Put 1 (PyInt 10); Put 2 (PyInt 20)] in
  let c := Main.state_after ops (main_cache 3) in
  let d := DllLruCache.state_after ops (dll_cache 3) in
  Main.cached c 1 = Some (PyInt 10) ∧
  (Main.put 1 (PyInt 11) c).1 = Ok () ∧
  head (Main.recency (Main.put 1 (PyInt 11) c).2) = Some 2 ∧
  head (Main.recency (Main.put 1 (PyInt 11) c).2) ≠ Some 1 ∧
  last (Main.recency (Main.put 1 (PyInt 11) c).2) = Some 1 ∧
  head (DllLruCache.recency (DllLruCache.put 1 (PyInt 11) d).2) = Some 1.
Proof. cbv zeta. repeat split; try (vm_compute; reflexivity). vm_compute. discriminate. Qed.

(** *** The theorems at the scenario of [main()] *)

Lemma main_scenario_main_reachable :
  main_reachable (Main.state_after main_scenario (main_cache 2)).
Proof. exists (PyInt 2), (main_cache 2), main_scenario. split; reflexivity. Defined.

Lemma main_scenario_dll_reachable :
  dll_reachable (DllLruCache.state_after main_scenario (dll_cache 2)).
Proof. exists (PyInt 2), (dll_cache 2), main_scenario. split; reflexivity. Defined.

(** A reachable cache's list is well formed, with the nodes that a walk from
    the front finds. *)
Lemma dll_reachable_repr {K V : Type} `{Countable K} (c : DllLruCache.LRUCache K V) :
  dll_reachable c →
  dll_repr (DllLruCache._dllist c) (DllLruCache.to_list (DllLruCache._dllist c)).
Proof.
  intros (mx & _ & cap & ls & es & _ & _ & (Hr & _) & _)%dll_reachable_inv.
  by rewrite (to_list_repr _ _ Hr).
Qed.

Lemma capacity_invariant_witness :
  ∃ cap,
    int_value (Main.max_size (Main.state_after main_scenario (main_cache 2))) = Some cap ∧
    int_value (DllLruCache.max_size (DllLruCache.state_after main_scenario (dll_cache 2)))
      = Some cap ∧
    (0 ≤ Z.of_nat (Main.len (Main.state_after main_scenario (main_cache 2))) ≤ cap)%Z ∧
    (0 ≤ Z.of_nat (DllLruCache.len (DllLruCache.state_after main_scenario (dll_cache 2)))
       ≤ cap)%Z.
Proof.
  apply (capacity_invariant (PyInt 2) main_scenario (main_cache 2) (dll_cache 2));
    reflexivity.
Defined.

Lemma index_list_consistent_witness :
  consistent (DllLruCache.state_after main_scenario (dll_cache 2)) ∧
  consistent
    (DllLruCache.step (Put 7 (PyInt 70))
       (DllLruCache.state_after main_scenario (dll_cache 2))).2.
Proof.
  apply (index_list_consistent _ (Put 7 (PyInt 70))).
  apply main_scenario_dll_reachable.
Defined.

Lemma get_miss_pure_witness :
  let c := Main.state_after main_scenario (main_cache 2) in
  let d := DllLruCache.state_after main_scenario (dll_cache 2) in
  Main.get 10 None c = (Raise KeyNotFoundError, c) ∧
  (∀ x, Main.get 10 (Some x) c = (Ok x, c)) ∧
  DllLruCache.get 10 None d = (Raise KeyNotFoundError, d) ∧
  (∀ x, DllLruCache.get 10 (Some x) d = (Ok x, d)).
Proof.
  apply (get_miss_pure
           (Main.state_after main_scenario (main_cache 2))
           (DllLruCache.state_after main_scenario (dll_cache 2)) 10);
    vm_compute; reflexivity.
Defined.

Lemma pop_empty_error_unreachable_witness :
  let c := DllLruCache.state_after main_scenario (dll_cache 2) in
  let l := DllLruCache._dllist c in
  let o := Put 7 (PyInt 70) in
  DllLruCache.to_list l = [0; 2] ∧
  (((DllLruCache.pop_back l).1 = Raise EmptyError ↔ DllLruCache.to_list l = []) ∧
   ((DllLruCache.pop_front l).1 = Raise EmptyError ↔ DllLruCache.to_list l = []) ∧
   ((DllLruCache.full c).1 = Ok true →
      DllLruCache.to_list (DllLruCache._dllist c) ≠ [] ∧
      ∃ a, (DllLruCache.pop_back (DllLruCache._dllist c)).1 = Ok a) ∧
   (DllLruCache.step o c).1 ≠ Raise EmptyError ∧
   (∀ e, (DllLruCache.step o c).1 = Raise e →
      e = KeyError ∧ ∃ k, o = Get k None ∧ DllLruCache._dict c !! k = None)).
Proof.
  cbv zeta. split; [vm_compute; reflexivity|].
  apply (pop_empty_error_unreachable
           (DllLruCache._dllist (DllLruCache.state_after main_scenario (dll_cache 2)))
           (DllLruCache.to_list
              (DllLruCache._dllist (DllLruCache.state_after main_scenario (dll_cache 2))))
           (DllLruCache.state_after main_scenario (dll_cache 2))
           (Put 7 (PyInt 70))).
  - apply dll_reachable_repr, main_scenario_dll_reachable.
  - apply main_scenario_dll_reachable.
Defined.

Lemma get_hit_ignores_default_witness :
  let c := Main.state_after main_scenario (main_cache 2) in
  let d := DllLruCache.state_after main_scenario (dll_cache 2) in
  Main.get 100 (Some PyNone) c = Main.get 100 None c ∧
  (Main.get 100 (Some PyNone) c).1 = Ok (PyInt 200) ∧
  head (Main.recency (Main.get 100 (Some PyNone) c).2) = Some 100 ∧
  DllLruCache.get 100 (Some PyNone) d = DllLruCache.get 100 None d ∧
  (DllLruCache.get 100 (Some PyNone) d).1 = Ok (PyInt 200) ∧
  head (DllLruCache.recency (DllLruCache.get 100 (Some PyNone) d).2) = Some 100.
Proof.
  apply (get_hit_ignores_default
           (Main.state_after main_scenario (main_cache 2))
           (DllLruCache.state_after main_scenario (dll_cache 2))
           100 (PyInt 200) (PyInt 200) PyNone).
  - apply main_scenario_main_reachable.
  - apply main_scenario_dll_reachable.
  - vm_compute; reflexivity.
  - vm_compute; reflexivity.
Defined.

(** *** The nodes, the list and the cache of the scenario *)
Section scenario.
Import DllLruCache.

Lemma dll_final_list_well_formed : well_formed dll_final_list.
Proof. unfold well_formed. apply dll_reachable_repr, main_scenario_dll_reachable. Qed.

Lemma dll_final_list_nodes : to_list dll_final_list = [0; 2].
Proof. vm_compute; reflexivity. Qed.

Lemma dll_final_spare : 1 ∉ to_list dll_final_list.
Proof.
  rewrite dll_final_list_nodes. intros Hin.
  apply elem_of_cons in Hin as [Hin|Hin]; [discriminate|].
  apply elem_of_cons in Hin as [Hin|Hin]; [discriminate|].
  by apply elem_of_nil in Hin.
Qed.

Lemma node_eject_sews_witness :
  ∃ h', node_eject 0 (nodes dll_final_list) = (Ok 0, h') ∧
        h' !! 0 = Some (mk_DLListNode (data node_of_key_1) None None) ∧
        (∀ p, _prv node_of_key_1 = Some p → _nxt <$> h' !! p = Some (_nxt node_of_key_1)) ∧
        (∀ x, _nxt node_of_key_1 = Some x → _prv <$> h' !! x = Some (_prv node_of_key_1)) ∧
        (∀ y, y ≠ 0 → _prv node_of_key_1 ≠ Some y → _nxt node_of_key_1 ≠ Some y →
              h' !! y = nodes dll_final_list !! y) ∧
        same_data (nodes dll_final_list) h' ∧
        node_eject 0 h' = (Ok 0, h').
Proof.
  apply (node_eject_sews (nodes dll_final_list) 0 node_of_key_1).
  - vm_compute; reflexivity.
  - intros p Hp. discriminate Hp.
  - intros x [= <-]. split; [lia|]. exists node_of_key_100. vm_compute; reflexivity.
Defined.

Lemma node_insert_then_eject_witness :
  (node_insert_between 1 (Some 0) (Some 2);; node_eject 1) (nodes dll_final_list)
    = (Ok 1, nodes dll_final_list).
Proof.
  apply (node_insert_then_eject (nodes dll_final_list) 1 node_of_key_10 (Some 0) (Some 2)).
  - vm_compute; reflexivity.
  - split; reflexivity.
  - intros p [= <-]. split; [lia|]. exists node_of_key_1.
    split; [vm_compute; reflexivity|reflexivity].
  - intros x [= <-]. split; [lia|]. exists node_of_key_100.
    split; [vm_compute; reflexivity|reflexivity].
Defined.

Lemma node_eject_then_insert_witness :
  (node_eject 2;; node_insert_between 2 (_prv node_of_key_100) (_nxt node_of_key_100))
    (nodes dll_final_list)
    = (Ok 2, nodes dll_final_list).
Proof.
  apply (node_eject_then_insert (nodes dll_final_list) 2 node_of_key_100).
  - vm_compute; reflexivity.
  - intros p [= <-]. split; [lia|]. exists node_of_key_1.
    split; [vm_compute; reflexivity|reflexivity].
  - intros x Hx. discriminate Hx.
Defined.

Lemma list_ends_agree_witness :
  empty dll_final_list = (Ok (bool_decide (to_list dll_final_list = [])), dll_final_list) ∧
  front dll_final_list = (Ok (head (to_list dll_final_list)), dll_final_list) ∧
  back dll_final_list = (Ok (last (to_list dll_final_list)), dll_final_list) ∧
  (_front dll_final_list = None ↔ _back dll_final_list = None) ∧
  NoDup (to_list dll_final_list) ∧
  to_list_back dll_final_list = reverse (to_list dll_final_list).
Proof. apply (list_ends_agree dll_final_list), dll_final_list_well_formed. Defined.

Lemma push_front_prepends_witness :
  ∃ l', push_front 1 dll_final_list = (Ok (), l') ∧
        well_formed l' ∧
        to_list l' = 1 :: to_list dll_final_list ∧
        same_data (nodes dll_final_list) (nodes l').
Proof.
  apply (push_front_prepends dll_final_list 1 node_of_key_10).
  - apply dll_final_list_well_formed.
  - apply dll_final_spare.
  - vm_compute; reflexivity.
Defined.

Lemma push_back_appends_witness :
  ∃ l', push_back 1 dll_final_list = (Ok (), l') ∧
        well_formed l' ∧
        to_list l' = to_list dll_final_list ++ [1] ∧
        same_data (nodes dll_final_list) (nodes l').
Proof.
  apply (push_back_appends dll_final_list 1 node_of_key_10).
  - apply dll_final_list_well_formed.
  - apply dll_final_spare.
  - vm_compute; reflexivity.
Defined.

Lemma eject_unlinks_witness :
  ∃ l' n, eject 2 dll_final_list = (Ok 2, l') ∧
          well_formed l' ∧
          to_list l' = delete 1 (to_list dll_final_list) ∧
          nodes l' !! 2 = Some n ∧ detached n ∧
          same_data (nodes dll_final_list) (nodes l').
Proof.
  apply (eject_unlinks dll_final_list 1 2).
  - apply dll_final_list_well_formed.
  - vm_compute; reflexivity.
Defined.

Lemma pop_returns_end_witness :
  (∃ l', pop_front dll_final_list = (Ok 0, l') ∧ well_formed l' ∧
         to_list l' = tail (to_list dll_final_list)) ∧
  (∃ l', pop_back dll_final_list = (Ok 2, l') ∧ well_formed l' ∧
         to_list l' = removelast (to_list dll_final_list)).
Proof.
  apply (pop_returns_end dll_final_list 0 2).
  - apply dll_final_list_well_formed.
  - vm_compute; reflexivity.
  - vm_compute; reflexivity.
Defined.

Lemma move_to_front_moves_witness :
  ∃ l', move_to_front 2 dll_final_list = (Ok 2, l') ∧
        well_formed l' ∧
        to_list l' = 2 :: delete 1 (to_list dll_final_list) ∧
        same_data (nodes dll_final_list) (nodes l') ∧
        (1 = 0 → l' = dll_final_list) ∧
        move_to_front 2 l' = (Ok 2, l').
Proof.
  apply (move_to_front_moves dll_final_list 1 2).
  - apply dll_final_list_well_formed.
  - vm_compute; reflexivity.
Defined.

Lemma move_to_back_moves_witness :
  ∃ l', move_to_back 0 dll_final_list = (Ok 0, l') ∧
        well_formed l' ∧
        to_list l' = delete 0 (to_list dll_final_list) ++ [0] ∧
        same_data (nodes dll_final_list) (nodes l') ∧
        (0 = pred (length (to_list dll_final_list)) → l' = dll_final_list) ∧
        move_to_back 0 l' = (Ok 0, l').
Proof.
  apply (move_to_back_moves dll_final_list 0 0).
  - apply dll_final_list_well_formed.
  - vm_compute; reflexivity.
Defined.

Lemma push_then_pop_restores_witness :
  (push_front 1;; pop_front) dll_final_list = (Ok 1, dll_final_list) ∧
  (push_back 1;; pop_back) dll_final_list = (Ok 1, dll_final_list).
Proof.
  apply (push_then_pop_restores dll_final_list 1 node_of_key_10).
  - apply dll_final_list_well_formed.
  - apply dll_final_spare.
  - vm_compute; reflexivity.
  - split; reflexivity.
Defined.

Lemma pop_then_push_restores_witness :
  (a ← pop_front; push_front a) dll_final_list = (Ok (), dll_final_list) ∧
  (a ← pop_back; push_back a) dll_final_list = (Ok (), dll_final_list).
Proof.
  apply (pop_then_push_restores dll_final_list).
  - apply dll_final_list_well_formed.
  - rewrite dll_final_list_nodes. discriminate.
Defined.

Lemma dll_refines_spec_witness :
  ∃ cap, int_value (PyInt 2) = Some cap ∧
         outcomes main_scenario (dll_cache 2) = (Spec.run cap main_scenario []).1 ∧
         entries (state_after main_scenario (dll_cache 2)) = (Spec.run cap main_scenario []).2.
Proof. apply (dll_refines_spec (PyInt 2) main_scenario (dll_cache 2)). reflexivity. Defined.

Lemma dll_put_present_witness :
  (put 100 (PyInt 7) dll_final).1 = Ok () ∧
  entries (put 100 (PyInt 7) dll_final).2 = (100, PyInt 7) :: od_remove 100 (entries dll_final) ∧
  cached (put 100 (PyInt 7) dll_final).2 100 = Some (PyInt 7) ∧
  _dict (put 100 (PyInt 7) dll_final).2 = _dict dll_final ∧
  len (put 100 (PyInt 7) dll_final).2 = len dll_final.
Proof.
  apply (dll_put_present dll_final 100 (PyInt 7) (PyInt 200)).
  - apply main_scenario_dll_reachable.
  - vm_compute; reflexivity.
Defined.

Lemma dll_put_full_evicts_lru_witness :
  let c := state_after main_scenario (dll_cache 2) in
  let c' := (put 7 (PyInt 70) c).2 in
  ∃ victim,
    last (recency c) = Some victim ∧
    (put 7 (PyInt 70) c).1 = Ok () ∧
    recency c' = 7 :: removelast (recency c) ∧
    dom (_dict c') = {[7]} ∪ (dom (_dict c) ∖ {[victim]}) ∧
    victim ∈ dom (_dict c) ∧
    len c' = len c ∧
    ∀ k', k' ∈ dom (_dict c) → k' ≠ victim → accessed_before main_scenario victim k'.
Proof.
  apply (dll_put_full_evicts_lru (PyInt 2) main_scenario (dll_cache 2) 7 (PyInt 70)).
  - reflexivity.
  - vm_compute; reflexivity.
  - vm_compute; reflexivity.
Defined.

Lemma dll_touched_key_is_mru_witness :
  let ops := [Get 100 None; Put 100 (PyInt 5)] in
  (is_Some (_dict dll_final !! 100) → head (recency (get 100 None dll_final).2) = Some 100) ∧
  head (recency (put 100 (PyInt 7) dll_final).2) = Some 100 ∧
  (head (recency dll_final) = Some 100 → Forall (λ o, op_key o = 100) ops →
     head (recency (state_after ops dll_final)) = Some 100).
Proof.
  apply (dll_touched_key_is_mru dll_final 100 (PyInt 7) None
           [Get 100 None; Put 100 (PyInt 5)]).
  apply main_scenario_dll_reachable.
Defined.

Lemma dll_list_well_formed_witness :
  to_list_back (_dllist dll_final) = reverse (to_list (_dllist dll_final)) ∧
  length (to_list (_dllist dll_final)) = len dll_final ∧
  empty (_dllist dll_final) = (Ok (bool_decide (len dll_final = 0)), _dllist dll_final).
Proof. apply (dll_list_well_formed dll_final), main_scenario_dll_reachable. Defined.

Lemma main_refines_spec_when_puts_insert_witness :
  Main.outcomes main_scenario (main_cache 2) = (Spec.run 2 main_scenario []).1 ∧
  reverse (Main._dict (Main.state_after main_scenario (main_cache 2)))
    = (Spec.run 2 main_scenario []).2.
Proof.
  apply (main_refines_spec_when_puts_insert (PyInt 2) 2 main_scenario (main_cache 2)).
  - reflexivity.
  - reflexivity.
  - apply main_scenario_puts_only_insert.
Defined.

Lemma main_agrees_with_dll_when_puts_insert_witness :
  Main.outcomes main_scenario (main_cache 2) = outcomes main_scenario (dll_cache 2) ∧
  reverse (Main._dict (Main.state_after main_scenario (main_cache 2)))
    = entries (state_after main_scenario (dll_cache 2)).
Proof.
  apply (main_agrees_with_dll_when_puts_insert (PyInt 2) 2 main_scenario
           (main_cache 2) (dll_cache 2)).
  - reflexivity.
  - reflexivity.
  - reflexivity.
  - apply main_scenario_puts_only_insert.
Defined.

Lemma main_raises_only_key_error_witness :
  (∀ k v, (Main.put k v main_final).1 = Ok ()) ∧
  (∃ b, Main.full main_final = (Ok b, main_final)) ∧
  (∀ k dflt e, (Main.get k dflt main_final).1 = Raise e →
     e = KeyError ∧ dflt = None ∧ Main.cached main_final k = None) ∧
  (∀ o e, (Main.step o main_final).1 = Raise e → e = KeyError ∧ ∃ k, o = Get k None).
Proof. apply (main_raises_only_key_error main_final), main_scenario_main_reachable. Defined.

Lemma full_iff_at_capacity_witness :
  (∃ cap, int_value (Main.max_size main_final) = Some cap ∧
          Main.full main_final
            = (Ok (bool_decide (Z.of_nat (Main.len main_final) = cap)), main_final)) ∧
  (∃ cap, int_value (max_size dll_final) = Some cap ∧
          full dll_final = (Ok (bool_decide (Z.of_nat (len dll_final) = cap)), dll_final)).
Proof.
  apply (full_iff_at_capacity main_final dll_final).
  - apply main_scenario_main_reachable.
  - apply main_scenario_dll_reachable.
Defined.

Lemma put_then_get_witness :
  Main.cached (Main.put 1 (PyInt 3) main_final).2 1 = Some (PyInt 3) ∧
  ((Main.put 1 (PyInt 3);; Main.get 1 None) main_final).1 = Ok (PyInt 3) ∧
  cached (put 1 (PyInt 3) dll_final).2 1 = Some (PyInt 3) ∧
  ((put 1 (PyInt 3);; get 1 None) dll_final).1 = Ok (PyInt 3).
Proof.
  apply (put_then_get main_final dll_final 1 (PyInt 3) None).
  - apply main_scenario_main_reachable.
  - apply main_scenario_dll_reachable.
Defined.

Lemma get_keeps_contents_witness :
  Main.cached (Main.get 1 None main_final).2 100 = Main.cached main_final 100 ∧
  Main.len (Main.get 1 None main_final).2 = Main.len main_final ∧
  Main.get 1 None (Main.get 1 None main_final).2 = Main.get 1 None main_final ∧
  cached (get 1 None dll_final).2 100 = cached dll_final 100 ∧
  len (get 1 None dll_final).2 = len dll_final ∧
  get 1 None (get 1 None dll_final).2 = get 1 None dll_final.
Proof.
  apply (get_keeps_contents main_final dll_final 1 None 100).
  - apply main_scenario_main_reachable.
  - apply main_scenario_dll_reachable.
Defined.

Lemma put_keeps_other_keys_witness :
  let main_evicts := (Main.full main_final).1 = Ok true ∧
                     head (Main.keys main_final) = Some 100 in
  let dll_evicts := (full dll_final).1 = Ok true ∧ _dict dll_final !! 7 = None ∧
                    last (recency dll_final) = Some 100 in
  (main_evicts → Main.cached (Main.put 7 (PyInt 70) main_final).2 100 = None) ∧
  (¬ main_evicts →
     Main.cached (Main.put 7 (PyInt 70) main_final).2 100 = Main.cached main_final 100) ∧
  (dll_evicts → cached (put 7 (PyInt 70) dll_final).2 100 = None) ∧
  (¬ dll_evicts → cached (put 7 (PyInt 70) dll_final).2 100 = cached dll_final 100).
Proof.
  apply (put_keeps_other_keys main_final dll_final 7 (PyInt 70) 100).
  - apply main_scenario_main_reachable.
  - apply main_scenario_dll_reachable.
  - lia.
Defined.

End scenario.
